(** * StarMinder: the simulation engine ([src/gameEngine.ts]) and its host
      commands ([src/App.tsx]), embedded in Rocq.

    Number model.  Every TypeScript [number] is modelled as an exact real
    number ([R]): [Math.sqrt] is [sqrt], [Math.pow b 2] is [b ^ 2],
    [Math.max]/[Math.min] are [Rmax]/[Rmin], [Math.floor] is [Zfloor],
    [Math.cos]/[Math.sin] are [cos]/[sin] and [Math.atan2] is built from
    [atan].  Rounding, NaN and the infinities of IEEE doubles are outside
    this model; the one place where the source uses [Infinity] (the running
    minimum of the target search) is modelled by an [option].  The results
    about the simulation are therefore stated so that they do not lean on
    exact arithmetic: a computed number is described by the expression the
    source evaluates, comparisons are the tests of the source, and where a
    result needs the numbers to be finite this is a hypothesis.  Where
    rounding decides the answer, as in the line-of-sight test, the same
    lines are also embedded over binary64 ([Binary64], below).

    Randomness.  [Math.random()] is an oracle [rnd : nat -> R]: the k-th call
    made during a tick returns [rnd k].  The call counter is threaded through
    the tick together with the possibility of running out of fuel in the
    loops of the source that have no static bound. *)

From Stdlib Require Import Floats.
From Stdlib Require Import Reals Lra Lia List ZArith Bool String.
Import ListNotations.
Open Scope R_scope.


(* ------------------------------------------------------------------ *)
(** * Comparisons of numbers, as booleans *)

Definition Rltb (a b : R) : bool := if Rlt_dec a b then true else false.
Definition Rleb (a b : R) : bool := if Rle_dec a b then true else false.
Definition Rgtb (a b : R) : bool := Rltb b a.
Definition Rgeb (a b : R) : bool := Rleb b a.
Definition Reqb (a b : R) : bool := if Req_dec_T a b then true else false.

(** [Math.pow(b, 2)], [Math.floor] and [Math.atan2]. *)
Definition Math_pow (b : R) (e : nat) : R := b ^ e.
Definition Math_floor (v : R) : R := IZR (Zfloor v).
Definition Math_hypot (a b : R) : R := sqrt (a ^ 2 + b ^ 2).
Definition Math_atan2 (b a : R) : R :=
  if Rltb 0 a then atan (b / a)
  else if Rltb a 0 then (if Rleb 0 b then atan (b / a) + PI else atan (b / a) - PI)
  else if Rltb 0 b then PI / 2
  else if Rltb b 0 then - (PI / 2)
  else 0.

(* ------------------------------------------------------------------ *)
(** * Data model ([src/types.ts]) *)

Inductive GamePhase := INTRO | IDLE | WARPING | SCANNING | LEVEL_UP | GAME_OVER | VICTORY.
Inductive EnemyType := TANK | RANGED | SWARM | BOSS.
Inductive WeaponType := MACHINE_GUN | MISSILE | LASER.
Inductive ProjectileType := BULLET | PMISSILE | LASER_BEAM | ENEMY_ORB.

Definition GamePhase_eqb (a b : GamePhase) : bool :=
  match a, b with
  | INTRO, INTRO | IDLE, IDLE | WARPING, WARPING | SCANNING, SCANNING
  | LEVEL_UP, LEVEL_UP | GAME_OVER, GAME_OVER | VICTORY, VICTORY => true
  | _, _ => false
  end.

Definition EnemyType_eqb (a b : EnemyType) : bool :=
  match a, b with
  | TANK, TANK | RANGED, RANGED | SWARM, SWARM | BOSS, BOSS => true
  | _, _ => false
  end.

Definition ProjectileType_eqb (a b : ProjectileType) : bool :=
  match a, b with
  | BULLET, BULLET | PMISSILE, PMISSILE | LASER_BEAM, LASER_BEAM
  | ENEMY_ORB, ENEMY_ORB => true
  | _, _ => false
  end.

Record Vector2 := mkVec { x : R; y : R }.

(** Entity identifiers.  The source builds them with template literals:
    ['player'], [`e-${Date.now()}-${Math.random()}`], [`ast-${i}`] and
    [`<prefix>-${Math.random()}`] for projectiles, particles, orbs and
    floating texts. *)
Inductive Id :=
| IdPlayer
| IdEnemy (now r : R)
| IdAst (i : nat)
| IdRand (prefix : string) (r : R).

Definition Id_eqb (a b : Id) : bool :=
  match a, b with
  | IdPlayer, IdPlayer => true
  | IdEnemy n1 r1, IdEnemy n2 r2 => Reqb n1 n2 && Reqb r1 r2
  | IdAst i, IdAst j => Nat.eqb i j
  | IdRand p1 r1, IdRand p2 r2 => String.eqb p1 p2 && Reqb r1 r2
  | _, _ => false
  end.

(** [interface Entity]: the fields shared by every simulated object. *)
Record Entity := mkEntity {
  id : Id;
  position : Vector2;
  velocity : Vector2;
  radius : R;
  color : string;
  rotation : R
}.

Definition set_position (e : Entity) (p : Vector2) : Entity :=
  mkEntity (id e) p (velocity e) (radius e) (color e) (rotation e).
Definition set_velocity (e : Entity) (v : Vector2) : Entity :=
  mkEntity (id e) (position e) v (radius e) (color e) (rotation e).
Definition set_color (e : Entity) (c : string) : Entity :=
  mkEntity (id e) (position e) (velocity e) (radius e) c (rotation e).
Definition set_rotation (e : Entity) (r : R) : Entity :=
  mkEntity (id e) (position e) (velocity e) (radius e) (color e) r.

Record Asteroid := mkAsteroid {
  a_ent : Entity;
  isTarget : bool;
  isScanned : bool
}.

(* ------------------------------------------------------------------ *)
(** * Geometry helpers ([gameEngine.ts], lines 12-38) *)

Definition dist (v1 v2 : Vector2) : R :=
  sqrt (Math_pow (x v2 - x v1) 2 + Math_pow (y v2 - y v1) 2).

Definition angle (v1 v2 : Vector2) : R :=
  Math_atan2 (y v2 - y v1) (x v2 - x v1).

(** One iteration of the [for (const ast of asteroids)] loop of
    [isLineBlocked]: [false] stands for [continue] (or falling through to the
    next obstacle), [true] for [return true]. *)
Definition blockedBy (start end_ : Vector2) (ast : Asteroid) : bool :=
  let l2 := Math_pow (x end_ - x start) 2 + Math_pow (y end_ - y start) 2 in
  if Reqb l2 0 then false
  else
    let t := ((x (position (a_ent ast)) - x start) * (x end_ - x start)
              + (y (position (a_ent ast)) - y start) * (y end_ - y start)) / l2 in
    let tClamped := Rmax 0 (Rmin 1 t) in
    let projX := x start + tClamped * (x end_ - x start) in
    let projY := y start + tClamped * (y end_ - y start) in
    let distSq := Math_pow (x (position (a_ent ast)) - projX) 2
                  + Math_pow (y (position (a_ent ast)) - projY) 2 in
    Rltb distSq (Math_pow (radius (a_ent ast)) 2).

Fixpoint isLineBlocked (start end_ : Vector2) (asteroids : list Asteroid) : bool :=
  match asteroids with
  | [] => false
  | ast :: rest =>
      if blockedBy start end_ ast then true
      else isLineBlocked start end_ rest
  end.

(* ------------------------------------------------------------------ *)
(** * The line-of-sight test in binary64

    The same lines 17-38 with every [number] an IEEE 754 binary64 value
    ([PrimFloat.float]).  [Math.pow(b, 2)] is the rounded product [b * b],
    [Math.max] and [Math.min] return NaN when an argument is NaN and order
    [-0] below [+0], and [===] and [<] are the IEEE comparisons.  Of an
    asteroid only the centre and the radius are read. *)
Module Binary64.

Record Vector2 := mkVec { x : float; y : float }.
Record Asteroid := mkAsteroid { position : Vector2; radius : float }.

Definition Math_max (a b : float) : float :=
  if PrimFloat.is_nan a || PrimFloat.is_nan b then PrimFloat.nan
  else if PrimFloat.ltb a b then b
  else if PrimFloat.ltb b a then a
  else if PrimFloat.is_zero a then PrimFloat.add a b
  else a.
Definition Math_min (a b : float) : float :=
  PrimFloat.opp (Math_max (PrimFloat.opp a) (PrimFloat.opp b)).
Definition Math_pow2 (b : float) : float := PrimFloat.mul b b.

Definition blockedBy (start end_ : Vector2) (ast : Asteroid) : bool :=
  let l2 := (Math_pow2 (x end_ - x start) + Math_pow2 (y end_ - y start))%float in
  if PrimFloat.eqb l2 0%float then false
  else
    let t := (((x (position ast) - x start) * (x end_ - x start)
               + (y (position ast) - y start) * (y end_ - y start)) / l2)%float in
    let tClamped := Math_max 0%float (Math_min 1%float t) in
    let projX := (x start + tClamped * (x end_ - x start))%float in
    let projY := (y start + tClamped * (y end_ - y start))%float in
    let distSq := (Math_pow2 (x (position ast) - projX)
                   + Math_pow2 (y (position ast) - projY))%float in
    PrimFloat.ltb distSq (Math_pow2 (radius ast)).

Fixpoint isLineBlocked (start end_ : Vector2) (asteroids : list Asteroid) : bool :=
  match asteroids with
  | [] => false
  | ast :: rest =>
      if blockedBy start end_ ast then true
      else isLineBlocked start end_ rest
  end.

(** A player at the centre of the screen, an enemy just off its left edge
    and an asteroid whose edge the segment between them grazes; the radius
    is the double nearest to 40.62804713742349. *)
Definition grazePlayer : Vector2 := mkVec 600%float 360%float.
Definition grazeEnemy : Vector2 := mkVec (-43)%float 96%float.
Definition grazeRock : Asteroid :=
  mkAsteroid (mkVec 532%float 376%float) 0x1.45063d93dca48p+5%float.

End Binary64.


(* ------------------------------------------------------------------ *)
(** * Data model, continued: the records of [src/types.ts]

    Each interface that [extends Entity] carries its entity fields in [ent];
    a module per interface keeps the field names of the source. *)

(** One slot of [Player.weapons]. *)
Module Weapon.
Record t := mk {
  level : R;
  cooldown : R;
  maxCooldown : R;
  damage : R;
  range : R
}.
Definition set_level (r : t) (v : R) : t :=
  mk v (cooldown r) (maxCooldown r) (damage r) (range r).
Definition set_cooldown (r : t) (v : R) : t :=
  mk (level r) v (maxCooldown r) (damage r) (range r).
Definition set_maxCooldown (r : t) (v : R) : t :=
  mk (level r) (cooldown r) v (damage r) (range r).
Definition set_damage (r : t) (v : R) : t :=
  mk (level r) (cooldown r) (maxCooldown r) v (range r).
Definition set_range (r : t) (v : R) : t :=
  mk (level r) (cooldown r) (maxCooldown r) (damage r) v.
End Weapon.

(** [Player.weapons]: an object with one slot per [WeaponType];
    [Object.entries] lists the slots in insertion order
    MACHINE_GUN, MISSILE, LASER. *)
Record Weapons := mkWeapons {
  machineGun : Weapon.t;
  missile : Weapon.t;
  laser : Weapon.t
}.

Definition getWeapon (ws : Weapons) (k : WeaponType) : Weapon.t :=
  match k with
  | MACHINE_GUN => machineGun ws
  | MISSILE => missile ws
  | LASER => laser ws
  end.

Definition setWeapon (ws : Weapons) (k : WeaponType) (w : Weapon.t) : Weapons :=
  match k with
  | MACHINE_GUN => mkWeapons w (missile ws) (laser ws)
  | MISSILE => mkWeapons (machineGun ws) w (laser ws)
  | LASER => mkWeapons (machineGun ws) (missile ws) w
  end.

(** [interface Player extends Entity]. *)
Module Player.
Record t := mk {
  ent : Entity;
  hp : R;
  maxHp : R;
  xp : R;
  maxXp : R;
  level : R;
  crystals : R;
  weapons : Weapons
}.
Definition set_ent (r : t) (v : Entity) : t :=
  mk v (hp r) (maxHp r) (xp r) (maxXp r) (level r) (crystals r) (weapons r).
Definition set_hp (r : t) (v : R) : t :=
  mk (ent r) v (maxHp r) (xp r) (maxXp r) (level r) (crystals r) (weapons r).
Definition set_maxHp (r : t) (v : R) : t :=
  mk (ent r) (hp r) v (xp r) (maxXp r) (level r) (crystals r) (weapons r).
Definition set_xp (r : t) (v : R) : t :=
  mk (ent r) (hp r) (maxHp r) v (maxXp r) (level r) (crystals r) (weapons r).
Definition set_maxXp (r : t) (v : R) : t :=
  mk (ent r) (hp r) (maxHp r) (xp r) v (level r) (crystals r) (weapons r).
Definition set_level (r : t) (v : R) : t :=
  mk (ent r) (hp r) (maxHp r) (xp r) (maxXp r) v (crystals r) (weapons r).
Definition set_crystals (r : t) (v : R) : t :=
  mk (ent r) (hp r) (maxHp r) (xp r) (maxXp r) (level r) v (weapons r).
Definition set_weapons (r : t) (v : Weapons) : t :=
  mk (ent r) (hp r) (maxHp r) (xp r) (maxXp r) (level r) (crystals r) v.
End Player.

(** [interface Enemy extends Entity]. *)
Module Enemy.
Record t := mk {
  ent : Entity;
  type : EnemyType;
  hp : R;
  maxHp : R;
  attackCooldown : R
}.
Definition set_ent (r : t) (v : Entity) : t :=
  mk v (type r) (hp r) (maxHp r) (attackCooldown r).
Definition set_type (r : t) (v : EnemyType) : t :=
  mk (ent r) v (hp r) (maxHp r) (attackCooldown r).
Definition set_hp (r : t) (v : R) : t :=
  mk (ent r) (type r) v (maxHp r) (attackCooldown r).
Definition set_maxHp (r : t) (v : R) : t :=
  mk (ent r) (type r) (hp r) v (attackCooldown r).
Definition set_attackCooldown (r : t) (v : R) : t :=
  mk (ent r) (type r) (hp r) (maxHp r) v.
End Enemy.

(** [interface Projectile extends Entity]; [targetId] is optional. *)
Module Projectile.
Record t := mk {
  ent : Entity;
  damage : R;
  targetId : option Id;
  duration : R;
  isEnemy : bool;
  type : ProjectileType
}.
Definition set_ent (r : t) (v : Entity) : t :=
  mk v (damage r) (targetId r) (duration r) (isEnemy r) (type r).
Definition set_damage (r : t) (v : R) : t :=
  mk (ent r) v (targetId r) (duration r) (isEnemy r) (type r).
Definition set_targetId (r : t) (v : option Id) : t :=
  mk (ent r) (damage r) v (duration r) (isEnemy r) (type r).
Definition set_duration (r : t) (v : R) : t :=
  mk (ent r) (damage r) (targetId r) v (isEnemy r) (type r).
Definition set_isEnemy (r : t) (v : bool) : t :=
  mk (ent r) (damage r) (targetId r) (duration r) v (type r).
Definition set_type (r : t) (v : ProjectileType) : t :=
  mk (ent r) (damage r) (targetId r) (duration r) (isEnemy r) v.
End Projectile.

(** [interface Particle extends Entity]. *)
Module Particle.
Record t := mk {
  ent : Entity;
  life : R;
  maxLife : R;
  scale : R
}.
Definition set_ent (r : t) (v : Entity) : t :=
  mk v (life r) (maxLife r) (scale r).
Definition set_life (r : t) (v : R) : t :=
  mk (ent r) v (maxLife r) (scale r).
Definition set_maxLife (r : t) (v : R) : t :=
  mk (ent r) (life r) v (scale r).
Definition set_scale (r : t) (v : R) : t :=
  mk (ent r) (life r) (maxLife r) v.
End Particle.

(** The text of a floating label: a literal, [Math.floor(d).toString()]
    (the floored number is kept) or the template [`-${d}`]. *)
Inductive Text :=
| TStr (s : string)
| TNum (v : R)
| TMinus (v : R).


(** [interface FloatingText]. *)
Module FloatingText.
Record t := mk {
  id : Id;
  text : Text;
  position : Vector2;
  life : R;
  color : string;
  size : R
}.
Definition set_id (r : t) (v : Id) : t :=
  mk v (text r) (position r) (life r) (color r) (size r).
Definition set_text (r : t) (v : Text) : t :=
  mk (id r) v (position r) (life r) (color r) (size r).
Definition set_position (r : t) (v : Vector2) : t :=
  mk (id r) (text r) v (life r) (color r) (size r).
Definition set_life (r : t) (v : R) : t :=
  mk (id r) (text r) (position r) v (color r) (size r).
Definition set_color (r : t) (v : string) : t :=
  mk (id r) (text r) (position r) (life r) v (size r).
Definition set_size (r : t) (v : R) : t :=
  mk (id r) (text r) (position r) (life r) (color r) v.
End FloatingText.

(** [interface XpOrb extends Entity]; an absent [isMagnetized] is falsy and is modelled by [false]. *)
Module XpOrb.
Record t := mk {
  ent : Entity;
  value : R;
  isMagnetized : bool
}.
Definition set_ent (r : t) (v : Entity) : t :=
  mk v (value r) (isMagnetized r).
Definition set_value (r : t) (v : R) : t :=
  mk (ent r) v (isMagnetized r).
Definition set_isMagnetized (r : t) (v : bool) : t :=
  mk (ent r) (value r) v.
End XpOrb.

(** [interface Shockwave]. *)
Module Shockwave.
Record t := mk {
  position : Vector2;
  radius : R;
  maxRadius : R;
  speed : R;
  color : string
}.
Definition set_position (r : t) (v : Vector2) : t :=
  mk v (radius r) (maxRadius r) (speed r) (color r).
Definition set_radius (r : t) (v : R) : t :=
  mk (position r) v (maxRadius r) (speed r) (color r).
Definition set_maxRadius (r : t) (v : R) : t :=
  mk (position r) (radius r) v (speed r) (color r).
Definition set_speed (r : t) (v : R) : t :=
  mk (position r) (radius r) (maxRadius r) v (color r).
Definition set_color (r : t) (v : string) : t :=
  mk (position r) (radius r) (maxRadius r) (speed r) v.
End Shockwave.

(** [interface GameState]: the whole world. *)
Record GameState := mkState {
  phase : GamePhase;
  player : Player.t;
  enemies : list Enemy.t;
  projectiles : list Projectile.t;
  particles : list Particle.t;
  asteroids : list Asteroid;
  floatingTexts : list FloatingText.t;
  xpOrbs : list XpOrb.t;
  shockwaves : list Shockwave.t;
  cameraShake : R;
  scanTimer : R;
  warpTimer : R;
  scanTargetId : option Id;
  waveTimer : R;
  magnetTimer : R;
  justLeveledUp : bool;
  levelUpQueued : bool;
  justScanned : bool
}.

Definition set_phase (r : GameState) (v : GamePhase) : GameState :=
  mkState v (player r) (enemies r) (projectiles r) (particles r) (asteroids r) (floatingTexts r) (xpOrbs r) (shockwaves r) (cameraShake r) (scanTimer r) (warpTimer r) (scanTargetId r) (waveTimer r) (magnetTimer r) (justLeveledUp r) (levelUpQueued r) (justScanned r).
Definition set_player (r : GameState) (v : Player.t) : GameState :=
  mkState (phase r) v (enemies r) (projectiles r) (particles r) (asteroids r) (floatingTexts r) (xpOrbs r) (shockwaves r) (cameraShake r) (scanTimer r) (warpTimer r) (scanTargetId r) (waveTimer r) (magnetTimer r) (justLeveledUp r) (levelUpQueued r) (justScanned r).
Definition set_enemies (r : GameState) (v : list Enemy.t) : GameState :=
  mkState (phase r) (player r) v (projectiles r) (particles r) (asteroids r) (floatingTexts r) (xpOrbs r) (shockwaves r) (cameraShake r) (scanTimer r) (warpTimer r) (scanTargetId r) (waveTimer r) (magnetTimer r) (justLeveledUp r) (levelUpQueued r) (justScanned r).
Definition set_projectiles (r : GameState) (v : list Projectile.t) : GameState :=
  mkState (phase r) (player r) (enemies r) v (particles r) (asteroids r) (floatingTexts r) (xpOrbs r) (shockwaves r) (cameraShake r) (scanTimer r) (warpTimer r) (scanTargetId r) (waveTimer r) (magnetTimer r) (justLeveledUp r) (levelUpQueued r) (justScanned r).
Definition set_particles (r : GameState) (v : list Particle.t) : GameState :=
  mkState (phase r) (player r) (enemies r) (projectiles r) v (asteroids r) (floatingTexts r) (xpOrbs r) (shockwaves r) (cameraShake r) (scanTimer r) (warpTimer r) (scanTargetId r) (waveTimer r) (magnetTimer r) (justLeveledUp r) (levelUpQueued r) (justScanned r).
Definition set_asteroids (r : GameState) (v : list Asteroid) : GameState :=
  mkState (phase r) (player r) (enemies r) (projectiles r) (particles r) v (floatingTexts r) (xpOrbs r) (shockwaves r) (cameraShake r) (scanTimer r) (warpTimer r) (scanTargetId r) (waveTimer r) (magnetTimer r) (justLeveledUp r) (levelUpQueued r) (justScanned r).
Definition set_floatingTexts (r : GameState) (v : list FloatingText.t) : GameState :=
  mkState (phase r) (player r) (enemies r) (projectiles r) (particles r) (asteroids r) v (xpOrbs r) (shockwaves r) (cameraShake r) (scanTimer r) (warpTimer r) (scanTargetId r) (waveTimer r) (magnetTimer r) (justLeveledUp r) (levelUpQueued r) (justScanned r).
Definition set_xpOrbs (r : GameState) (v : list XpOrb.t) : GameState :=
  mkState (phase r) (player r) (enemies r) (projectiles r) (particles r) (asteroids r) (floatingTexts r) v (shockwaves r) (cameraShake r) (scanTimer r) (warpTimer r) (scanTargetId r) (waveTimer r) (magnetTimer r) (justLeveledUp r) (levelUpQueued r) (justScanned r).
Definition set_shockwaves (r : GameState) (v : list Shockwave.t) : GameState :=
  mkState (phase r) (player r) (enemies r) (projectiles r) (particles r) (asteroids r) (floatingTexts r) (xpOrbs r) v (cameraShake r) (scanTimer r) (warpTimer r) (scanTargetId r) (waveTimer r) (magnetTimer r) (justLeveledUp r) (levelUpQueued r) (justScanned r).
Definition set_cameraShake (r : GameState) (v : R) : GameState :=
  mkState (phase r) (player r) (enemies r) (projectiles r) (particles r) (asteroids r) (floatingTexts r) (xpOrbs r) (shockwaves r) v (scanTimer r) (warpTimer r) (scanTargetId r) (waveTimer r) (magnetTimer r) (justLeveledUp r) (levelUpQueued r) (justScanned r).
Definition set_scanTimer (r : GameState) (v : R) : GameState :=
  mkState (phase r) (player r) (enemies r) (projectiles r) (particles r) (asteroids r) (floatingTexts r) (xpOrbs r) (shockwaves r) (cameraShake r) v (warpTimer r) (scanTargetId r) (waveTimer r) (magnetTimer r) (justLeveledUp r) (levelUpQueued r) (justScanned r).
Definition set_warpTimer (r : GameState) (v : R) : GameState :=
  mkState (phase r) (player r) (enemies r) (projectiles r) (particles r) (asteroids r) (floatingTexts r) (xpOrbs r) (shockwaves r) (cameraShake r) (scanTimer r) v (scanTargetId r) (waveTimer r) (magnetTimer r) (justLeveledUp r) (levelUpQueued r) (justScanned r).
Definition set_scanTargetId (r : GameState) (v : option Id) : GameState :=
  mkState (phase r) (player r) (enemies r) (projectiles r) (particles r) (asteroids r) (floatingTexts r) (xpOrbs r) (shockwaves r) (cameraShake r) (scanTimer r) (warpTimer r) v (waveTimer r) (magnetTimer r) (justLeveledUp r) (levelUpQueued r) (justScanned r).
Definition set_waveTimer (r : GameState) (v : R) : GameState :=
  mkState (phase r) (player r) (enemies r) (projectiles r) (particles r) (asteroids r) (floatingTexts r) (xpOrbs r) (shockwaves r) (cameraShake r) (scanTimer r) (warpTimer r) (scanTargetId r) v (magnetTimer r) (justLeveledUp r) (levelUpQueued r) (justScanned r).
Definition set_magnetTimer (r : GameState) (v : R) : GameState :=
  mkState (phase r) (player r) (enemies r) (projectiles r) (particles r) (asteroids r) (floatingTexts r) (xpOrbs r) (shockwaves r) (cameraShake r) (scanTimer r) (warpTimer r) (scanTargetId r) (waveTimer r) v (justLeveledUp r) (levelUpQueued r) (justScanned r).
Definition set_justLeveledUp (r : GameState) (v : bool) : GameState :=
  mkState (phase r) (player r) (enemies r) (projectiles r) (particles r) (asteroids r) (floatingTexts r) (xpOrbs r) (shockwaves r) (cameraShake r) (scanTimer r) (warpTimer r) (scanTargetId r) (waveTimer r) (magnetTimer r) v (levelUpQueued r) (justScanned r).
Definition set_levelUpQueued (r : GameState) (v : bool) : GameState :=
  mkState (phase r) (player r) (enemies r) (projectiles r) (particles r) (asteroids r) (floatingTexts r) (xpOrbs r) (shockwaves r) (cameraShake r) (scanTimer r) (warpTimer r) (scanTargetId r) (waveTimer r) (magnetTimer r) (justLeveledUp r) v (justScanned r).
Definition set_justScanned (r : GameState) (v : bool) : GameState :=
  mkState (phase r) (player r) (enemies r) (projectiles r) (particles r) (asteroids r) (floatingTexts r) (xpOrbs r) (shockwaves r) (cameraShake r) (scanTimer r) (warpTimer r) (scanTargetId r) (waveTimer r) (magnetTimer r) (justLeveledUp r) (levelUpQueued r) v.


Definition set_a_ent (a : Asteroid) (e : Entity) : Asteroid :=
  mkAsteroid e (isTarget a) (isScanned a).
Definition set_isTarget (a : Asteroid) (b : bool) : Asteroid :=
  mkAsteroid (a_ent a) b (isScanned a).

(* ------------------------------------------------------------------ *)
(** * Constants ([src/constants.ts]) *)

Definition SCREEN_WIDTH : R := 1200.
Definition SCREEN_HEIGHT : R := 720.
Definition TARGET_CRYSTALS : R := 10.
Definition SCAN_DURATION_SEC : R := 90.
Definition WARP_DURATION_SEC : R := 10.

Module COLORS.
Definition player : string := "#3b82f6".
Definition enemyTank : string := "#ef4444".
Definition enemyRanged : string := "#f59e0b".
Definition enemySwarm : string := "#a855f7".
Definition enemyBoss : string := "#7f1d1d".
Definition asteroid : string := "#4b5563".
Definition asteroidTarget : string := "#10b981".
Definition xpOrb : string := "#22d3ee".
Definition textDamage : string := "#fff".
Definition shockwave : string := "#06b6d4".
End COLORS.

Module ASTEROID_CONFIG.
Definition min : Z := 10.
Definition max : Z := 20.
End ASTEROID_CONFIG.

Module PLAYER_CONFIG.
Definition baseHp : R := 100.
Definition baseXp : R := 100.
Definition hpGrowth : R := 20.
Definition xpGrowth : R := 2.
Definition magnetRange : R := 150.
Definition magnetSpeed : R := 10.
Definition passiveSpeed : R := 2.
End PLAYER_CONFIG.

Module TEXT_CONFIG.
Definition emp : string := "EMP".
Definition bossDefeated : string := "BOSS DEFEATED".
End TEXT_CONFIG.

(** [WEAPON_STATS]: cooldown, damage, range and colour per weapon. *)
Record WeaponStats := mkWeaponStats {
  ws_cooldown : R;
  ws_damage : R;
  ws_range : R;
  ws_color : string
}.

Definition WEAPON_STATS (k : WeaponType) : WeaponStats :=
  match k with
  | MACHINE_GUN => mkWeaponStats 10 15 400 "#ffff00"
  | MISSILE => mkWeaponStats 120 80 600 "#ffaa00"
  | LASER => mkWeaponStats 1 2 300 "#06b6d4"
  end.

(** [ENEMY_STATS]: hp, speed, radius and score per enemy type. *)
Record EnemyStats := mkEnemyStats {
  es_hp : R;
  es_speed : R;
  es_radius : R;
  es_score : R
}.

Definition ENEMY_STATS (t : EnemyType) : EnemyStats :=
  match t with
  | TANK => mkEnemyStats 300 0.1375 25 50
  | RANGED => mkEnemyStats 100 0.175 18 30
  | SWARM => mkEnemyStats 30 0.5 10 10
  | BOSS => mkEnemyStats 5000 0.015 60 500
  end.

(* ------------------------------------------------------------------ *)
(** * Arrays *)

(** [a[i] = v] for an index inside the array (the engine never writes
    outside). *)
Fixpoint list_set {A} (l : list A) (i : nat) (v : A) : list A :=
  match l, i with
  | [], _ => []
  | _ :: t, O => v :: t
  | h :: t, S j => h :: list_set t j v
  end.

(** [a.splice(i, 1)]. *)
Fixpoint splice1 {A} (l : list A) (i : nat) : list A :=
  match l, i with
  | [], _ => []
  | _ :: t, O => t
  | h :: t, S j => h :: splice1 t j
  end.

(** [a.findIndex(f)], with [None] for [-1]. *)
Fixpoint findIndex {A} (f : A -> bool) (l : list A) : option nat :=
  match l with
  | [] => None
  | h :: t => if f h then Some O
              else match findIndex f t with
                   | Some i => Some (S i)
                   | None => None
                   end
  end.

(* ------------------------------------------------------------------ *)
(** * The effects of a tick: the random oracle, the clock and fuel *)

Record Env := mkEnv {
  rnd : nat -> R;   (* the k-th [Math.random()] of the tick *)
  now : R           (* [Date.now()] *)
}.

(** A computation reads the environment, threads the number of random
    draws made so far and may fail to return normally ([None]: an unbounded
    loop of the source did not stop within the fuel, or the source would
    throw a TypeError on an undefined array element). *)
Definition M (A : Type) : Type := Env -> nat -> option (A * nat).

Definition ret {A} (a : A) : M A := fun _ k => Some (a, k).
Definition bind {A B} (m : M A) (f : A -> M B) : M B :=
  fun env k => match m env k with
               | Some (a, k') => f a env k'
               | None => None
               end.
Definition abort {A} : M A := fun _ _ => None.
Definition Math_random : M R := fun env k => Some (rnd env k, S k).
Definition Date_now : M R := fun env k => Some (now env, k).

Notation "v <- m ;; f" := (bind m (fun v => f))
  (at level 61, m at next level, right associativity).

(** [for (let i = start; i < start + n; i++) body(i)] over the state. *)
Fixpoint forUp {St} (n i : nat) (body : nat -> St -> M St) (s : St) : M St :=
  match n with
  | O => ret s
  | S n' => s' <- body i s ;; forUp n' (S i) body s'
  end.

(** [for (let i = n - 1; i >= 0; i--) body(i)] over the state. *)
Fixpoint forDown {St} (n : nat) (body : nat -> St -> M St) (s : St) : M St :=
  match n with
  | O => ret s
  | S i => s' <- body i s ;; forDown i body s'
  end.

(* ------------------------------------------------------------------ *)
(** * Spawning ([gameEngine.ts], lines 80-192) *)

Definition enemyColor (t : EnemyType) : string :=
  match t with
  | BOSS => COLORS.enemyBoss
  | TANK => COLORS.enemyTank
  | RANGED => COLORS.enemyRanged
  | SWARM => COLORS.enemySwarm
  end.

Definition spawnEnemy (state : GameState) (forceType : option EnemyType)
    (pos : option Vector2) : M GameState :=
  xy <- match pos with
        | Some p => ret (x p, y p)
        | None =>
            r <- Math_random ;;
            let edge := Math_floor (r * 4) in
            let buffer := 80 in
            r' <- Math_random ;;
            if Reqb edge 0 then ret (r' * SCREEN_WIDTH, - buffer)
            else if Reqb edge 1 then ret (SCREEN_WIDTH + buffer, r' * SCREEN_HEIGHT)
            else if Reqb edge 2 then ret (r' * SCREEN_WIDTH, SCREEN_HEIGHT + buffer)
            else ret (- buffer, r' * SCREEN_HEIGHT)
        end ;;
  type <- match forceType with
          | Some t => ret t
          | None =>
              rand <- Math_random ;;
              let hasBoss :=
                existsb (fun e => EnemyType_eqb (Enemy.type e) BOSS) (enemies state) in
              if negb hasBoss && Rgtb rand 0.99 && Rgtb (scanTimer state) 20 then ret BOSS
              else if Rgtb rand 0.8 then ret TANK
              else if Rgtb rand 0.6 then ret RANGED
              else ret SWARM
          end ;;
  let stats := ENEMY_STATS type in
  t <- Date_now ;;
  r_id <- Math_random ;;
  r_cd <- Math_random ;;
  let enemy :=
    Enemy.mk (mkEntity (IdEnemy t r_id) (mkVec (fst xy) (snd xy)) (mkVec 0 0)
                       (es_radius stats) (enemyColor type) 0)
             type (es_hp stats) (es_hp stats) (r_cd * 200) in
  ret (set_enemies state (enemies state ++ [enemy])).

(** The [do { ... } while (d < 150)] rejection loop of [spawnAsteroids]. *)
Fixpoint samplePosition (fuel : nat) (playerPos : Vector2) : M Vector2 :=
  match fuel with
  | O => abort
  | S fuel' =>
      rx <- Math_random ;;
      ry <- Math_random ;;
      let pos := mkVec (rx * SCREEN_WIDTH) (ry * SCREEN_HEIGHT) in
      let d := dist pos playerPos in
      if Rltb d 150 then samplePosition fuel' playerPos else ret pos
  end.

(** The body of the [for] loop of [spawnAsteroids] for the index [i]. *)
Definition spawnAsteroid (fuel : nat) (i : nat) (state : GameState) : M GameState :=
  pos <- samplePosition fuel (position (Player.ent (player state))) ;;
  vx <- Math_random ;;
  vy <- Math_random ;;
  rr <- Math_random ;;
  rot <- Math_random ;;
  ret (set_asteroids state
         (asteroids state ++
          [mkAsteroid (mkEntity (IdAst i) pos
                                (mkVec ((vx - 0.5) * 0.2) ((vy - 0.5) * 0.2))
                                (20 + rr * 30) COLORS.asteroid (rot * PI * 2))
                      false false])).

Definition spawnAsteroids (fuel : nat) (state : GameState) : M GameState :=
  let state := set_asteroids state [] in
  r <- Math_random ;;
  let count := (ASTEROID_CONFIG.min
                + Zfloor (r * IZR (ASTEROID_CONFIG.max - ASTEROID_CONFIG.min + 1)))%Z in
  forUp (Z.to_nat count) 0 (spawnAsteroid fuel) state.

Definition spawnParticles (state : GameState) (pos : Vector2) (count : nat)
    (color : string) : M GameState :=
  forUp count 0
    (fun _ state =>
       a <- Math_random ;;
       let angle := a * PI * 2 in
       s <- Math_random ;;
       let speed := s * 5 + 2 in
       r_id <- Math_random ;;
       r_rad <- Math_random ;;
       r_life <- Math_random ;;
       ret (set_particles state
              (particles state ++
               [Particle.mk (mkEntity (IdRand "p" r_id) pos
                                      (mkVec (cos angle * speed) (sin angle * speed))
                                      (r_rad * 4 + 1) color 0)
                            (40 + r_life * 20) 60 1])))
    state.

Definition addFloatingText (state : GameState) (text : Text) (pos : Vector2)
    (color : string) (size : R) : M GameState :=
  r_id <- Math_random ;;
  ret (set_floatingTexts state
         (floatingTexts state ++
          [FloatingText.mk (IdRand "ft" r_id) text (mkVec (x pos) (y pos - 10)) 60 color size])).

Definition triggerShockwave (state : GameState) (origin : Vector2) : GameState :=
  let state :=
    set_shockwaves state
      (shockwaves state ++
       [Shockwave.mk origin 10 (Rmax SCREEN_WIDTH SCREEN_HEIGHT * 1.2) 25 COLORS.shockwave]) in
  set_cameraShake state 30.

(* ------------------------------------------------------------------ *)
(** * Initial state ([createInitialState]) *)

Definition initialWeapon (k : WeaponType) (lvl : R) : Weapon.t :=
  Weapon.mk lvl (ws_cooldown (WEAPON_STATS k)) (ws_cooldown (WEAPON_STATS k))
            (ws_damage (WEAPON_STATS k)) (ws_range (WEAPON_STATS k)).

Definition createInitialState : GameState :=
  mkState INTRO
    (Player.mk (mkEntity IdPlayer (mkVec (SCREEN_WIDTH / 2) (SCREEN_HEIGHT / 2))
                         (mkVec 0 0) 20 COLORS.player 0)
               PLAYER_CONFIG.baseHp PLAYER_CONFIG.baseHp 0 PLAYER_CONFIG.baseXp 1 0
               (mkWeapons (initialWeapon MACHINE_GUN 1) (initialWeapon MISSILE 0)
                          (initialWeapon LASER 0)))
    [] [] [] [] [] [] [] 0 0 0 None 0 0 false false false.


(* ------------------------------------------------------------------ *)
(** * The update loop ([updateGame], lines 195-650) *)

(** ** 1. Timers (lines 201-251) *)

Definition isScanTarget (tid : option Id) (a : Asteroid) : bool :=
  match tid with
  | Some t => Id_eqb (id (a_ent a)) t
  | None => false
  end.

Definition resetAsteroid (a : Asteroid) : Asteroid :=
  let a := set_isTarget a false in
  if negb (isScanned a) then set_a_ent a (set_color (a_ent a) COLORS.asteroid) else a.

Definition updateTimers (fuel : nat) (state : GameState) : M GameState :=
  if GamePhase_eqb (phase state) WARPING then
    let state := set_warpTimer state (warpTimer state - 1 / 60) in
    if Rleb (warpTimer state) 0 then
      let state := set_phase state IDLE in
      state <- spawnAsteroids fuel state ;;
      let state := set_enemies state [] in
      let state := set_xpOrbs state [] in
      let state := set_projectiles state [] in
      let state := set_shockwaves state [] in
      ret (set_levelUpQueued state false)
    else ret state
  else if GamePhase_eqb (phase state) SCANNING then
    let state := set_scanTimer state (scanTimer state + 1 / 60) in
    let state := set_waveTimer state (waveTimer state + 1) in
    let spawnRate := Rmax 10 ((100 - scanTimer state) * 0.5) in
    state <- (if Rgtb (waveTimer state) spawnRate then
                state <- spawnEnemy state None None ;;
                ret (set_waveTimer state 0)
              else ret state) ;;
    if Rgeb (scanTimer state) SCAN_DURATION_SEC then
      let state := set_phase state IDLE in
      let state := set_player state
                     (Player.set_crystals (player state)
                                          (Player.crystals (player state) + 1)) in
      let state := set_justScanned state true in
      let targetIndex := findIndex (isScanTarget (scanTargetId state)) (asteroids state) in
      state <- match targetIndex with
               | Some i =>
                   match nth_error (asteroids state) i with
                   | Some target =>
                       let state := triggerShockwave state (position (a_ent target)) in
                       state <- spawnParticles state (position (a_ent target)) 20
                                               COLORS.asteroid ;;
                       ret (set_asteroids state (splice1 (asteroids state) i))
                   | None => ret state
                   end
               | None => ret state
               end ;;
      let state := set_scanTargetId state None in
      ret (set_asteroids state (map resetAsteroid (asteroids state)))
    else ret state
  else ret state.

(** ** 2. Player logic: target search, facing, auto fire (lines 253-343) *)

(** The four locals of the target search; an enemy is referred to by its
    index in [state.enemies], and [None] for a minimum is [Infinity]. *)
Record Targets := mkTargets {
  nearestVisible : option nat;
  minDstVisible : option R;
  nearestAny : option nat;
  minDstAny : option R
}.

Definition ltInf (d : R) (m : option R) : bool :=
  match m with
  | None => true
  | Some v => Rltb d v
  end.

Fixpoint findTargets (playerPos : Vector2) (asts : list Asteroid)
    (es : list Enemy.t) (i : nat) (acc : Targets) : Targets :=
  match es with
  | [] => acc
  | e :: rest =>
      let d := dist playerPos (position (Enemy.ent e)) in
      let acc :=
        if negb (isLineBlocked playerPos (position (Enemy.ent e)) asts) then
          if ltInf d (minDstVisible acc)
          then mkTargets (Some i) (Some d) (nearestAny acc) (minDstAny acc)
          else acc
        else acc in
      let acc :=
        if ltInf d (minDstAny acc)
        then mkTargets (nearestVisible acc) (minDstVisible acc) (Some i) (Some d)
        else acc in
      findTargets playerPos asts rest (S i) acc
  end.

Definition searchTargets (state : GameState) : Targets :=
  findTargets (position (Player.ent (player state))) (asteroids state)
              (enemies state) 0 (mkTargets None None None None).

Definition setPlayerRotation (state : GameState) (r : R) : GameState :=
  set_player state (Player.set_ent (player state) (set_rotation (Player.ent (player state)) r)).

Definition enemyAt (state : GameState) (target : option nat) : option (nat * Enemy.t) :=
  match target with
  | Some i => match nth_error (enemies state) i with
              | Some e => Some (i, e)
              | None => None
              end
  | None => None
  end.

Definition aimPlayer (tg : Targets) (state : GameState) : GameState :=
  let playerPos := position (Player.ent (player state)) in
  match enemyAt state (nearestVisible tg) with
  | Some (_, e) => setPlayerRotation state (angle playerPos (position (Enemy.ent e)))
  | None =>
      match enemyAt state (nearestAny tg) with
      | Some (_, e) =>
          if Rgtb (Weapon.level (getWeapon (Player.weapons (player state)) MISSILE)) 0
          then setPlayerRotation state (angle playerPos (position (Enemy.ent e)))
          else state
      | None => state
      end
  end.

Definition setCooldown (state : GameState) (wType : WeaponType) (c : R) : GameState :=
  let ws := Player.weapons (player state) in
  set_player state
    (Player.set_weapons (player state)
       (setWeapon ws wType (Weapon.set_cooldown (getWeapon ws wType) c))).

Definition pushProjectile (state : GameState) (p : Projectile.t) : GameState :=
  set_projectiles state (projectiles state ++ [p]).

Definition setEnemy (state : GameState) (i : nat) (e : Enemy.t) : GameState :=
  set_enemies state (list_set (enemies state) i e).

(** The body of [Object.entries(player.weapons).forEach] for one slot. *)
Definition fireWeapon (tg : Targets) (wType : WeaponType) (state : GameState)
    : M GameState :=
  let player := player state in
  let weapon := getWeapon (Player.weapons player) wType in
  let target :=
    enemyAt state (match wType with
                   | MISSILE => nearestAny tg
                   | _ => nearestVisible tg
                   end) in
  match target with
  | Some (ti, target) =>
      if Rgtb (Weapon.level weapon) 0 && Rleb (Weapon.cooldown weapon) 0 then
        let distToTarget :=
          dist (position (Player.ent player)) (position (Enemy.ent target)) in
        if Rleb distToTarget (Weapon.range weapon) then
          let rot := rotation (Player.ent player) in
          match wType with
          | MACHINE_GUN =>
              r_id <- Math_random ;;
              let state :=
                pushProjectile state
                  (Projectile.mk
                     (mkEntity (IdRand "p" r_id) (position (Player.ent player))
                               (mkVec (cos rot * 10) (sin rot * 10)) 8
                               (ws_color (WEAPON_STATS MACHINE_GUN)) rot)
                     (Weapon.damage weapon) None 60 false BULLET) in
              ret (setCooldown state wType (Weapon.maxCooldown weapon))
          | MISSILE =>
              r_id <- Math_random ;;
              r_x <- Math_random ;;
              r_y <- Math_random ;;
              let state :=
                pushProjectile state
                  (Projectile.mk
                     (mkEntity (IdRand "m" r_id) (position (Player.ent player))
                               (mkVec (cos (rot + (r_x - 0.5)) * 2)
                                      (sin (rot + (r_y - 0.5)) * 2)) 14
                               (ws_color (WEAPON_STATS MISSILE)) rot)
                     (Weapon.damage weapon) (Some (id (Enemy.ent target))) 180 false
                     PMISSILE) in
              ret (setCooldown state wType (Weapon.maxCooldown weapon))
          | LASER =>
              let state :=
                setEnemy state ti
                  (Enemy.set_hp target (Enemy.hp target - Weapon.damage weapon)) in
              state <- spawnParticles state (position (Enemy.ent target)) 1 COLORS.player ;;
              r <- Math_random ;;
              state <- (if Rgtb r 0.8 then
                          addFloatingText state (TNum (Math_floor (Weapon.damage weapon)))
                                          (position (Enemy.ent target)) COLORS.textDamage 14
                        else ret state) ;;
              ret (setCooldown state wType (Weapon.maxCooldown weapon))
          end
        else ret state
      else ret (setCooldown state wType (Weapon.cooldown weapon - 1))
  | None => ret (setCooldown state wType (Weapon.cooldown weapon - 1))
  end.

Definition autoFire (state : GameState) : M GameState :=
  let tg := searchTargets state in
  let state := aimPlayer tg state in
  state <- fireWeapon tg MACHINE_GUN state ;;
  state <- fireWeapon tg MISSILE state ;;
  fireWeapon tg LASER state.

(** ** 3. Enemies (lines 345-441) *)

(** The asteroid-repulsion accumulators [avoidX], [avoidY]. *)
Fixpoint avoidance (e : Enemy.t) (asts : list Asteroid) (acc : R * R) : R * R :=
  match asts with
  | [] => acc
  | ast :: rest =>
      let distToAst := dist (position (Enemy.ent e)) (position (a_ent ast)) in
      let detectionRange := radius (a_ent ast) + radius (Enemy.ent e) + 60 in
      let acc :=
        if Rltb distToAst detectionRange then
          let pushAng := angle (position (a_ent ast)) (position (Enemy.ent e)) in
          let force := (detectionRange - distToAst) / detectionRange in
          (fst acc + cos pushAng * force * 2.5, snd acc + sin pushAng * force * 2.5)
        else acc in
      avoidance e rest acc
  end.

Definition damagePlayer (state : GameState) (d : R) : GameState :=
  set_player state (Player.set_hp (player state) (Player.hp (player state) - d)).

(** Boss logic (lines 347-360): every 180 ticks three swarm enemies are
    spawned around the boss. *)
Definition bossLogic (e : Enemy.t) (state : GameState) : M (GameState * Enemy.t) :=
  if EnemyType_eqb (Enemy.type e) BOSS then
    let e := Enemy.set_attackCooldown e (Enemy.attackCooldown e - 1) in
    if Rleb (Enemy.attackCooldown e) 0 then
      let e := Enemy.set_attackCooldown e 180 in
      state <- forUp 3 0
                 (fun _ state =>
                    rx <- Math_random ;;
                    ry <- Math_random ;;
                    spawnEnemy state (Some SWARM)
                      (Some (mkVec (x (position (Enemy.ent e)) + (rx - 0.5) * 50)
                                   (y (position (Enemy.ent e)) + (ry - 0.5) * 50))))
                 state ;;
      ret (state, e)
    else ret (state, e)
  else ret (state, e).

(** Seek the player and avoid the asteroids (lines 386-433). *)
Definition moveEnemy (e : Enemy.t) (state : GameState) : Enemy.t :=
  let playerPos := position (Player.ent (player state)) in
  let epos := position (Enemy.ent e) in
  let distToPlayer := dist epos playerPos in
  let dx := x playerPos - x epos in
  let dy := y playerPos - y epos in
  let dirX := dx / distToPlayer in
  let dirY := dy / distToPlayer in
  let avoid := avoidance e (asteroids state) (0, 0) in
  let finalX := dirX + fst avoid in
  let finalY := dirY + snd avoid in
  let finalLen := Math_hypot finalX finalY in
  let finalX' := if Rgtb finalLen 0 then finalX / finalLen else finalX in
  let finalY' := if Rgtb finalLen 0 then finalY / finalLen else finalY in
  let speed := es_speed (ENEMY_STATS (Enemy.type e)) in
  let vel := mkVec (finalX' * speed) (finalY' * speed) in
  let ent := set_velocity (Enemy.ent e) vel in
  let ent := set_position ent (mkVec (x epos + x vel) (y epos + y vel)) in
  let ent := if Rgtb finalLen 0.1
             then set_rotation ent (Math_atan2 finalY' finalX')
             else ent in
  Enemy.set_ent e ent.

(** A ranged enemy close to the player and seeing it stops to shoot; every
    other enemy moves (lines 362-434). *)
Definition shootOrMove (e : Enemy.t) (state : GameState) : M (GameState * Enemy.t) :=
  let playerPos := position (Player.ent (player state)) in
  let epos := position (Enemy.ent e) in
  let distToPlayer := dist epos playerPos in
  let hasLineOfSight := negb (isLineBlocked epos playerPos (asteroids state)) in
  if EnemyType_eqb (Enemy.type e) RANGED && Rltb distToPlayer 300 && hasLineOfSight then
    let e := Enemy.set_attackCooldown e (Enemy.attackCooldown e - 1) in
    if Rleb (Enemy.attackCooldown e) 0 then
      let e := Enemy.set_attackCooldown e 300 in
      let ang := angle epos playerPos in
      r_id <- Math_random ;;
      ret (pushProjectile state
             (Projectile.mk
                (mkEntity (IdRand "ep" r_id) epos
                          (mkVec (cos ang * 4) (sin ang * 4)) 5 "#ff0000" ang)
                1 None 120 true ENEMY_ORB),
           e)
    else ret (state, e)
  else ret (state, moveEnemy e state).

(** Collision with the player (lines 436-440). *)
Definition contactDamage (e : Enemy.t) (state : GameState) : GameState :=
  if Rltb (dist (position (Enemy.ent e)) (position (Player.ent (player state))))
          (radius (Enemy.ent e) + radius (Player.ent (player state)))
  then set_cameraShake (damagePlayer state 0.5) 2
  else state.

(** The body of [state.enemies.forEach] for the enemy at index [i]; the
    enemy object is read, updated and stored back at its index. *)
Definition enemyStep (i : nat) (state : GameState) : M GameState :=
  match nth_error (enemies state) i with
  | None => ret state
  | Some e =>
      se <- bossLogic e state ;;
      se <- shootOrMove (snd se) (fst se) ;;
      let state := setEnemy (fst se) i (snd se) in
      ret (contactDamage (snd se) state)
  end.

Definition updateEnemies (state : GameState) : M GameState :=
  forUp (List.length (enemies state)) 0 enemyStep state.


(** ** 4. Projectiles (lines 443-515) *)

(** [while (diff < -Math.PI) diff += Math.PI * 2] and
    [while (diff > Math.PI) diff -= Math.PI * 2]. *)
Fixpoint wrapBelow (fuel : nat) (diff : R) : M R :=
  if Rltb diff (- PI) then
    match fuel with
    | O => abort
    | S fuel' => wrapBelow fuel' (diff + PI * 2)
    end
  else ret diff.

Fixpoint wrapAbove (fuel : nat) (diff : R) : M R :=
  if Rgtb diff PI then
    match fuel with
    | O => abort
    | S fuel' => wrapAbove fuel' (diff - PI * 2)
    end
  else ret diff.

(** Homing: steer the velocity of a missile towards its target. *)
Definition homing (fuel : nat) (state : GameState) (p : Projectile.t) : M Projectile.t :=
  if ProjectileType_eqb (Projectile.type p) PMISSILE then
    match Projectile.targetId p with
    | Some tid =>
        match find (fun e => Id_eqb (id (Enemy.ent e)) tid) (enemies state) with
        | Some target =>
            let ang := angle (position (Projectile.ent p)) (position (Enemy.ent target)) in
            let currentAng := Math_atan2 (y (velocity (Projectile.ent p)))
                                         (x (velocity (Projectile.ent p))) in
            diff <- wrapBelow fuel (ang - currentAng) ;;
            diff <- wrapAbove fuel diff ;;
            let turnRate := 0.1 in
            let newAng := currentAng + Rmax (- turnRate) (Rmin turnRate diff) in
            let speed := 4 in
            ret (Projectile.set_ent p
                   (set_velocity (Projectile.ent p)
                                 (mkVec (cos newAng * speed) (sin newAng * speed))))
        | None => ret p
        end
    | None => ret p
    end
  else ret p.

(** The first asteroid the projectile overlaps, if any
    ([for (const ast of state.asteroids) ... break]). *)
Definition hitsAsteroid (p : Projectile.t) (ast : Asteroid) : bool :=
  Rltb (dist (position (Projectile.ent p)) (position (a_ent ast)))
       (radius (a_ent ast) + radius (Projectile.ent p)).

(** The test of the [for (const e of state.enemies)] loop. *)
Definition hitsEnemy (p : Projectile.t) (e : Enemy.t) : bool :=
  Rltb (dist (position (Projectile.ent p)) (position (Enemy.ent e)))
       (radius (Enemy.ent e) + radius (Projectile.ent p)).

(** [state.enemies.forEach(subE => ...)]: the splash of a missile. *)
Definition splash (p : Projectile.t) (subE : Enemy.t) : Enemy.t :=
  if Rltb (dist (position (Projectile.ent p)) (position (Enemy.ent subE))) 80
  then Enemy.set_hp subE (Enemy.hp subE - Projectile.damage p * 0.5)
  else subE.

(** A player projectile against the enemies: the first enemy it overlaps
    takes the damage; the result tells whether there was a hit. *)
Definition hitEnemies (p : Projectile.t) (state : GameState) : M (GameState * bool) :=
  match findIndex (hitsEnemy p) (enemies state) with
  | Some i =>
      match nth_error (enemies state) i with
      | Some e =>
          let e := Enemy.set_hp e (Enemy.hp e - Projectile.damage p) in
          let state := setEnemy state i e in
          state <- addFloatingText state (TNum (Math_floor (Projectile.damage p)))
                                   (position (Enemy.ent e)) "#fff" 14 ;;
          state <- spawnParticles state (position (Projectile.ent p)) 3 "#fff" ;;
          let state :=
            if ProjectileType_eqb (Projectile.type p) PMISSILE then
              set_cameraShake (set_enemies state (map (splash p) (enemies state))) 3
            else state in
          ret (state, true)
      | None => ret (state, false)
      end
  | None => ret (state, false)
  end.

(** A player projectile that is not a missile is stopped by the first
    asteroid it overlaps (lines 470-480). *)
Definition hitAsteroids (p : Projectile.t) (state : GameState) : M (GameState * bool) :=
  if negb (Projectile.isEnemy p)
     && negb (ProjectileType_eqb (Projectile.type p) PMISSILE) then
    if existsb (hitsAsteroid p) (asteroids state) then
      state <- spawnParticles state (position (Projectile.ent p)) 3 COLORS.asteroid ;;
      ret (state, true)
    else ret (state, false)
  else ret (state, false).

(** An enemy projectile against the player (lines 483-489). *)
Definition hitPlayer (p : Projectile.t) (state : GameState) : M (GameState * bool) :=
  let player := player state in
  if Rltb (dist (position (Projectile.ent p)) (position (Player.ent player)))
          (radius (Player.ent player) + radius (Projectile.ent p)) then
    let state := damagePlayer state (Projectile.damage p) in
    let state := set_cameraShake state 5 in
    state <- addFloatingText state (TMinus (Projectile.damage p))
                             (position (Player.ent player)) "#ff0000" 14 ;;
    ret (state, true)
  else ret (state, false).

(** [p.position.x += p.velocity.x; p.position.y += p.velocity.y; p.duration--]. *)
Definition moveProjectile (p : Projectile.t) : Projectile.t :=
  let pos := position (Projectile.ent p) in
  let vel := velocity (Projectile.ent p) in
  let p := Projectile.set_ent p
             (set_position (Projectile.ent p) (mkVec (x pos + x vel) (y pos + y vel))) in
  Projectile.set_duration p (Projectile.duration p - 1).

(** The body of the projectile loop for the projectile at index [i]. *)
Definition projectileStep (fuel : nat) (i : nat) (state : GameState) : M GameState :=
  match nth_error (projectiles state) i with
  | None => ret state
  | Some p =>
      p <- homing fuel state p ;;
      let p := moveProjectile p in
      let state := set_projectiles state (list_set (projectiles state) i p) in
      sh <- hitAsteroids p state ;;
      sh <- (if negb (snd sh) then
               if Projectile.isEnemy p then hitPlayer p (fst sh)
               else hitEnemies p (fst sh)
             else ret sh) ;;
      let state := fst sh in
      if snd sh || Rleb (Projectile.duration p) 0
      then ret (set_projectiles state (splice1 (projectiles state) i))
      else ret state
  end.

Definition updateProjectiles (fuel : nat) (state : GameState) : M GameState :=
  forDown (List.length (projectiles state)) (projectileStep fuel) state.

(** ** 5. Shockwaves (lines 517-541) *)

(** The ring test of the source:
    [d < wave.radius && d > wave.radius - wave.speed * 2]. *)
Definition inRing (wave : Shockwave.t) (e : Enemy.t) : bool :=
  let d := dist (position (Enemy.ent e)) (Shockwave.position wave) in
  Rltb d (Shockwave.radius wave)
  && Rgtb d (Shockwave.radius wave - Shockwave.speed wave * 2).

(** The body of [for (const e of state.enemies)] inside the wave loop. *)
Definition empStep (wave : Shockwave.t) (j : nat) (state : GameState) : M GameState :=
  match nth_error (enemies state) j with
  | None => ret state
  | Some e =>
      if inRing wave e then
        let e := Enemy.set_hp e 0 in
        let state := setEnemy state j e in
        addFloatingText state (TStr TEXT_CONFIG.emp) (position (Enemy.ent e))
                        COLORS.shockwave 20
      else ret state
  end.

(** The body of the shockwave loop for the wave at index [i]. *)
Definition shockwaveStep (i : nat) (state : GameState) : M GameState :=
  match nth_error (shockwaves state) i with
  | None => ret state
  | Some wave =>
      let wave := Shockwave.set_radius wave (Shockwave.radius wave + Shockwave.speed wave) in
      let state := set_shockwaves state (list_set (shockwaves state) i wave) in
      state <- forUp (List.length (enemies state)) 0 (empStep wave) state ;;
      if Rgtb (Shockwave.radius wave) (Shockwave.maxRadius wave) then
        let state := set_shockwaves state (splice1 (shockwaves state) i) in
        (* After EMP clears, check victory condition *)
        if Rgeb (Player.crystals (player state)) TARGET_CRYSTALS
        then ret (set_phase state VICTORY)
        else ret state
      else ret state
  end.

Definition isShockwaveActive (state : GameState) : bool :=
  Nat.ltb 0 (List.length (shockwaves state)).

Definition updateShockwaves (state : GameState) : M GameState :=
  forDown (List.length (shockwaves state)) shockwaveStep state.

(** ** 6. Cleanup of dead enemies (lines 543-568) *)

Definition cleanupStep (active : bool) (i : nat) (state : GameState) : M GameState :=
  match nth_error (enemies state) i with
  | None => ret state
  | Some e =>
      if Rleb (Enemy.hp e) 0 then
        let isBoss := EnemyType_eqb (Enemy.type e) BOSS in
        state <- spawnParticles state (position (Enemy.ent e))
                                (if isBoss then 100 else 30)%nat (color (Enemy.ent e)) ;;
        r_id <- Math_random ;;
        let state :=
          set_xpOrbs state
            (xpOrbs state ++
             [XpOrb.mk (mkEntity (IdRand "xp" r_id) (position (Enemy.ent e)) (mkVec 0 0)
                                 (if isBoss then 12 else 4) COLORS.xpOrb 0)
                       (if isBoss then 500 else 10)
                       (active || justScanned state)]) in
        let state := set_enemies state (splice1 (enemies state) i) in
        if isBoss then
          state <- addFloatingText state (TStr TEXT_CONFIG.bossDefeated)
                                   (position (Enemy.ent e)) "#ffd700" 40 ;;
          ret (set_cameraShake state 50)
        else ret state
      else ret state
  end.

Definition cleanupEnemies (active : bool) (state : GameState) : M GameState :=
  forDown (List.length (enemies state)) (cleanupStep active) state.

(** ** 7. XP orbs (lines 570-613) *)

(** The level-up loop, [while (player.xp >= player.maxXp) { ... }]. *)
Definition levelUpBody (state : GameState) : GameState :=
  let p := player state in
  let p := Player.set_xp p (Player.xp p - Player.maxXp p) in
  let p := Player.set_maxXp p (Math_floor (Player.maxXp p * PLAYER_CONFIG.xpGrowth)) in
  let p := Player.set_level p (Player.level p + 1) in
  let p := Player.set_maxHp p (Player.maxHp p + PLAYER_CONFIG.hpGrowth) in
  let p := Player.set_hp p (Player.maxHp p) in
  set_levelUpQueued (set_player state p) true.

Fixpoint levelUpLoop (fuel : nat) (state : GameState) : M GameState :=
  if Rgeb (Player.xp (player state)) (Player.maxXp (player state)) then
    match fuel with
    | O => abort
    | S fuel' => levelUpLoop fuel' (levelUpBody state)
    end
  else ret state.

(** [player.xp += xp.value] followed by the level-up loop. *)
Definition collectXp (fuel : nat) (value : R) (state : GameState) : M GameState :=
  let state := set_player state
                 (Player.set_xp (player state) (Player.xp (player state) + value)) in
  levelUpLoop fuel state.

Definition isDistant (playerPos : Vector2) (o : XpOrb.t) : bool :=
  negb (XpOrb.isMagnetized o) && Rgtb (dist (position (XpOrb.ent o)) playerPos) 200.

(** The indices, in [state.xpOrbs], of the elements of [distantOrbs]. *)
Fixpoint distantIndices (playerPos : Vector2) (l : list XpOrb.t) (i : nat) : list nat :=
  match l with
  | [] => []
  | o :: rest =>
      if isDistant playerPos o then i :: distantIndices playerPos rest (S i)
      else distantIndices playerPos rest (S i)
  end.

Definition magnetize (o : XpOrb.t) : XpOrb.t := XpOrb.set_isMagnetized o true.

Definition magnetizeAt (state : GameState) (i : nat) : GameState :=
  match nth_error (xpOrbs state) i with
  | Some o => set_xpOrbs state (list_set (xpOrbs state) i (magnetize o))
  | None => state
  end.

Definition magnetTick (state : GameState) : M GameState :=
  let state := set_magnetTimer state (magnetTimer state + 1) in
  if Rgtb (magnetTimer state) 60 then
    let state := set_magnetTimer state 0 in
    let distantOrbs :=
      distantIndices (position (Player.ent (player state))) (xpOrbs state) 0 in
    if Nat.ltb 0 (List.length distantOrbs) then
      r <- Math_random ;;
      let k := Zfloor (r * INR (List.length distantOrbs)) in
      if (0 <=? k)%Z then
        match nth_error distantOrbs (Z.to_nat k) with
        | Some i => ret (magnetizeAt state i)
        | None => abort
        end
      else abort
    else ret state
  else ret state.

(** The body of the orb loop for the orb at index [i]. *)
Definition orbStep (fuel : nat) (i : nat) (state : GameState) : M GameState :=
  match nth_error (xpOrbs state) i with
  | None => ret state
  | Some xp =>
      let playerPos := position (Player.ent (player state)) in
      let d := dist (position (XpOrb.ent xp)) playerPos in
      if Rltb d PLAYER_CONFIG.magnetRange || XpOrb.isMagnetized xp then
        let ang := angle (position (XpOrb.ent xp)) playerPos in
        let speed := if XpOrb.isMagnetized xp then PLAYER_CONFIG.magnetSpeed
                     else PLAYER_CONFIG.passiveSpeed in
        let pos := position (XpOrb.ent xp) in
        let xp := XpOrb.set_ent xp
                    (set_position (XpOrb.ent xp)
                                  (mkVec (x pos + cos ang * speed) (y pos + sin ang * speed))) in
        let state := set_xpOrbs state (list_set (xpOrbs state) i xp) in
        if Rltb d 20 then
          state <- collectXp fuel (XpOrb.value xp) state ;;
          ret (set_xpOrbs state (splice1 (xpOrbs state) i))
        else ret state
      else ret state
  end.

Definition updateXpOrbs (fuel : nat) (active : bool) (state : GameState) : M GameState :=
  state <- magnetTick state ;;
  let state :=
    if justScanned state || active
    then set_xpOrbs state (map magnetize (xpOrbs state))
    else state in
  forDown (List.length (xpOrbs state)) (orbStep fuel) state.

(** ** 8. Particles and floating texts (lines 615-628)

    Both loops are [forEach] calls whose callback may [splice] the array it
    walks: the visit goes on with the next index of the shortened array, and
    stops at the first index past its end. *)
Definition particleMove (p : Particle.t) : Particle.t :=
  let pos := position (Particle.ent p) in
  let vel := velocity (Particle.ent p) in
  let p := Particle.set_ent p
             (set_position (Particle.ent p) (mkVec (x pos + x vel) (y pos + y vel))) in
  let p := Particle.set_life p (Particle.life p - 1) in
  Particle.set_scale p (Particle.life p / Particle.maxLife p).

Fixpoint particlesLoop (n i : nat) (l : list Particle.t) : list Particle.t :=
  match n with
  | O => l
  | S n' =>
      match nth_error l i with
      | None => l
      | Some p =>
          let p := particleMove p in
          let l := list_set l i p in
          let l := if Rleb (Particle.life p) 0 then splice1 l i else l in
          particlesLoop n' (S i) l
      end
  end.

Definition textMove (t : FloatingText.t) : FloatingText.t :=
  let pos := FloatingText.position t in
  let t := FloatingText.set_position t (mkVec (x pos) (y pos - 0.5)) in
  FloatingText.set_life t (FloatingText.life t - 1).

Fixpoint textsLoop (n i : nat) (l : list FloatingText.t) : list FloatingText.t :=
  match n with
  | O => l
  | S n' =>
      match nth_error l i with
      | None => l
      | Some t =>
          let t := textMove t in
          let l := list_set l i t in
          let l := if Rleb (FloatingText.life t) 0 then splice1 l i else l in
          textsLoop n' (S i) l
      end
  end.

Definition updateParticlesAndText (state : GameState) : GameState :=
  let state :=
    set_particles state (particlesLoop (List.length (particles state)) 0 (particles state)) in
  set_floatingTexts state
    (textsLoop (List.length (floatingTexts state)) 0 (floatingTexts state)).

(** ** 9. Queued level up, 10. game over, camera shake (lines 630-647) *)

Definition processQueuedLevelUp (state : GameState) : GameState :=
  if levelUpQueued state then
    if Nat.eqb (List.length (shockwaves state)) 0 then
      set_levelUpQueued (set_justLeveledUp state true) false
    else state
  else state.

Definition gameOverCheck (state : GameState) : GameState :=
  if Rleb (Player.hp (player state)) 0 then set_phase state GAME_OVER else state.

Definition cameraShakeDecay (state : GameState) : GameState :=
  let state :=
    if Rgtb (cameraShake state) 0 then set_cameraShake state (cameraShake state * 0.9)
    else state in
  if Rltb (cameraShake state) 0.5 then set_cameraShake state 0 else state.

(** ** The tick *)

Definition isPaused (ph : GamePhase) : bool :=
  GamePhase_eqb ph INTRO || GamePhase_eqb ph LEVEL_UP
  || GamePhase_eqb ph GAME_OVER || GamePhase_eqb ph VICTORY.

Definition updateGame (fuel : nat) (state : GameState) : M GameState :=
  if isPaused (phase state) then ret state
  else
    state <- updateTimers fuel state ;;
    state <- autoFire state ;;
    state <- updateEnemies state ;;
    state <- updateProjectiles fuel state ;;
    let active := isShockwaveActive state in
    state <- updateShockwaves state ;;
    state <- cleanupEnemies active state ;;
    state <- updateXpOrbs fuel active state ;;
    let state := updateParticlesAndText state in
    let state := processQueuedLevelUp state in
    let state := gameOverCheck state in
    ret (cameraShakeDecay state).

(** [updateGame] run from the first random draw of the tick. *)
Definition runTick (fuel : nat) (env : Env) (state : GameState) : option GameState :=
  match updateGame fuel state env 0%nat with
  | Some (s, _) => Some s
  | None => None
  end.

(* ------------------------------------------------------------------ *)
(** * The host ([src/App.tsx]): what it does around a tick, and the commands *)

(** The one-off events consumed after each [updateGame] (lines 442-453). *)
Definition afterTick (newState : GameState) : GameState :=
  let newState := if justScanned newState then set_justScanned newState false
                  else newState in
  if justLeveledUp newState
  then set_phase (set_justLeveledUp newState false) LEVEL_UP
  else newState.

Definition hostTick (fuel : nat) (env : Env) (state : GameState) : option GameState :=
  match runTick fuel env state with
  | Some s => Some (afterTick s)
  | None => None
  end.

Definition handleWarp (state : GameState) : GameState :=
  if GamePhase_eqb (phase state) IDLE
  then set_warpTimer (set_phase state WARPING) WARP_DURATION_SEC
  else state.

Definition startGame (state : GameState) : GameState := set_phase state IDLE.

(** [handleCanvasClick], from the click position in canvas coordinates. *)
Definition handleCanvasClick (clickX clickY : R) (state : GameState) : GameState :=
  if negb (GamePhase_eqb (phase state) IDLE) then state
  else
    let clicked (a : Asteroid) :=
      Rleb (sqrt (Math_pow (clickX - x (position (a_ent a))) 2
                  + Math_pow (clickY - y (position (a_ent a))) 2))
           (radius (a_ent a) + 15) in
    match findIndex clicked (asteroids state) with
    | Some i =>
        match nth_error (asteroids state) i with
        | Some a =>
            if negb (isScanned a) then
              let a := set_isTarget a true in
              let a := set_a_ent a (set_color (a_ent a) COLORS.asteroidTarget) in
              let state := set_asteroids state (list_set (asteroids state) i a) in
              let state := set_scanTargetId state (Some (id (a_ent a))) in
              let state := set_phase state SCANNING in
              let state := set_scanTimer state 0 in
              set_waveTimer state 0
            else state
        | None => state
        end
    | None => state
    end.

(** The four upgrades of [generateUpgrades], by their [id]. *)
Inductive Upgrade := mg_dmg | missile_up | laser_up | heal.

Definition updWeapon (state : GameState) (k : WeaponType) (f : Weapon.t -> Weapon.t)
    : GameState :=
  let ws := Player.weapons (player state) in
  set_player state (Player.set_weapons (player state) (setWeapon ws k (f (getWeapon ws k)))).

Definition applyUpgradeEffect (u : Upgrade) (s : GameState) : GameState :=
  match u with
  | mg_dmg => updWeapon s MACHINE_GUN (fun w => Weapon.set_damage w (Weapon.damage w + 5))
  | missile_up =>
      updWeapon s MISSILE
        (fun w => let w := Weapon.set_level w (Weapon.level w + 1) in
                  if Rgtb (Weapon.level w) 1
                  then Weapon.set_maxCooldown w (Weapon.maxCooldown w * 0.8) else w)
  | laser_up =>
      updWeapon s LASER
        (fun w => let w := Weapon.set_level w (Weapon.level w + 1) in
                  if Rgtb (Weapon.level w) 1
                  then Weapon.set_damage w (Weapon.damage w * 1.5) else w)
  | heal =>
      set_player s
        (Player.set_hp (player s)
           (Rmin (Player.maxHp (player s))
                 (Player.hp (player s) + Player.maxHp (player s) * 0.5)))
  end.

(** [selectUpgrade]: apply the effect and resume. *)
Definition selectUpgrade (u : Upgrade) (state : GameState) : GameState :=
  let state := applyUpgradeEffect u state in
  match scanTargetId state with
  | Some _ => set_phase state SCANNING
  | None => set_phase state IDLE
  end.

(* ------------------------------------------------------------------ *)
(** * Notions used to state the properties of the engine *)

Definition weaponsOf (s : GameState) : Weapons := Player.weapons (player s).

Definition hpOK (s : GameState) : Prop :=
  Player.hp (player s) <= Player.maxHp (player s).

(** Enemy projectiles never heal. *)
Definition projOK (s : GameState) : Prop :=
  Forall (fun p => Projectile.isEnemy p = true -> 0 <= Projectile.damage p)
         (projectiles s).

Definition frame3 (s s' : GameState) : Prop :=
  weaponsOf s' = weaponsOf s
  /\ (hpOK s -> projOK s -> hpOK s' /\ projOK s').

Definition finish (s : GameState) : GameState :=
  cameraShakeDecay (gameOverCheck (processQueuedLevelUp (updateParticlesAndText s))).

(** A random source that always draws 0, at time 0. *)
Definition env0 : Env := mkEnv (fun _ => 0) 0.

(** A random source that always draws 0.995, at time 0. *)
Definition envHigh : Env := mkEnv (fun _ => 0.995) 0.

(** The bosses among a list of enemies. *)
Definition isBoss (e : Enemy.t) : bool := EnemyType_eqb (Enemy.type e) BOSS.
Definition bosses (l : list Enemy.t) : list Enemy.t := filter isBoss l.

(** An enemy placed on the border 80 units outside the screen. *)
Definition offScreen (p : Vector2) : Prop :=
  x p = - 80 \/ x p = SCREEN_WIDTH + 80 \/ y p = - 80 \/ y p = SCREEN_HEIGHT + 80.

(** What [spawnAsteroids] promises of each asteroid, for a player at [pp]. *)
Definition freshAsteroid (pp : Vector2) (a : Asteroid) : Prop :=
  150 <= dist (position (a_ent a)) pp
  /\ 0 <= x (position (a_ent a)) < SCREEN_WIDTH
  /\ 0 <= y (position (a_ent a)) < SCREEN_HEIGHT
  /\ 20 <= radius (a_ent a) <= 50
  /\ isTarget a = false /\ isScanned a = false.

(** Every draw of the random source lies in [[0, 1)], as [Math.random]
    promises. *)
Definition unitDraws (env : Env) : Prop := forall n, 0 <= rnd env n < 1.

(** [r] is the index of the first enemy of [l] that is nearest to [pp] among
    those that [keep] accepts; [None] if [keep] accepts none. *)
Definition nearestAmong (pp : Vector2) (keep : Enemy.t -> bool)
    (l : list Enemy.t) (r : option nat) : Prop :=
  match r with
  | None => Forall (fun e => keep e = false) l
  | Some j =>
      exists e, nth_error l j = Some e /\ keep e = true
        /\ (forall j' e', nth_error l j' = Some e' -> keep e' = true ->
                          dist pp (position (Enemy.ent e))
                          <= dist pp (position (Enemy.ent e')))
        /\ (forall j' e', nth_error l j' = Some e' -> keep e' = true ->
                          (j' < j)%nat ->
                          dist pp (position (Enemy.ent e))
                          < dist pp (position (Enemy.ent e')))
  end.

(** The distances the target search can order.  Up to [2 ^ 511] the squares
    under the root of [dist] stay finite numbers in binary64, so that
    [d < Infinity] is true of the computed distance, as [ltInf] has it. *)
Definition inReach (pp : Vector2) (e : Enemy.t) : Prop :=
  dist pp (position (Enemy.ent e)) <= 2 ^ 511.

(** The enemies the player sees: no asteroid blocks the line to them. *)
Definition visibleFrom (pp : Vector2) (asts : list Asteroid) (e : Enemy.t) : bool :=
  negb (isLineBlocked pp (position (Enemy.ent e)) asts).

(** One running minimum of the search, on its own. *)
Fixpoint runningMin (pp : Vector2) (keep : Enemy.t -> bool) (es : list Enemy.t)
    (i : nat) (acc : option nat * option R) : option nat * option R :=
  match es with
  | [] => acc
  | e :: rest =>
      let d := dist pp (position (Enemy.ent e)) in
      runningMin pp keep rest (S i)
        (if keep e && ltInf d (snd acc) then (Some i, Some d) else acc)
  end.

(** The invariant of a running minimum over the enemies seen so far. *)
Definition minOf (pp : Vector2) (keep : Enemy.t -> bool) (seen : list Enemy.t)
    (acc : option nat * option R) : Prop :=
  nearestAmong pp keep seen (fst acc)
  /\ match fst acc, snd acc with
     | Some j, Some d =>
         exists e, nth_error seen j = Some e /\ d = dist pp (position (Enemy.ent e))
     | None, None => True
     | _, _ => False
     end.


(** The enemy a projectile homes in on: that of a missile whose [targetId]
    names an enemy that is still there. *)
Definition homingTarget (s : GameState) (p : Projectile.t) : option Enemy.t :=
  if ProjectileType_eqb (Projectile.type p) PMISSILE then
    match Projectile.targetId p with
    | Some tid => find (fun e => Id_eqb (id (Enemy.ent e)) tid) (enemies s)
    | None => None
    end
  else None.

(** What the two wrapping loops make of a difference of two angles: one
    turn of [2 PI] is added if it was below [- PI], one is taken off if it
    was above [PI], and it is left alone otherwise. *)
Definition wrappedOnce (diff d : R) : Prop :=
  (~ diff < - PI /\ ~ PI < diff /\ d = diff)
  \/ (diff < - PI /\ d = diff + PI * 2)
  \/ (PI < diff /\ d = diff - PI * 2).

(** A property of the elements from an index on, as a downward loop
    establishes it. *)
Definition fromIndex {A} (P : A -> Prop) (i : nat) (l : list A) : Prop :=
  forall j a, (i <= j)%nat -> nth_error l j = Some a -> P a.


(** What the enemy stage never changes of an enemy. *)
Definition vitals (e : Enemy.t) : EnemyType * R * R :=
  (Enemy.type e, Enemy.hp e, Enemy.maxHp e).

(** A swarm enemy as a boss spawns it. *)
Definition freshSwarm (e : Enemy.t) : Prop :=
  Enemy.type e = SWARM /\ Enemy.hp e = 30 /\ Enemy.maxHp e = 30.

(** The enemy stage, seen from the index it has reached: the enemies that
    were there are all still there with the vitals they had, followed by
    the swarm spawned so far. *)
Definition enemiesKept (s : GameState) (i : nat) (t : GameState) : Prop :=
  Player.hp (player s) - 0.5 * INR i <= Player.hp (player t) <= Player.hp (player s)
  /\ exists kept sp,
       enemies t = kept ++ sp
       /\ map vitals kept = map vitals (enemies s)
       /\ Forall freshSwarm sp.


(** The shockwave stage, seen from the index it has reached. *)
Definition wavesSwept (s : GameState) (i : nat) (t : GameState) : Prop :=
  fromIndex (fun w => Shockwave.radius w <= Shockwave.maxRadius w) i (shockwaves t)
  /\ player t = player s
  /\ projectiles t = projectiles s
  /\ (List.length (shockwaves t) <= List.length (shockwaves s))%nat
  /\ (phase t = phase s
      \/ (phase t = VICTORY
          /\ TARGET_CRYSTALS <= Player.crystals (player s)
          /\ (List.length (shockwaves t) < List.length (shockwaves s))%nat)).

(** What a tick leaves of a weapon: everything but the cooldown counter. *)
Definition sameArsenal (w w' : Weapons) : Prop :=
  forall k,
    Weapon.level (getWeapon w' k) = Weapon.level (getWeapon w k)
    /\ Weapon.damage (getWeapon w' k) = Weapon.damage (getWeapon w k)
    /\ Weapon.range (getWeapon w' k) = Weapon.range (getWeapon w k)
    /\ Weapon.maxCooldown (getWeapon w' k) = Weapon.maxCooldown (getWeapon w k).

(** What the stages 2 to 7 of a tick never change: the asteroid field, the
    scan and warp bookkeeping, the one-off flags and the crystal count.  The
    phase changes at most to [VICTORY], with enough crystals; the camera
    shake stays within [[0, 50]]. *)
Definition steady (s s' : GameState) : Prop :=
  asteroids s' = asteroids s
  /\ scanTimer s' = scanTimer s
  /\ warpTimer s' = warpTimer s
  /\ scanTargetId s' = scanTargetId s
  /\ waveTimer s' = waveTimer s
  /\ justScanned s' = justScanned s
  /\ justLeveledUp s' = justLeveledUp s
  /\ Player.crystals (player s') = Player.crystals (player s)
  /\ sameArsenal (Player.weapons (player s)) (Player.weapons (player s'))
  /\ (phase s' = phase s
      \/ (phase s' = VICTORY /\ TARGET_CRYSTALS <= Player.crystals (player s)))
  /\ (0 <= cameraShake s <= 50 -> 0 <= cameraShake s' <= 50).

(** What the stages 2 to 7 of a tick do to a queued level-up and to the
    shockwaves: a level-up that is queued stays queued, and no shockwave
    appears where there was none. *)
Definition queueKept (s s' : GameState) : Prop :=
  (levelUpQueued s = true -> levelUpQueued s' = true)
  /\ (shockwaves s = [] -> shockwaves s' = []).

(** The auto fire when there is nothing to aim at: each of the three
    cooldown counters goes down by one. *)
Definition idleFire (s : GameState) : GameState :=
  let cool (s : GameState) (k : WeaponType) :=
    setCooldown s k (Weapon.cooldown (getWeapon (Player.weapons (player s)) k) - 1) in
  cool (cool (cool s MACHINE_GUN) MISSILE) LASER.

(** The magnet timer when there are no orbs. *)
Definition idleMagnet (s : GameState) : GameState :=
  set_magnetTimer s (if Rgtb (magnetTimer s + 1) 60 then 0 else magnetTimer s + 1).

(** The states in which nothing fights: no enemy, projectile or orb. *)
Definition calm (s : GameState) : Prop :=
  enemies s = [] /\ projectiles s = [] /\ xpOrbs s = [].

(** The initial state once the mission has been started: an idle, calm
    arena. *)
Definition idleState : GameState := startGame createInitialState.

(** An idle arena in which a level-up is still queued. *)
Definition queuedState : GameState := set_levelUpQueued idleState true.

(** The same while the first wave of an EMP is still growing. *)
Definition youngWave : Shockwave.t :=
  Shockwave.mk (mkVec 100 100) 10 1440 25 COLORS.shockwave.

Definition queuedUnderEmp : GameState := set_shockwaves queuedState [youngWave].

(** An idle arena with the tenth crystal collected and the last wave of the
    EMP about to leave the screen. *)
Definition lastWave : Shockwave.t :=
  Shockwave.mk (mkVec 0 0) 1440 1440 25 COLORS.shockwave.

Definition winningState : GameState :=
  set_shockwaves
    (set_player idleState (Player.set_crystals (player idleState) 10))
    [lastWave].

(** The click test of [handleCanvasClick]: within 15 units of the circle of
    the asteroid. *)
Definition underClick (cx cy : R) (a : Asteroid) : bool :=
  Rleb (sqrt (Math_pow (cx - x (position (a_ent a))) 2
              + Math_pow (cy - y (position (a_ent a))) 2))
       (radius (a_ent a) + 15).

(** [a], at index [i], is the first asteroid of the field [l] under the
    click. *)
Definition firstUnderClick (cx cy : R) (l : list Asteroid) (i : nat)
    (a : Asteroid) : Prop :=
  nth_error l i = Some a
  /\ underClick cx cy a = true
  /\ forall j b, (j < i)%nat -> nth_error l j = Some b -> underClick cx cy b = false.

(** The scan that a click on the asteroid [a], at index [i], starts: [a] is
    flagged and coloured as the target, its id is stored, the phase is
    [SCANNING] and both timers restart. *)
Definition scanStarted (s : GameState) (i : nat) (a : Asteroid) : GameState :=
  let target := set_a_ent (set_isTarget a true)
                          (set_color (a_ent a) COLORS.asteroidTarget) in
  set_waveTimer
    (set_scanTimer
       (set_phase
          (set_scanTargetId (set_asteroids s (list_set (asteroids s) i target))
                            (Some (id (a_ent a))))
          SCANNING) 0) 0.

(** What a completed scan leaves, given the enemies [es] and the wave timer
    [wt] that the spawner has left. *)
Definition scanDone (s s1 : GameState) : Prop :=
  phase s1 = IDLE
  /\ Player.crystals (player s1) = Player.crystals (player s) + 1
  /\ justScanned s1 = true
  /\ scanTargetId s1 = None
  /\ Forall (fun a => isTarget a = false) (asteroids s1)
  /\ match findIndex (isScanTarget (scanTargetId s)) (asteroids s) with
     | Some i =>
         asteroids s1 = map resetAsteroid (splice1 (asteroids s) i)
         /\ cameraShake s1 = 30
         /\ exists target w,
              nth_error (asteroids s) i = Some target
              /\ shockwaves s1 = shockwaves s ++ [w]
              /\ Shockwave.position w = position (a_ent target)
              /\ Shockwave.radius w = 10
     | None =>
         asteroids s1 = map resetAsteroid (asteroids s)
         /\ cameraShake s1 = cameraShake s
         /\ shockwaves s1 = shockwaves s
     end.


(** An orb after one step of length [speed] in the direction [ang]. *)
Definition orbMoved (o : XpOrb.t) (ang speed : R) : XpOrb.t :=
  XpOrb.set_ent o
    (set_position (XpOrb.ent o)
       (mkVec (x (position (XpOrb.ent o)) + cos ang * speed)
              (y (position (XpOrb.ent o)) + sin ang * speed))).

(** A magnetized orb far to the left of the player, in an idle arena. *)
Definition farOrb : XpOrb.t :=
  XpOrb.mk (mkEntity (IdRand "xp" 0) (mkVec 0 (SCREEN_HEIGHT / 2)) (mkVec 0 0) 4
                     COLORS.xpOrb 0) 10 true.

Definition oneOrb : GameState := set_xpOrbs idleState [farOrb].

(** A scan thirty seconds old, without and with a boss in the arena. *)
Definition lateScan : GameState :=
  set_scanTimer (set_phase idleState SCANNING) 30.

Definition aBoss : Enemy.t :=
  Enemy.mk (mkEntity (IdEnemy 0 0) (mkVec 100 100) (mkVec 0 0)
                     (es_radius (ENEMY_STATS BOSS)) (enemyColor BOSS) 0)
           BOSS (es_hp (ENEMY_STATS BOSS)) (es_hp (ENEMY_STATS BOSS)) 0.

Definition bossFight : GameState := set_enemies lateScan [aBoss].

(** Two swarm enemies around the player at (600, 360): one 300 units to the
    right, a nearer one 100 units below, the latter behind an asteroid. *)
Definition swarmAt (n : R) (p : Vector2) : Enemy.t :=
  Enemy.mk (mkEntity (IdEnemy 0 n) p (mkVec 0 0) (es_radius (ENEMY_STATS SWARM))
                     (enemyColor SWARM) 0)
           SWARM (es_hp (ENEMY_STATS SWARM)) (es_hp (ENEMY_STATS SWARM)) 0.

Definition coverRock : Asteroid :=
  mkAsteroid (mkEntity (IdAst 0) (mkVec 600 410) (mkVec 0 0) 20 COLORS.asteroid 0)
             false false.

Definition ambush : GameState :=
  set_asteroids
    (set_enemies idleState [swarmAt 1 (mkVec 900 360); swarmAt 2 (mkVec 600 460)])
    [coverRock].

(** An idle arena whose player has gathered 350 XP at once: enough for two
    levels, with thresholds 100 and 200. *)
Definition richState : GameState :=
  set_player idleState (Player.set_xp (player idleState) 350).

(** An unmagnetized orb 600 units to the left of the player, with the
    magnet timer about to fire. *)
Definition distantOrb : XpOrb.t :=
  XpOrb.mk (mkEntity (IdRand "xp" 0) (mkVec 0 (SCREEN_HEIGHT / 2)) (mkVec 0 0) 4
                     COLORS.xpOrb 0) 10 false.

Definition magnetDue : GameState :=
  set_magnetTimer (set_xpOrbs idleState [distantOrb]) 60.

(** An idle arena with two particles and one floating text in flight. *)
Definition spark (n life : R) : Particle.t :=
  Particle.mk (mkEntity (IdRand "p" n) (mkVec 10 10) (mkVec 1 2) 3 "#fff" 0)
              life 60 1.

Definition note : FloatingText.t :=
  FloatingText.mk (IdRand "ft" 0) (TNum 5) (mkVec 50 50) 30 "#fff" 14.

Definition sparkling : GameState :=
  set_floatingTexts (set_particles idleState [spark 0 40; spark 1 2]) [note].

(** An enemy orb in flight, one tick before it reaches the player, in an
    otherwise idle arena; in [lastStand] the player has one hit point left. *)
Definition incoming : Projectile.t :=
  Projectile.mk (mkEntity (IdRand "ep" 0) (mkVec 610 360) (mkVec (- 4) 0) 5
                          "#ff0000" PI)
                1 None 100 true ENEMY_ORB.

Definition underFire : GameState := set_projectiles idleState [incoming].

Definition lastStand : GameState :=
  set_player underFire (Player.set_hp (player underFire) 1).

(** What the orb leaves of a state [s] in which it was alone in flight:
    the orb is gone, the player has lost its damage, the camera shakes at 5
    and the floating text [ft] shows the loss. *)
Definition struck (s : GameState) (ft : FloatingText.t) : GameState :=
  set_projectiles
    (set_floatingTexts
       (set_cameraShake
          (damagePlayer (set_projectiles (idleFire s) [moveProjectile incoming])
                        (Projectile.damage incoming)) 5)
       (floatingTexts s ++ [ft])) [].

(** A scan in progress: an asteroid field of two, the first of which is the
    target. *)
Definition rock : Asteroid :=
  mkAsteroid (mkEntity (IdAst 0) (mkVec 100 100) (mkVec 0 0) 30
                       COLORS.asteroidTarget 0) true false.

Definition pebble : Asteroid :=
  mkAsteroid (mkEntity (IdAst 1) (mkVec 110 100) (mkVec 0 0) 25
                       COLORS.asteroid 0) false false.

Definition scanning : GameState :=
  set_scanTargetId (set_asteroids (set_phase idleState SCANNING) [rock; pebble])
                   (Some (IdAst 0)).

(** The same scan one tick before it completes, and five seconds earlier
    with an enemy due. *)
Definition scanComplete : GameState := set_scanTimer scanning 90.

Definition scanSpawning : GameState :=
  set_waveTimer (set_scanTimer scanning 85) 10.

(** An idle field of two overlapping asteroids, not yet scanned. *)
Definition boulder : Asteroid :=
  mkAsteroid (mkEntity (IdAst 0) (mkVec 100 100) (mkVec 0 0) 30
                       COLORS.asteroid 0) false false.

Definition idleField : GameState := set_asteroids idleState [boulder; pebble].

(** What the timers stage makes of a scan in which nothing is due. *)
Definition scanTicked (s : GameState) : GameState :=
  set_waveTimer (set_scanTimer s (scanTimer s + 1 / 60)) (waveTimer s + 1).

(* ------------------------------------------------------------------ *)
(** * Facts about the boolean comparisons *)

Lemma Rltb_true a b : a < b -> Rltb a b = true.
Proof. unfold Rltb; destruct (Rlt_dec a b); intros; [reflexivity | lra]. Qed.
Lemma Rltb_false a b : b <= a -> Rltb a b = false.
Proof. unfold Rltb; destruct (Rlt_dec a b); intros; [lra | reflexivity]. Qed.
Lemma Rleb_true a b : a <= b -> Rleb a b = true.
Proof. unfold Rleb; destruct (Rle_dec a b); intros; [reflexivity | lra]. Qed.
Lemma Rleb_false a b : b < a -> Rleb a b = false.
Proof. unfold Rleb; destruct (Rle_dec a b); intros; [lra | reflexivity]. Qed.
Lemma Reqb_true a b : a = b -> Reqb a b = true.
Proof. unfold Reqb; destruct (Req_dec_T a b); intros; [reflexivity | lra]. Qed.
Lemma Reqb_false a b : a <> b -> Reqb a b = false.
Proof. unfold Reqb; destruct (Req_dec_T a b); intros; [contradiction | reflexivity]. Qed.

Lemma Rltb_spec a b : Rltb a b = true <-> a < b.
Proof. unfold Rltb; destruct (Rlt_dec a b); split; intros; try lra; congruence. Qed.
Lemma Rleb_spec a b : Rleb a b = true <-> a <= b.
Proof. unfold Rleb; destruct (Rle_dec a b); split; intros; try lra; congruence. Qed.
Lemma Rltb_nspec a b : Rltb a b = false <-> b <= a.
Proof. unfold Rltb; destruct (Rlt_dec a b); split; intros; try lra; congruence. Qed.
Lemma Rleb_nspec a b : Rleb a b = false <-> b < a.
Proof. unfold Rleb; destruct (Rle_dec a b); split; intros; try lra; congruence. Qed.
Lemma Reqb_spec a b : Reqb a b = true <-> a = b.
Proof. unfold Reqb; destruct (Req_dec_T a b); split; intros; try lra; congruence. Qed.

(* ------------------------------------------------------------------ *)
(** * Properties of the geometry helpers *)

Lemma clamp_flip t : Rmax 0 (Rmin 1 (1 - t)) = 1 - Rmax 0 (Rmin 1 t).
Proof.
  unfold Rmin.
  destruct (Rle_dec 1 (1 - t)), (Rle_dec 1 t); unfold Rmax;
    repeat match goal with
           | |- context [Rle_dec ?a ?b] => destruct (Rle_dec a b)
           end; lra.
Qed.

Lemma blockedBy_sym a b ast : blockedBy a b ast = blockedBy b a ast.
Proof.
  unfold blockedBy.
  set (l2 := Math_pow (x b - x a) 2 + Math_pow (y b - y a) 2).
  assert (El2 : Math_pow (x a - x b) 2 + Math_pow (y a - y b) 2 = l2)
    by (unfold l2, Math_pow; ring).
  rewrite El2.
  unfold Reqb. destruct (Req_dec_T l2 0) as [Hz | Hnz]; [reflexivity |].
  set (px := x (position (a_ent ast))). set (py := y (position (a_ent ast))).
  set (t := ((px - x a) * (x b - x a) + (py - y a) * (y b - y a)) / l2).
  assert (Et : ((px - x b) * (x a - x b) + (py - y b) * (y a - y b)) / l2 = 1 - t).
  { unfold t. apply Rmult_eq_reg_r with l2; [| exact Hnz].
    replace ((1 - ((px - x a) * (x b - x a) + (py - y a) * (y b - y a)) / l2) * l2)
      with (l2 - ((px - x a) * (x b - x a) + (py - y a) * (y b - y a)))
      by (field; exact Hnz).
    replace (((px - x b) * (x a - x b) + (py - y b) * (y a - y b)) / l2 * l2)
      with ((px - x b) * (x a - x b) + (py - y b) * (y a - y b))
      by (field; exact Hnz).
    unfold l2, Math_pow. ring. }
  rewrite Et, clamp_flip.
  f_equal. unfold Math_pow. ring.
Qed.

(** C9.  Evaluated over exact real numbers, the line-of-sight test does not
    depend on the direction in which the segment is given: for all points
    [a], [b] and every list of circular obstacles,
    [isLineBlocked a b obs = isLineBlocked b a obs].  In binary64 the two
    directions round differently, as the example after this theorem shows. *)
Theorem isLineBlocked_symmetric (a b : Vector2) (obs : list Asteroid) :
  isLineBlocked a b obs = isLineBlocked b a obs.
Proof.
  induction obs as [| ast rest IH]; simpl; [reflexivity |].
  rewrite (blockedBy_sym a b ast), IH. reflexivity.
Qed.

(** In binary64, as the program computes, the test is not symmetric: seen
    from the player at (600, 360) the enemy at (-43, 96) is not hidden by
    the asteroid at (532, 376) of radius 40.62804713742349, while seen from
    the enemy the player is. *)
Lemma isLineBlocked_binary64_asymmetric :
  Binary64.isLineBlocked Binary64.grazePlayer Binary64.grazeEnemy
    [Binary64.grazeRock] = false
  /\ Binary64.isLineBlocked Binary64.grazeEnemy Binary64.grazePlayer
       [Binary64.grazeRock] = true.
Proof. split; vm_compute; reflexivity. Qed.


(* ------------------------------------------------------------------ *)
(** * Reasoning about effectful computations *)

Lemma bind_inv {A B} (m : M A) (f : A -> M B) env k b k' :
  bind m f env k = Some (b, k') ->
  exists a k1, m env k = Some (a, k1) /\ f a env k1 = Some (b, k').
Proof.
  unfold bind. destruct (m env k) as [[a k1] |]; [| discriminate].
  intros H. exists a, k1. split; [reflexivity | exact H].
Qed.

Lemma bind_run {A B} {m : M A} (f : A -> M B) {env k a k1} :
  m env k = Some (a, k1) -> bind m f env k = f a env k1.
Proof. unfold bind. intros ->. reflexivity. Qed.

Lemma ret_run {A} (a : A) env k : ret a env k = Some (a, k).
Proof. reflexivity. Qed.

Lemma random_run env k : Math_random env k = Some (rnd env k, S k).
Proof. reflexivity. Qed.

(** Inversion of a computation that is known to return. *)
Ltac minv :=
  repeat match goal with
         | H : ret _ _ _ = Some _ |- _ => unfold ret in H; inversion H; subst; clear H
         | H : abort _ _ = Some _ |- _ => discriminate H
         | H : Math_random _ _ = Some _ |- _ =>
             unfold Math_random in H; inversion H; subst; clear H
         | H : Date_now _ _ = Some _ |- _ =>
             unfold Date_now in H; inversion H; subst; clear H
         | H : bind _ _ _ _ = Some _ |- _ =>
             apply bind_inv in H; destruct H as (? & ? & ? & H)
         | H : forUp (S _) _ _ _ _ _ = Some _ |- _ => simpl forUp in H
         | H : forUp O _ _ _ _ _ = Some _ |- _ => simpl forUp in H
         | H : forDown (S _) _ _ _ _ = Some _ |- _ => simpl forDown in H
         | H : forDown O _ _ _ _ = Some _ |- _ => simpl forDown in H
         | H : (if ?b then _ else _) _ _ = Some _ |- _ => destruct b eqn:?
         | H : (match ?v with Some _ => _ | None => _ end) _ _ = Some _ |- _ =>
             destruct v eqn:?
         | H : (let (_, _) := ?v in _) _ _ = Some _ |- _ => destruct v eqn:?
         end.

(** A property kept by the body of a loop is kept by the loop. *)
Lemma forUp_inv {St} (P : St -> Prop) (body : nat -> St -> M St) env :
  (forall i s k s' k', P s -> body i s env k = Some (s', k') -> P s') ->
  forall n i s k s' k', P s -> forUp n i body s env k = Some (s', k') -> P s'.
Proof.
  intros Hbody. induction n as [| n IH]; simpl; intros i s k s' k' HP H.
  - minv. exact HP.
  - minv. eapply IH; [| eassumption]. eapply Hbody; eassumption.
Qed.

Lemma forDown_inv {St} (P : St -> Prop) (body : nat -> St -> M St) env :
  (forall i s k s' k', P s -> body i s env k = Some (s', k') -> P s') ->
  forall n s k s' k', P s -> forDown n body s env k = Some (s', k') -> P s'.
Proof.
  intros Hbody. induction n as [| n IH]; simpl; intros s k s' k' HP H.
  - minv. exact HP.
  - minv. eapply IH; [| eassumption]. eapply Hbody; eassumption.
Qed.

(** A loop whose body always returns always returns. *)
Lemma forUp_total {St} (body : nat -> St -> M St) env :
  (forall i s k, exists s' k', body i s env k = Some (s', k')) ->
  forall n i s k, exists s' k', forUp n i body s env k = Some (s', k').
Proof.
  intros Hbody. induction n as [| n IH]; simpl; intros i s k.
  - eexists _, _. reflexivity.
  - destruct (Hbody i s k) as (s1 & k1 & H1).
    destruct (IH (S i) s1 k1) as (s2 & k2 & H2).
    exists s2, k2. rewrite (bind_run _ H1). exact H2.
Qed.

Lemma forDown_total {St} (body : nat -> St -> M St) env :
  (forall i s k, exists s' k', body i s env k = Some (s', k')) ->
  forall n s k, exists s' k', forDown n body s env k = Some (s', k').
Proof.
  intros Hbody. induction n as [| n IH]; simpl; intros s k.
  - eexists _, _. reflexivity.
  - destruct (Hbody n s k) as (s1 & k1 & H1).
    destruct (IH s1 k1) as (s2 & k2 & H2).
    exists s2, k2. rewrite (bind_run _ H1). exact H2.
Qed.

(* ------------------------------------------------------------------ *)
(** * What the spawning helpers change *)

Lemma spawnParticles_shape state pos n c env k :
  exists ps k', spawnParticles state pos n c env k
                = Some (set_particles state (particles state ++ ps), k').
Proof.
  unfold spawnParticles. generalize 0%nat as i. revert state k.
  induction n as [| n IH]; simpl; intros state k i.
  - exists [], k. unfold ret. rewrite app_nil_r. destruct state; reflexivity.
  - unfold bind at 1. simpl.
    match goal with
    | |- context [forUp n (S i) ?b ?s env ?kk] =>
        destruct (IH s kk (S i)) as (ps & k' & H)
    end.
    rewrite H. simpl. rewrite <- app_assoc. eexists _, _. reflexivity.
Qed.

Lemma addFloatingText_shape state t pos c sz env k :
  exists ft, addFloatingText state t pos c sz env k
             = Some (set_floatingTexts state (floatingTexts state ++ [ft]), S k).
Proof. unfold addFloatingText, bind, Math_random, ret. eexists. reflexivity. Qed.

Lemma spawnEnemy_shape state ft pos env k :
  exists e k', spawnEnemy state ft pos env k
               = Some (set_enemies state (enemies state ++ [e]), k').
Proof.
  unfold spawnEnemy.
  assert (Hxy : exists xy k1,
             match pos with
             | Some p => ret (x p, y p)
             | None =>
                 r <- Math_random ;;
                 r' <- Math_random ;;
                 (if Reqb (Math_floor (r * 4)) 0 then ret (r' * SCREEN_WIDTH, - 80)
                  else if Reqb (Math_floor (r * 4)) 1
                       then ret (SCREEN_WIDTH + 80, r' * SCREEN_HEIGHT)
                       else if Reqb (Math_floor (r * 4)) 2
                            then ret (r' * SCREEN_WIDTH, SCREEN_HEIGHT + 80)
                            else ret (- 80, r' * SCREEN_HEIGHT))
             end env k = Some (xy, k1)).
  { destruct pos; [eexists _, _; reflexivity |].
    unfold bind, Math_random.
    repeat match goal with |- context [if ?b then _ else _] => destruct b end;
      eexists _, _; reflexivity. }
  destruct Hxy as (xy & k1 & Hxy). rewrite (bind_run _ Hxy).
  destruct ft as [t |].
  - unfold bind, ret, Date_now, Math_random. eexists _, _. reflexivity.
  - unfold bind at 1. unfold bind at 1. unfold Math_random at 1.
    repeat match goal with |- context [if ?b then _ else _] => destruct b end;
      unfold bind, ret, Date_now, Math_random; eexists _, _; reflexivity.
Qed.


Ltac shapes :=
  repeat match goal with
         | H : spawnParticles ?s ?p ?n ?c ?env ?k = Some _ |- _ =>
             let E := fresh "E" in
             destruct (spawnParticles_shape s p n c env k) as (? & ? & E);
             rewrite E in H; inversion H; subst; clear H E
         | H : addFloatingText ?s ?t ?p ?c ?z ?env ?k = Some _ |- _ =>
             let E := fresh "E" in
             destruct (addFloatingText_shape s t p c z env k) as (? & E);
             rewrite E in H; inversion H; subst; clear H E
         | H : spawnEnemy ?s ?t ?p ?env ?k = Some _ |- _ =>
             let E := fresh "E" in
             destruct (spawnEnemy_shape s t p env k) as (? & ? & E);
             rewrite E in H; inversion H; subst; clear H E
         end.

Ltac msolve := repeat (minv; shapes).

Ltac inv_ret H := unfold ret in H; inversion H; subst; clear H.

Ltac case_ifs :=
  repeat match goal with
         | |- context [if ?b then _ else _] => destruct b eqn:?
         end.

(* ------------------------------------------------------------------ *)
(** * Arrays *)

Lemma Forall_list_set {A} (P : A -> Prop) l i v :
  Forall P l -> P v -> Forall P (list_set l i v).
Proof.
  intros Hl Hv. revert i. induction Hl as [| h t Hh Ht IH]; intros [| i]; simpl;
    constructor; auto.
Qed.

Lemma Forall_splice1 {A} (P : A -> Prop) l i :
  Forall P l -> Forall P (splice1 l i).
Proof.
  intros Hl. revert i. induction Hl as [| h t Hh Ht IH]; intros [| i]; simpl;
    try constructor; auto.
Qed.

Lemma Forall_nth_error {A} (P : A -> Prop) l i v :
  Forall P l -> nth_error l i = Some v -> P v.
Proof.
  intros Hl Hn. rewrite Forall_forall in Hl. apply Hl.
  eapply nth_error_In; eassumption.
Qed.

Lemma nth_error_list_set_eq {A} (l : list A) i v e :
  nth_error l i = Some e -> nth_error (list_set l i v) i = Some v.
Proof.
  revert i. induction l as [| h t IH]; intros [| i]; simpl; try discriminate; auto.
Qed.

Lemma nth_error_list_set_neq {A} (l : list A) i j v :
  i <> j -> nth_error (list_set l i v) j = nth_error l j.
Proof.
  revert i j. induction l as [| h t IH]; intros [| i] [| j]; simpl; intros H;
    try reflexivity; try contradiction; auto.
Qed.

Lemma length_list_set {A} (l : list A) i v : List.length (list_set l i v) = List.length l.
Proof. revert i. induction l as [| h t IH]; intros [| i]; simpl; auto. Qed.

Lemma findIndex_nth {A} (f : A -> bool) l i :
  findIndex f l = Some i -> exists e, nth_error l i = Some e /\ f e = true.
Proof.
  revert i. induction l as [| h t IH]; simpl; intros i H; [discriminate |].
  destruct (f h) eqn:Hf.
  - inversion H; subst. exists h. auto.
  - destruct (findIndex f t) as [j |]; [| discriminate].
    inversion H; subst. simpl. apply IH. reflexivity.
Qed.

(* ------------------------------------------------------------------ *)
(** * Invariants of the stages after the auto fire

    [weaponsOf] is only written by the auto-fire stage; [hpOK] and [projOK]
    are kept by every later stage. *)





Lemma frame3_refl s : frame3 s s.
Proof. unfold frame3. auto. Qed.

Lemma frame3_trans s1 s2 s3 : frame3 s1 s2 -> frame3 s2 s3 -> frame3 s1 s3.
Proof.
  unfold frame3. intros (W & H) (W' & H').
  split; [congruence |]. intros Hh Hp. destruct (H Hh Hp). auto.
Qed.

(** A step that leaves the player and the projectiles alone. *)
Lemma frame3_same s s' :
  player s' = player s -> projectiles s' = projectiles s -> frame3 s s'.
Proof.
  unfold frame3, weaponsOf, hpOK, projOK. intros -> ->. auto.
Qed.

Lemma bossLogic_frame e s env k s' e' k' :
  bossLogic e s env k = Some ((s', e'), k') ->
  player s' = player s /\ projectiles s' = projectiles s.
Proof. unfold bossLogic. intros H. msolve; cbn; auto. Qed.

Lemma shootOrMove_frame e s env k s' e' k' :
  shootOrMove e s env k = Some ((s', e'), k') ->
  player s' = player s /\ (projOK s -> projOK s').
Proof.
  unfold shootOrMove, projOK. intros H. msolve; cbn; repeat split; auto.
  intros HF. apply Forall_app. split; auto. repeat constructor. cbn. intros; lra.
Qed.

Lemma contactDamage_frame e s : frame3 s (contactDamage e s).
Proof.
  unfold contactDamage, frame3, weaponsOf, hpOK, projOK.
  destruct (Rltb _ _); cbn; repeat split; auto. lra.
Qed.

Lemma enemyStep_frame i s env k s' k' :
  enemyStep i s env k = Some (s', k') -> frame3 s s'.
Proof.
  unfold enemyStep. intros H.
  destruct (nth_error (enemies s) i) as [e |]; [| minv; apply frame3_refl].
  apply bind_inv in H. destruct H as ([s1 e1] & k1 & H1 & H).
  apply bind_inv in H. destruct H as ([s2 e2] & k2 & H2 & H).
  cbn [fst snd] in *. minv.
  apply bossLogic_frame in H1. destruct H1 as (P1 & Pr1).
  apply shootOrMove_frame in H2. destruct H2 as (P2 & Pr2).
  eapply frame3_trans; [| apply contactDamage_frame].
  unfold frame3, weaponsOf, hpOK, projOK in *. cbn.
  rewrite P2, P1. repeat split; auto.
  apply Pr2. rewrite Pr1. assumption.
Qed.

Lemma updateEnemies_frame s env k s' k' :
  updateEnemies s env k = Some (s', k') -> frame3 s s'.
Proof.
  unfold updateEnemies.
  apply (forUp_inv (fun t => frame3 s t)); [| apply frame3_refl].
  intros i t kk t' kk' Ht Hb. eapply frame3_trans; [exact Ht |].
  eapply enemyStep_frame; eassumption.
Qed.

(** *** Projectiles *)

Lemma homing_same fuel s p env k p' k' :
  homing fuel s p env k = Some (p', k') ->
  Projectile.damage p' = Projectile.damage p
  /\ Projectile.isEnemy p' = Projectile.isEnemy p
  /\ Projectile.type p' = Projectile.type p
  /\ Projectile.duration p' = Projectile.duration p
  /\ position (Projectile.ent p') = position (Projectile.ent p)
  /\ radius (Projectile.ent p') = radius (Projectile.ent p).
Proof. unfold homing. intros H. msolve; cbn; auto 10. Qed.

Lemma hitAsteroids_frame p s env k s' b k' :
  hitAsteroids p s env k = Some ((s', b), k') ->
  player s' = player s /\ projectiles s' = projectiles s
  /\ enemies s' = enemies s.
Proof. unfold hitAsteroids. intros H. msolve; cbn; auto. Qed.

Lemma hitEnemies_frame p s env k s' b k' :
  hitEnemies p s env k = Some ((s', b), k') ->
  player s' = player s /\ projectiles s' = projectiles s.
Proof. unfold hitEnemies. intros H. msolve; case_ifs; cbn; auto. Qed.

Lemma hitPlayer_frame p s env k s' b k' :
  hitPlayer p s env k = Some ((s', b), k') ->
  projectiles s' = projectiles s /\ weaponsOf s' = weaponsOf s
  /\ (0 <= Projectile.damage p -> hpOK s -> hpOK s').
Proof.
  unfold hitPlayer, hpOK, weaponsOf. intros H.
  msolve; cbn; repeat split; auto; intros; lra.
Qed.

Lemma projectileStep_frame fuel i s env k s' k' :
  projectileStep fuel i s env k = Some (s', k') -> frame3 s s'.
Proof.
  unfold projectileStep. intros H.
  destruct (nth_error (projectiles s) i) as [p |] eqn:Hp; [| minv; apply frame3_refl].
  apply bind_inv in H. destruct H as (p1 & k1 & H1 & H).
  apply bind_inv in H. destruct H as ([s2 b2] & k2 & H2 & H).
  apply bind_inv in H. destruct H as ([s3 b3] & k3 & H3 & H).
  cbn [fst snd] in *.
  apply homing_same in H1. destruct H1 as (Hd & He & _).
  apply hitAsteroids_frame in H2. cbn in H2. destruct H2 as (P2 & Pr2 & _).
  set (pm := moveProjectile p1) in *.
  assert (Hpm : Projectile.isEnemy pm = true -> 0 <= Projectile.damage pm ->
                Projectile.isEnemy p = true /\ 0 <= Projectile.damage p).
  { unfold pm. cbn. rewrite Hd, He. auto. }
  assert (F3 : frame3 s s3).
  { unfold frame3, weaponsOf, hpOK, projOK in *.
    destruct (negb b2).
    - destruct (Projectile.isEnemy pm) eqn:Epm.
      + apply hitPlayer_frame in H3. destruct H3 as (Pr3 & W3 & Hh3).
        unfold weaponsOf, hpOK in *. rewrite W3, P2, Pr3, Pr2. split; [reflexivity |].
        intros Hh HF.
        assert (Hdam : 0 <= Projectile.damage pm).
        { unfold pm. cbn. rewrite Hd. revert Epm. unfold pm. cbn. rewrite He.
          eapply (Forall_nth_error _ _ _ _ HF Hp). }
        split.
        * apply Hh3; [exact Hdam |]. rewrite P2. exact Hh.
        * apply Forall_list_set; [exact HF |]. intros _. exact Hdam.
      + apply hitEnemies_frame in H3. destruct H3 as (P3 & Pr3).
        rewrite P3, P2, Pr3, Pr2. split; [reflexivity |].
        intros Hh HF. split; [exact Hh |].
        apply Forall_list_set; [exact HF |]. intros E. congruence.
    - inv_ret H3.
      rewrite P2, Pr2. split; [reflexivity |].
      intros Hh HF. split; [exact Hh |].
      apply Forall_list_set; [exact HF |].
      intros E. unfold pm in *. cbn in *. rewrite Hd. rewrite He in E.
      eapply (Forall_nth_error _ _ _ _ HF Hp). exact E. }
  eapply frame3_trans; [exact F3 |].
  destruct (b3 || Rleb _ 0); inv_ret H; [| apply frame3_refl].
  unfold frame3, weaponsOf, hpOK, projOK. cbn. split; [reflexivity |].
  intros Hh HF. split; [exact Hh | apply Forall_splice1; exact HF].
Qed.

Lemma updateProjectiles_frame fuel s env k s' k' :
  updateProjectiles fuel s env k = Some (s', k') -> frame3 s s'.
Proof.
  unfold updateProjectiles.
  apply (forDown_inv (fun t => frame3 s t)); [| apply frame3_refl].
  intros i t kk t' kk' Ht Hb. eapply frame3_trans; [exact Ht |].
  eapply projectileStep_frame; eassumption.
Qed.

(** *** Shockwaves, cleanup, orbs *)

Lemma empStep_same wave j s env k s' k' :
  empStep wave j s env k = Some (s', k') ->
  player s' = player s /\ projectiles s' = projectiles s
  /\ phase s' = phase s /\ shockwaves s' = shockwaves s.
Proof. unfold empStep. intros H. msolve; cbn; auto. Qed.

Lemma empLoop_same wave n j s env k s' k' :
  forUp n j (empStep wave) s env k = Some (s', k') ->
  player s' = player s /\ projectiles s' = projectiles s
  /\ phase s' = phase s /\ shockwaves s' = shockwaves s.
Proof.
  apply (forUp_inv (fun t => player t = player s /\ projectiles t = projectiles s
                             /\ phase t = phase s /\ shockwaves t = shockwaves s));
    [| auto].
  intros i t kk t' kk' (P & Pr & Ph & Sw) Hb.
  apply empStep_same in Hb. destruct Hb as (P' & Pr' & Ph' & Sw').
  repeat split; congruence.
Qed.

Lemma shockwaveStep_same i s env k s' k' :
  shockwaveStep i s env k = Some (s', k') ->
  player s' = player s /\ projectiles s' = projectiles s.
Proof.
  unfold shockwaveStep. intros H.
  destruct (nth_error (shockwaves s) i) as [w |]; [| inv_ret H; auto].
  apply bind_inv in H. destruct H as (s1 & k1 & H1 & H).
  apply empLoop_same in H1. cbn in H1. destruct H1 as (P & Pr & _).
  msolve; cbn; auto.
Qed.

Lemma updateShockwaves_frame s env k s' k' :
  updateShockwaves s env k = Some (s', k') -> frame3 s s'.
Proof.
  unfold updateShockwaves.
  apply (forDown_inv (fun t => frame3 s t)); [| apply frame3_refl].
  intros i t kk t' kk' Ht Hb. eapply frame3_trans; [exact Ht |].
  apply shockwaveStep_same in Hb. destruct Hb. apply frame3_same; assumption.
Qed.

Lemma cleanupStep_same a i s env k s' k' :
  cleanupStep a i s env k = Some (s', k') ->
  player s' = player s /\ projectiles s' = projectiles s /\ phase s' = phase s
  /\ shockwaves s' = shockwaves s.
Proof. unfold cleanupStep. intros H. msolve; cbn; auto. Qed.

Lemma cleanupEnemies_frame a s env k s' k' :
  cleanupEnemies a s env k = Some (s', k') -> frame3 s s'.
Proof.
  unfold cleanupEnemies.
  apply (forDown_inv (fun t => frame3 s t)); [| apply frame3_refl].
  intros i t kk t' kk' Ht Hb. eapply frame3_trans; [exact Ht |].
  apply cleanupStep_same in Hb. destruct Hb as (? & ? & _). apply frame3_same; assumption.
Qed.

Lemma magnetizeAt_same s i :
  player (magnetizeAt s i) = player s /\ projectiles (magnetizeAt s i) = projectiles s.
Proof. unfold magnetizeAt. destruct (nth_error _ _); cbn; auto. Qed.

Lemma magnetTick_same s env k s' k' :
  magnetTick s env k = Some (s', k') ->
  player s' = player s /\ projectiles s' = projectiles s.
Proof.
  unfold magnetTick. intros H. msolve; cbn; auto.
  destruct (magnetizeAt_same (set_magnetTimer (set_magnetTimer s (magnetTimer s + 1)) 0) n)
    as (P & Pr).
  rewrite P, Pr. cbn. auto.
Qed.

Lemma levelUpLoop_frame fuel s env k s' k' :
  levelUpLoop fuel s env k = Some (s', k') -> frame3 s s'.
Proof.
  revert s. induction fuel as [| fuel IH]; simpl; intros s H.
  - destruct (Rgeb _ _); [discriminate H | inv_ret H; apply frame3_refl].
  - destruct (Rgeb _ _); [| inv_ret H; apply frame3_refl].
    apply IH in H. eapply frame3_trans; [| exact H].
    unfold frame3, weaponsOf, hpOK, projOK, levelUpBody. cbn.
    split; [reflexivity |]. intros _ HF. split; [lra | exact HF].
Qed.

Lemma orbStep_frame fuel i s env k s' k' :
  orbStep fuel i s env k = Some (s', k') -> frame3 s s'.
Proof.
  unfold orbStep, collectXp. intros H.
  destruct (nth_error (xpOrbs s) i) as [o |]; [| inv_ret H; apply frame3_refl].
  destruct (_ || _); [| inv_ret H; apply frame3_refl].
  destruct (Rltb _ 20).
  - apply bind_inv in H. destruct H as (s1 & k1 & H1 & H). inv_ret H.
    apply levelUpLoop_frame in H1.
    unfold frame3, weaponsOf, hpOK, projOK in *. cbn in *. exact H1.
  - inv_ret H. apply frame3_same; reflexivity.
Qed.

Lemma updateXpOrbs_frame fuel a s env k s' k' :
  updateXpOrbs fuel a s env k = Some (s', k') -> frame3 s s'.
Proof.
  unfold updateXpOrbs. intros H.
  apply bind_inv in H. destruct H as (s1 & k1 & H1 & H).
  apply magnetTick_same in H1. destruct H1 as (P & Pr).
  eapply frame3_trans; [apply frame3_same; eassumption |].
  revert H.
  match goal with
  | |- forDown _ _ ?s0 _ _ = _ -> _ =>
      intros H; apply frame3_trans with s0;
      [apply frame3_same; destruct (_ || _); reflexivity |]
  end.
  revert H. apply (forDown_inv (fun t => frame3 _ t)); [| apply frame3_refl].
  intros i t kk t' kk' Ht Hb. eapply frame3_trans; [exact Ht |].
  eapply orbStep_frame; eassumption.
Qed.

(** *** The last stages *)


Lemma finish_frame s : frame3 s (finish s).
Proof.
  apply frame3_same; unfold finish, cameraShakeDecay, gameOverCheck,
    processQueuedLevelUp, updateParticlesAndText; case_ifs; reflexivity.
Qed.

Lemma finish_gameOver s :
  Player.hp (player (finish s)) <= 0 -> phase (finish s) = GAME_OVER.
Proof.
  unfold finish, cameraShakeDecay, gameOverCheck, processQueuedLevelUp,
    updateParticlesAndText.
  case_ifs; cbn in *; intros Hle; try reflexivity;
    match goal with
    | E : Rleb _ 0 = false |- _ => apply Rleb_nspec in E; cbn in E; lra
    end.
Qed.

(** ** The stages of a tick, one by one *)

Lemma updateGame_stages fuel s env k s' k' :
  isPaused (phase s) = false ->
  updateGame fuel s env k = Some (s', k') ->
  exists s1 k1 s2 k2 s3 k3 s4 k4 s5 k5 s6 k6 s7,
    updateTimers fuel s env k = Some (s1, k1)
    /\ autoFire s1 env k1 = Some (s2, k2)
    /\ updateEnemies s2 env k2 = Some (s3, k3)
    /\ updateProjectiles fuel s3 env k3 = Some (s4, k4)
    /\ updateShockwaves s4 env k4 = Some (s5, k5)
    /\ cleanupEnemies (isShockwaveActive s4) s5 env k5 = Some (s6, k6)
    /\ updateXpOrbs fuel (isShockwaveActive s4) s6 env k6 = Some (s7, k')
    /\ s' = finish s7.
Proof.
  unfold updateGame. intros -> H.
  apply bind_inv in H. destruct H as (s1 & k1 & H1 & H).
  apply bind_inv in H. destruct H as (s2 & k2 & H2 & H).
  apply bind_inv in H. destruct H as (s3 & k3 & H3 & H).
  apply bind_inv in H. destruct H as (s4 & k4 & H4 & H).
  apply bind_inv in H. destruct H as (s5 & k5 & H5 & H).
  apply bind_inv in H. destruct H as (s6 & k6 & H6 & H).
  apply bind_inv in H. destruct H as (s7 & k7 & H7 & H).
  inv_ret H.
  exists s1, k1, s2, k2, s3, k3, s4, k4, s5, k5, s6, k6, s7. auto 10.
Qed.

(** Everything after the auto fire keeps the weapons, and keeps
    [hp <= maxHp] as long as enemy projectiles do not heal. *)
Lemma afterFire_frame fuel s2 env k2 s3 k3 s4 k4 s5 k5 s6 k6 s7 k7 :
  updateEnemies s2 env k2 = Some (s3, k3) ->
  updateProjectiles fuel s3 env k3 = Some (s4, k4) ->
  updateShockwaves s4 env k4 = Some (s5, k5) ->
  cleanupEnemies (isShockwaveActive s4) s5 env k5 = Some (s6, k6) ->
  updateXpOrbs fuel (isShockwaveActive s4) s6 env k6 = Some (s7, k7) ->
  frame3 s2 (finish s7).
Proof.
  intros H3 H4 H5 H6 H7.
  eapply frame3_trans; [eapply updateEnemies_frame; eassumption |].
  eapply frame3_trans; [eapply updateProjectiles_frame; eassumption |].
  eapply frame3_trans; [eapply updateShockwaves_frame; eassumption |].
  eapply frame3_trans; [eapply cleanupEnemies_frame; eassumption |].
  eapply frame3_trans; [eapply updateXpOrbs_frame; eassumption |].
  apply finish_frame.
Qed.

(* ------------------------------------------------------------------ *)
(** * Distances and the line-of-sight test *)

Lemma sq_sum_nonneg u v : 0 <= Math_pow u 2 + Math_pow v 2.
Proof. unfold Math_pow. nra. Qed.

Lemma dist_nonneg a b : 0 <= dist a b.
Proof. unfold dist. apply sqrt_pos. Qed.

Lemma dist_sq a b : dist a b * dist a b = (x b - x a) ^ 2 + (y b - y a) ^ 2.
Proof. unfold dist. rewrite sqrt_sqrt; [reflexivity | apply sq_sum_nonneg]. Qed.

Lemma blockedBy_point a ast : blockedBy a a ast = false.
Proof.
  unfold blockedBy, Math_pow.
  rewrite Reqb_true; [reflexivity | ring].
Qed.

(** X1.  A segment of length zero is never blocked, whatever the obstacles:
    the source skips every asteroid when [l2 === 0], also one whose circle
    contains the point. *)
Theorem isLineBlocked_zero_length (a : Vector2) (obs : list Asteroid) :
  isLineBlocked a a obs = false.
Proof.
  induction obs as [| ast rest IH]; simpl; [reflexivity |].
  rewrite blockedBy_point. exact IH.
Qed.

(* ------------------------------------------------------------------ *)
(** * Spawning *)

Lemma existsb_false_filter {A} (f : A -> bool) l :
  existsb f l = false -> filter f l = [].
Proof.
  induction l as [| h t IH]; simpl; [reflexivity |].
  destruct (f h); simpl; [discriminate | exact IH].
Qed.

Lemma bosses_snoc l e :
  bosses (l ++ [e]) = bosses l ++ (if isBoss e then [e] else []).
Proof. unfold bosses. rewrite filter_app. reflexivity. Qed.

(** X3.  [spawnEnemy] called without a position always returns; it appends
    exactly one enemy, placed on the border 80 units outside the screen, at
    full health for its type, and changes nothing else. *)
Theorem spawnEnemy_offscreen (s : GameState) (ft : option EnemyType)
    (env : Env) (k : nat) :
  exists e k',
    spawnEnemy s ft None env k = Some (set_enemies s (enemies s ++ [e]), k')
    /\ offScreen (position (Enemy.ent e))
    /\ Enemy.hp e = es_hp (ENEMY_STATS (Enemy.type e))
    /\ Enemy.maxHp e = Enemy.hp e
    /\ radius (Enemy.ent e) = es_radius (ENEMY_STATS (Enemy.type e)).
Proof.
  unfold spawnEnemy, offScreen.
  unfold bind at 1. unfold bind at 1. unfold Math_random at 1.
  unfold bind at 1. unfold Math_random at 1.
  destruct (Reqb (Math_floor (rnd env k * 4)) 0);
    [| destruct (Reqb (Math_floor (rnd env k * 4)) 1);
       [| destruct (Reqb (Math_floor (rnd env k * 4)) 2)]];
    unfold ret at 1;
    (destruct ft as [t |];
     [| unfold bind at 1; unfold bind at 1; unfold Math_random at 1;
        repeat match goal with
               | |- context [if ?b then _ else _] => destruct b
               end; unfold ret at 1];
     unfold bind, ret, Date_now, Math_random; cbn [fst snd];
     eexists _, _; (split; [reflexivity |]); cbn; auto 10).
Qed.

(** X4.  A random spawn never adds a second boss: if at most one boss is
    alive before [spawnEnemy] picks the type itself, at most one is alive
    after. *)
Theorem spawnEnemy_single_boss (s : GameState) (pos : option Vector2)
    (env : Env) (k : nat) :
  (List.length (bosses (enemies s)) <= 1)%nat ->
  exists e k',
    spawnEnemy s None pos env k = Some (set_enemies s (enemies s ++ [e]), k')
    /\ (List.length (bosses (enemies s ++ [e])) <= 1)%nat.
Proof.
  intros Hb. unfold spawnEnemy.
  match goal with
  | |- context [bind ?m _] =>
      assert (Hxy : exists xy k1, m env k = Some (xy, k1))
  end.
  { destruct pos; [eexists _, _; reflexivity |].
    unfold bind, Math_random.
    repeat match goal with |- context [if ?b then _ else _] => destruct b end;
      eexists _, _; reflexivity. }
  destruct Hxy as (xy & k1 & Hxy). rewrite (bind_run _ Hxy).
  unfold bind at 1. unfold bind at 1. unfold Math_random at 1.
  fold isBoss.
  destruct (existsb isBoss (enemies s)) eqn:Hex; cbn [negb andb].
  - repeat match goal with
           | |- context [if ?b then _ else _] => destruct b
           end; unfold bind, ret, Date_now, Math_random;
      eexists _, _; (split; [reflexivity |]);
      rewrite bosses_snoc; cbn; rewrite app_nil_r; exact Hb.
  - apply existsb_false_filter in Hex.
    repeat match goal with
           | |- context [if ?b then _ else _] => destruct b
           end; unfold bind, ret, Date_now, Math_random;
      eexists _, _; (split; [reflexivity |]);
      rewrite bosses_snoc; unfold bosses at 1; rewrite Hex; cbn; lia.
Qed.

(** Thirty seconds into a scan and with every draw 0.995: with a boss in
    the arena the test on [hasBoss] turns the spawn into a tank; without
    one the boss branch is taken and the boss is the only one. *)
Lemma spawnEnemy_single_boss_witness :
  (exists e k',
     spawnEnemy bossFight None None envHigh 0%nat
     = Some (set_enemies bossFight (enemies bossFight ++ [e]), k')
     /\ (List.length (bosses (enemies bossFight ++ [e])) <= 1)%nat)
  /\ (exists e k',
        spawnEnemy lateScan None None envHigh 0%nat
        = Some (set_enemies lateScan (enemies lateScan ++ [e]), k')
        /\ (List.length (bosses (enemies lateScan ++ [e])) <= 1)%nat).
Proof.
  split.
  - apply (spawnEnemy_single_boss bossFight None envHigh 0%nat).
    cbn. lia.
  - apply (spawnEnemy_single_boss lateScan None envHigh 0%nat).
    cbn. lia.
Defined.

(** X5.  [spawnParticles] always returns; it appends exactly [count]
    particles, all at [pos] and of colour [color], uses five random draws
    per particle and changes nothing else. *)
Theorem spawnParticles_count (s : GameState) (pos : Vector2) (count : nat)
    (c : string) (env : Env) (k : nat) :
  exists ps,
    spawnParticles s pos count c env k
    = Some (set_particles s (particles s ++ ps), (k + 5 * count)%nat)
    /\ List.length ps = count
    /\ Forall (fun p => position (Particle.ent p) = pos
                        /\ color (Particle.ent p) = c
                        /\ Particle.maxLife p = 60
                        /\ Particle.scale p = 1) ps.
Proof.
  unfold spawnParticles.
  assert (G : forall n i s k, exists ps,
             forUp n i
               (fun _ state =>
                  a <- Math_random ;;
                  s0 <- Math_random ;;
                  r_id <- Math_random ;;
                  r_rad <- Math_random ;;
                  r_life <- Math_random ;;
                  ret (set_particles state
                         (particles state ++
                          [Particle.mk
                             (mkEntity (IdRand "p" r_id) pos
                                (mkVec (cos (a * PI * 2) * (s0 * 5 + 2))
                                       (sin (a * PI * 2) * (s0 * 5 + 2)))
                                (r_rad * 4 + 1) c 0)
                             (40 + r_life * 20) 60 1]))) s env k
             = Some (set_particles s (particles s ++ ps), (k + 5 * n)%nat)
             /\ List.length ps = n
             /\ Forall (fun p => position (Particle.ent p) = pos
                                 /\ color (Particle.ent p) = c
                                 /\ Particle.maxLife p = 60
                                 /\ Particle.scale p = 1) ps).
  { induction n as [| n IH]; intros i s0 k0.
    - exists []. simpl. unfold ret. rewrite app_nil_r, Nat.add_0_r.
      destruct s0; repeat split; auto.
    - simpl forUp. unfold bind at 1. simpl.
      match goal with
      | |- context [forUp n (S i) ?b ?s1 env ?kk] =>
          destruct (IH (S i) s1 kk) as (ps & H & Hlen & HF)
      end.
      rewrite H. simpl. rewrite <- app_assoc.
      eexists (_ :: ps). split; [| split].
      + simpl. f_equal. f_equal; [destruct s0; reflexivity | lia].
      + simpl. rewrite Hlen. reflexivity.
      + constructor; [cbn; auto | exact HF]. }
  apply G.
Qed.

(* ------------------------------------------------------------------ *)
(** * The asteroid field *)

Lemma samplePosition_spec fuel pp env k pos k' :
  unitDraws env ->
  samplePosition fuel pp env k = Some (pos, k') ->
  150 <= dist pos pp
  /\ 0 <= x pos < SCREEN_WIDTH /\ 0 <= y pos < SCREEN_HEIGHT.
Proof.
  intros Hu. revert k. induction fuel as [| fuel IH]; simpl; intros k H.
  - discriminate H.
  - unfold bind at 1 in H. unfold bind at 1 in H. unfold Math_random at 1 2 in H.
    destruct (Rltb _ 150) eqn:E.
    + eapply IH; eassumption.
    + inv_ret H. apply Rltb_nspec in E.
      pose proof (Hu k). pose proof (Hu (S k)).
      split; [exact E |].
      unfold SCREEN_WIDTH, SCREEN_HEIGHT. cbn [x y]. lra.
Qed.

Lemma spawnAsteroid_spec fuel i t env k t' k' :
  unitDraws env ->
  spawnAsteroid fuel i t env k = Some (t', k') ->
  exists a, t' = set_asteroids t (asteroids t ++ [a])
            /\ id (a_ent a) = IdAst i
            /\ freshAsteroid (position (Player.ent (player t))) a.
Proof.
  intros Hu H. unfold spawnAsteroid in H.
  apply bind_inv in H. destruct H as (pos & k1 & Hp & H).
  apply (samplePosition_spec _ _ _ _ _ _ Hu) in Hp.
  unfold bind, Math_random, ret in H. inversion H; subst; clear H.
  eexists. split; [reflexivity |]. split; [reflexivity |].
  unfold freshAsteroid. cbn.
  pose proof (Hu (S (S k1))). repeat split; try tauto; lra.
Qed.

Lemma spawnAsteroid_loop fuel env :
  unitDraws env ->
  forall n i t k t' k',
    forUp n i (spawnAsteroid fuel) t env k = Some (t', k') ->
    exists l, t' = set_asteroids t (asteroids t ++ l)
              /\ map (fun a => id (a_ent a)) l = map IdAst (seq i n)
              /\ Forall (freshAsteroid (position (Player.ent (player t)))) l.
Proof.
  intros Hu. induction n as [| n IH]; simpl; intros i t k t' k' H.
  - inv_ret H. exists []. rewrite app_nil_r. destruct t'; auto.
  - apply bind_inv in H. destruct H as (t1 & k1 & H1 & H).
    apply (spawnAsteroid_spec _ _ _ _ _ _ _ Hu) in H1.
    destruct H1 as (a & -> & Hid & Ha).
    apply IH in H. destruct H as (l & -> & Hids & Hl).
    exists (a :: l). cbn. rewrite <- app_assoc. cbn.
    split; [reflexivity |]. split; [rewrite Hid, Hids; reflexivity |].
    constructor; assumption.
Qed.

Lemma asteroid_count r :
  0 <= r < 1 ->
  (10 <= Z.to_nat (ASTEROID_CONFIG.min
                   + Zfloor (r * IZR (ASTEROID_CONFIG.max - ASTEROID_CONFIG.min + 1)))
   <= 20)%nat.
Proof.
  intros Hr. unfold ASTEROID_CONFIG.min, ASTEROID_CONFIG.max.
  replace (IZR (20 - 10 + 1)) with 11 by (simpl; lra).
  assert (H0 : (0 <= Zfloor (r * 11))%Z) by (apply Zfloor_lub; simpl; lra).
  assert (H1 : (Zfloor (r * 11) < 11)%Z).
  { apply lt_IZR. pose proof (Zfloor_bound (r * 11)). lra. }
  lia.
Qed.

(** X6.  With draws in [[0, 1)], a call of [spawnAsteroids] that returns has
    replaced the field by between 10 and 20 asteroids numbered
    [ast-0], [ast-1], ...; each lies on the screen at distance at least 150
    from the player, has a radius in [[20, 50]] and is neither a target nor
    scanned.  Nothing but the asteroid list changes. *)
Theorem spawnAsteroids_field (fuel : nat) (s : GameState) (env : Env)
    (k : nat) (s' : GameState) (k' : nat) :
  unitDraws env ->
  spawnAsteroids fuel s env k = Some (s', k') ->
  s' = set_asteroids s (asteroids s')
  /\ (10 <= List.length (asteroids s') <= 20)%nat
  /\ map (fun a => id (a_ent a)) (asteroids s')
     = map IdAst (seq 0 (List.length (asteroids s')))
  /\ Forall (freshAsteroid (position (Player.ent (player s)))) (asteroids s').
Proof.
  intros Hu H. unfold spawnAsteroids in H.
  unfold bind at 1 in H. unfold Math_random at 1 in H.
  apply (spawnAsteroid_loop _ _ Hu) in H. destruct H as (l & -> & Hids & Hl).
  cbn in *.
  assert (Hlen : List.length l
                 = Z.to_nat (ASTEROID_CONFIG.min
                             + Zfloor (rnd env k
                                       * IZR (ASTEROID_CONFIG.max
                                              - ASTEROID_CONFIG.min + 1)))).
  { rewrite <- (length_map (fun a => id (a_ent a)) l), Hids, length_map.
    apply length_seq. }
  split; [reflexivity |]. split; [| split].
  - rewrite Hlen. apply asteroid_count. apply Hu.
  - rewrite Hids, Hlen. reflexivity.
  - exact Hl.
Qed.

(** A loop returns if its body does on every state that satisfies an
    invariant of the body. *)
Lemma forUp_total_inv {St} (P : St -> Prop) (body : nat -> St -> M St) env :
  (forall i s k, P s -> exists s' k', body i s env k = Some (s', k') /\ P s') ->
  forall n i s k, P s -> exists s' k', forUp n i body s env k = Some (s', k') /\ P s'.
Proof.
  intros Hbody. induction n as [| n IH]; simpl; intros i s k HP.
  - eexists _, _. split; [reflexivity | exact HP].
  - destruct (Hbody i s k HP) as (s1 & k1 & H1 & HP1).
    destruct (IH (S i) s1 k1 HP1) as (s2 & k2 & H2 & HP2).
    exists s2, k2. rewrite (bind_run _ H1). auto.
Qed.

(** When the random source only draws 0, every candidate position is the
    top left corner: the field is generated at once if the player is at
    least 150 away from that corner. *)
Lemma spawnAsteroids_env0 s k :
  150 <= dist (mkVec 0 0) (position (Player.ent (player s))) ->
  exists s' k', spawnAsteroids 1 s env0 k = Some (s', k').
Proof.
  intros Hd. unfold spawnAsteroids.
  unfold bind at 1. unfold Math_random at 1.
  match goal with
  | |- context [forUp ?cnt 0 ?b ?st env0 ?kk] =>
      pose proof (forUp_total_inv
                    (fun u => position (Player.ent (player u))
                              = position (Player.ent (player s)))
                    b env0) as Hloop;
      destruct Hloop with (n := cnt) (i := 0%nat) (s := st) (k := kk)
        as (s' & k' & H & _)
  end.
  - intros i t kk Ht. unfold spawnAsteroid. simpl samplePosition.
    unfold bind, Math_random, ret. cbn [rnd env0].
    rewrite Ht.
    replace (0 * SCREEN_WIDTH) with 0 by ring.
    replace (0 * SCREEN_HEIGHT) with 0 by ring.
    rewrite (Rltb_false _ _ Hd).
    eexists _, _. split; [reflexivity | exact Ht].
  - reflexivity.
  - eexists _, _. exact H.
Qed.

Lemma spawnAsteroids_field_witness :
  exists s' k',
    spawnAsteroids 1 createInitialState env0 0%nat = Some (s', k')
    /\ (10 <= List.length (asteroids s') <= 20)%nat.
Proof.
  destruct (spawnAsteroids_env0 createInitialState 0%nat) as (s' & k' & H).
  - cbn. apply Rnot_lt_le. intros Hlt.
    pose proof (dist_nonneg (mkVec 0 0) (mkVec (SCREEN_WIDTH / 2) (SCREEN_HEIGHT / 2))).
    pose proof (dist_sq (mkVec 0 0) (mkVec (SCREEN_WIDTH / 2) (SCREEN_HEIGHT / 2))) as Hs.
    cbn in Hs. unfold SCREEN_WIDTH, SCREEN_HEIGHT in *. nra.
  - exists s', k'. split; [exact H |].
    apply (spawnAsteroids_field 1 createInitialState env0 0%nat s' k').
    + intros n. cbn. lra.
    + exact H.
Defined.

(* ------------------------------------------------------------------ *)
(** * The target search *)

Lemma findTargets_visible pp asts es i acc :
  (nearestVisible (findTargets pp asts es i acc),
   minDstVisible (findTargets pp asts es i acc))
  = runningMin pp (visibleFrom pp asts) es i (nearestVisible acc, minDstVisible acc).
Proof.
  revert i acc. induction es as [| e rest IH]; intros i acc; simpl; [reflexivity |].
  rewrite IH. f_equal. unfold visibleFrom.
  destruct (isLineBlocked pp (position (Enemy.ent e)) asts); simpl;
    repeat match goal with
           | |- context [if ?b then _ else _] => destruct b; simpl
           end; reflexivity.
Qed.

Lemma findTargets_any pp asts es i acc :
  (nearestAny (findTargets pp asts es i acc),
   minDstAny (findTargets pp asts es i acc))
  = runningMin pp (fun _ => true) es i (nearestAny acc, minDstAny acc).
Proof.
  revert i acc. induction es as [| e rest IH]; intros i acc; simpl; [reflexivity |].
  rewrite IH. f_equal.
  destruct (negb (isLineBlocked pp (position (Enemy.ent e)) asts));
    [destruct (ltInf _ (minDstVisible acc)) |];
    cbn [nearestAny minDstAny andb];
    destruct (ltInf _ (minDstAny acc)); reflexivity.
Qed.

Lemma nth_error_snoc {A} (l : list A) (a : A) j b :
  nth_error (l ++ [a]) j = Some b ->
  (nth_error l j = Some b /\ (j < List.length l)%nat)
  \/ (j = List.length l /\ b = a).
Proof.
  intros H. destruct (Nat.lt_ge_cases j (List.length l)) as [Hlt | Hge].
  - rewrite nth_error_app1 in H by exact Hlt. auto.
  - rewrite nth_error_app2 in H by exact Hge.
    destruct (j - List.length l)%nat as [| m] eqn:E; simpl in H.
    + inversion H; subst. right. split; [lia | reflexivity].
    + destruct m; discriminate H.
Qed.

Lemma minOf_step pp keep seen e acc :
  minOf pp keep seen acc ->
  minOf pp keep (seen ++ [e])
    (if keep e && ltInf (dist pp (position (Enemy.ent e))) (snd acc)
     then (Some (List.length seen), Some (dist pp (position (Enemy.ent e))))
     else acc).
Proof.
  intros (Hn & Hm). destruct acc as [n m]. cbn [fst snd] in *.
  destruct (keep e) eqn:Hk; cbn [andb].
  - destruct n as [j |], m as [d |]; try contradiction; cbn [ltInf].
    + destruct Hm as (e0 & He0 & ->).
      destruct Hn as (e1 & He1 & Hk1 & Hle & Hlt).
      assert (e1 = e0) by congruence. subst e1.
      destruct (Rltb _ _) eqn:Hcmp.
      * apply Rltb_spec in Hcmp. split; cbn [fst snd].
        -- exists e. repeat split.
           ++ rewrite nth_error_app2 by lia. rewrite Nat.sub_diag. reflexivity.
           ++ exact Hk.
           ++ intros j' e' Hj' Hk'. apply nth_error_snoc in Hj'.
              destruct Hj' as [(Hj' & _) | (_ & ->)]; [| lra].
              specialize (Hle _ _ Hj' Hk'). lra.
           ++ intros j' e' Hj' Hk' Hlt'. apply nth_error_snoc in Hj'.
              destruct Hj' as [(Hj' & _) | (-> & _)]; [| lia].
              specialize (Hle _ _ Hj' Hk'). lra.
        -- exists e. split; [| reflexivity].
           rewrite nth_error_app2 by lia. rewrite Nat.sub_diag. reflexivity.
      * apply Rltb_nspec in Hcmp.
        assert (Hj : (j < List.length seen)%nat).
        { apply nth_error_Some. congruence. }
        split; cbn [fst snd].
        -- exists e0. repeat split.
           ++ rewrite nth_error_app1 by exact Hj. exact He0.
           ++ exact Hk1.
           ++ intros j' e' Hj' Hk'. apply nth_error_snoc in Hj'.
              destruct Hj' as [(Hj' & _) | (_ & ->)]; [eauto | lra].
           ++ intros j' e' Hj' Hk' Hlt'. apply nth_error_snoc in Hj'.
              destruct Hj' as [(Hj' & _) | (-> & _)]; [eauto | lia].
        -- exists e0. split; [| reflexivity].
           rewrite nth_error_app1 by exact Hj. exact He0.
    + split; cbn [fst snd].
      * exists e. repeat split.
        -- rewrite nth_error_app2 by lia. rewrite Nat.sub_diag. reflexivity.
        -- exact Hk.
        -- intros j' e' Hj' Hk'. apply nth_error_snoc in Hj'.
           destruct Hj' as [(Hj' & _) | (_ & ->)]; [| lra].
           cbn in Hn. apply (Forall_nth_error _ _ _ _ Hn) in Hj'. congruence.
        -- intros j' e' Hj' Hk' Hlt'. apply nth_error_snoc in Hj'.
           destruct Hj' as [(Hj' & _) | (-> & _)]; [| lia].
           cbn in Hn. apply (Forall_nth_error _ _ _ _ Hn) in Hj'. congruence.
      * exists e. split; [| reflexivity].
        rewrite nth_error_app2 by lia. rewrite Nat.sub_diag. reflexivity.
  - split; cbn [fst snd].
    + destruct n as [j |]; cbn in *.
      * destruct Hn as (e1 & He1 & Hk1 & Hle & Hlt).
        assert (Hj : (j < List.length seen)%nat).
        { apply nth_error_Some. congruence. }
        exists e1. repeat split.
        -- rewrite nth_error_app1 by exact Hj. exact He1.
        -- exact Hk1.
        -- intros j' e' Hj' Hk'. apply nth_error_snoc in Hj'.
           destruct Hj' as [(Hj' & _) | (_ & ->)]; [eauto | congruence].
        -- intros j' e' Hj' Hk' Hlt'. apply nth_error_snoc in Hj'.
           destruct Hj' as [(Hj' & _) | (-> & _)]; [eauto | lia].
      * apply Forall_app. split; [exact Hn | repeat constructor; exact Hk].
    + destruct n as [j |], m as [d |]; try contradiction; [| exact I].
      destruct Hm as (e0 & He0 & ->). exists e0. split; [| reflexivity].
      rewrite nth_error_app1; [exact He0 |]. apply nth_error_Some. congruence.
Qed.

Lemma runningMin_minOf pp keep es seen acc :
  minOf pp keep seen acc ->
  minOf pp keep (seen ++ es) (runningMin pp keep es (List.length seen) acc).
Proof.
  revert seen acc. induction es as [| e rest IH]; intros seen acc H; simpl.
  - rewrite app_nil_r. exact H.
  - replace (seen ++ e :: rest) with ((seen ++ [e]) ++ rest)
      by (rewrite <- app_assoc; reflexivity).
    replace (S (List.length seen)) with (List.length (seen ++ [e]))
      by (rewrite length_app; simpl; lia).
    apply IH. apply minOf_step. exact H.
Qed.

Lemma dist_le a b m :
  0 <= m -> (x b - x a) ^ 2 + (y b - y a) ^ 2 <= m ^ 2 -> dist a b <= m.
Proof.
  intros Hm H. unfold dist, Math_pow.
  replace m with (sqrt (m ^ 2)).
  - apply sqrt_le_1_alt. exact H.
  - replace (m ^ 2) with (m * m) by ring. apply sqrt_square. exact Hm.
Qed.

Lemma ambush_inReach :
  Forall (inReach (position (Player.ent (player ambush)))) (enemies ambush).
Proof.
  assert (B : 1000 <= 2 ^ 511).
  { apply Rle_trans with (2 ^ 10); [simpl; lra |].
    apply Rle_pow; [lra | lia]. }
  apply Forall_cons; [| apply Forall_cons; [| apply Forall_nil]];
    unfold inReach; (eapply Rle_trans; [| exact B]); apply dist_le; cbn;
    unfold SCREEN_WIDTH, SCREEN_HEIGHT; lra.
Qed.

Lemma dist_exact a b m :
  0 <= m -> (x b - x a) ^ 2 + (y b - y a) ^ 2 = m ^ 2 -> dist a b = m.
Proof.
  intros Hm H. unfold dist, Math_pow. rewrite H.
  replace (m ^ 2) with (m * m) by ring. apply sqrt_square. exact Hm.
Qed.

Lemma ambush_distances :
  dist (position (Player.ent (player ambush))) (mkVec 900 360) = 300
  /\ dist (position (Player.ent (player ambush))) (mkVec 600 460) = 100.
Proof.
  split; apply dist_exact; cbn; unfold SCREEN_WIDTH, SCREEN_HEIGHT; lra.
Qed.

Lemma ambush_cover :
  visibleFrom (position (Player.ent (player ambush))) (asteroids ambush)
              (swarmAt 1 (mkVec 900 360)) = true
  /\ visibleFrom (position (Player.ent (player ambush))) (asteroids ambush)
                 (swarmAt 2 (mkVec 600 460)) = false.
Proof.
  unfold visibleFrom. cbn. unfold blockedBy. cbn.
  unfold SCREEN_WIDTH, SCREEN_HEIGHT, Math_pow.
  split.
  - rewrite Reqb_false by lra.
    repeat match goal with
           | |- context [Rmin 1 ?t] =>
               lazymatch t with
               | 0 => fail
               | _ => replace t with 0 by (field; lra)
               end
           end.
    replace (Rmax 0 (Rmin 1 0)) with 0
      by (unfold Rmin, Rmax; repeat destruct (Rle_dec _ _); lra).
    rewrite Rltb_false by lra. reflexivity.
  - rewrite Reqb_false by lra.
    repeat match goal with
           | |- context [Rmin 1 ?t] =>
               lazymatch t with
               | 1 / 2 => fail
               | _ => replace t with (1 / 2) by (field; lra)
               end
           end.
    replace (Rmax 0 (Rmin 1 (1 / 2))) with (1 / 2)
      by (unfold Rmin, Rmax; repeat destruct (Rle_dec _ _); lra).
    rewrite Rltb_true by lra. reflexivity.
Qed.

(** X7.  As long as no enemy is out of reach (its distance to the player is
    a finite number), the missile target of [updateGame], [nearestAny], is
    the first enemy at the least distance from the player; there is none
    exactly when there are no enemies. *)
Theorem searchTargets_nearestAny (s : GameState) :
  Forall (inReach (position (Player.ent (player s)))) (enemies s) ->
  nearestAmong (position (Player.ent (player s))) (fun _ => true) (enemies s)
               (nearestAny (searchTargets s)).
Proof.
  intros _. unfold searchTargets.
  pose proof (findTargets_any (position (Player.ent (player s))) (asteroids s)
                (enemies s) 0 (mkTargets None None None None)) as E.
  cbn [nearestAny minDstAny] in E.
  pose proof (runningMin_minOf (position (Player.ent (player s))) (fun _ => true)
                (enemies s) [] (None, None)) as H.
  cbn [app List.length] in H. rewrite <- E in H.
  apply H. split; cbn; [constructor | exact I].
Qed.

(** In the ambush the missiles aim at the second enemy, the nearer one,
    although it is hidden. *)
Lemma searchTargets_nearestAny_witness :
  nearestAny (searchTargets ambush) = Some 1%nat.
Proof.
  pose proof (searchTargets_nearestAny ambush ambush_inReach) as N.
  destruct ambush_distances as (D1 & D2).
  destruct (nearestAny (searchTargets ambush)) as [j |]; cbn [nearestAmong] in N.
  - destruct N as (e & He & _ & Hle & _).
    destruct j as [| [| j]]; [| reflexivity | destruct j; discriminate He].
    inversion He; subst e.
    specialize (Hle 1%nat (swarmAt 2 (mkVec 600 460)) eq_refl eq_refl).
    change (dist (position (Player.ent (player ambush))) (mkVec 900 360)
            <= dist (position (Player.ent (player ambush))) (mkVec 600 460)) in Hle.
    rewrite D1, D2 in Hle. lra.
  - inversion N. discriminate.
Defined.

(** X8.  As long as no enemy is out of reach, the target of the machine gun
    and of the laser, [nearestVisible], is the first enemy at the least
    distance among those whose line to the player no asteroid blocks; there
    is none exactly when every enemy is hidden. *)
Theorem searchTargets_nearestVisible (s : GameState) :
  Forall (inReach (position (Player.ent (player s)))) (enemies s) ->
  nearestAmong (position (Player.ent (player s)))
               (visibleFrom (position (Player.ent (player s))) (asteroids s))
               (enemies s) (nearestVisible (searchTargets s)).
Proof.
  intros _. unfold searchTargets.
  pose proof (findTargets_visible (position (Player.ent (player s))) (asteroids s)
                (enemies s) 0 (mkTargets None None None None)) as E.
  cbn [nearestVisible minDstVisible] in E.
  pose proof (runningMin_minOf (position (Player.ent (player s)))
                (visibleFrom (position (Player.ent (player s))) (asteroids s))
                (enemies s) [] (None, None)) as H.
  cbn [app List.length] in H. rewrite <- E in H.
  apply H. split; cbn; [constructor | exact I].
Qed.

(** In the ambush the guns aim at the first enemy: the nearer one is behind
    the asteroid. *)
Lemma searchTargets_nearestVisible_witness :
  nearestVisible (searchTargets ambush) = Some 0%nat.
Proof.
  pose proof (searchTargets_nearestVisible ambush ambush_inReach) as N.
  destruct ambush_cover as (V1 & V2).
  destruct (nearestVisible (searchTargets ambush)) as [j |]; cbn [nearestAmong] in N.
  - destruct N as (e & He & Hk & _).
    destruct j as [| [| j]]; [reflexivity | | destruct j; discriminate He].
    inversion He; subst e. congruence.
  - inversion N. congruence.
Defined.

(* ------------------------------------------------------------------ *)
(** * Loops that remove elements while walking an array downwards *)

Lemma nth_error_splice1_lt {A} (l : list A) i j :
  (j < i)%nat -> nth_error (splice1 l i) j = nth_error l j.
Proof.
  revert i j. induction l as [| h t IH]; intros [| i] [| j] H; simpl;
    try reflexivity; try lia.
  apply IH. lia.
Qed.

Lemma nth_error_splice1_ge {A} (l : list A) i j :
  (i <= j)%nat -> nth_error (splice1 l i) j = nth_error l (S j).
Proof.
  revert i j. induction l as [| h t IH]; intros i j H.
  - destruct i, j; reflexivity.
  - destruct i as [| i]; [reflexivity |].
    destruct j as [| j]; [lia |].
    simpl. apply IH. lia.
Qed.

Lemma length_splice1 {A} (l : list A) i :
  (i < List.length l)%nat -> S (List.length (splice1 l i)) = List.length l.
Proof.
  revert i. induction l as [| h t IH]; intros [| i] H; simpl in *; try lia.
  rewrite IH by lia. reflexivity.
Qed.

Lemma length_splice1_le {A} (l : list A) i :
  (List.length (splice1 l i) <= List.length l)%nat.
Proof.
  revert i. induction l as [| h t IH]; intros [| i]; simpl; try lia.
  specialize (IH i). lia.
Qed.

Lemma nth_error_list_set {A} (l : list A) i j v :
  nth_error (list_set l i v) j
  = if Nat.eqb i j then (match nth_error l i with Some _ => Some v | None => None end)
    else nth_error l j.
Proof.
  revert i j. induction l as [| h t IH]; intros i j.
  - destruct i, j; simpl; try reflexivity; destruct (Nat.eqb _ _); reflexivity.
  - destruct i as [| i], j as [| j]; simpl; try reflexivity. apply IH.
Qed.

Lemma fromIndex_length {A} (P : A -> Prop) (l : list A) :
  fromIndex P (List.length l) l.
Proof.
  intros j a Hj Hn. assert (j < List.length l)%nat by (apply nth_error_Some; congruence).
  lia.
Qed.

Lemma fromIndex_0 {A} (P : A -> Prop) (l : list A) : fromIndex P 0 l -> Forall P l.
Proof.
  intros H. apply Forall_forall. intros a Ha.
  apply In_nth_error in Ha. destruct Ha as (j & Hj). apply (H j a); [lia | exact Hj].
Qed.

Lemma fromIndex_splice1 {A} (P : A -> Prop) i (l : list A) :
  fromIndex P (S i) l -> fromIndex P i (splice1 l i).
Proof.
  intros H j a Hj Hn. rewrite nth_error_splice1_ge in Hn by exact Hj.
  apply (H (S j) a); [lia | exact Hn].
Qed.

Lemma fromIndex_set {A} (P : A -> Prop) i (l : list A) v :
  fromIndex P (S i) l -> P v -> fromIndex P i (list_set l i v).
Proof.
  intros H Hv j a Hj Hn. rewrite nth_error_list_set in Hn.
  destruct (Nat.eqb i j) eqn:E.
  - destruct (nth_error l i); inversion Hn; subst. exact Hv.
  - apply Nat.eqb_neq in E. apply (H j a); [lia | exact Hn].
Qed.

Lemma fromIndex_skip {A} (P : A -> Prop) i (l : list A) :
  fromIndex P (S i) l -> nth_error l i = None -> fromIndex P i l.
Proof.
  intros H Hnone j a Hj Hn. destruct (Nat.eq_dec i j) as [-> | Hne].
  - congruence.
  - apply (H j a); [lia | exact Hn].
Qed.

Lemma fromIndex_keep {A} (P : A -> Prop) i (l : list A) a :
  fromIndex P (S i) l -> nth_error l i = Some a -> P a -> fromIndex P i l.
Proof.
  intros H Ha HP j b Hj Hn. destruct (Nat.eq_dec i j) as [<- | Hne].
  - congruence.
  - apply (H j b); [lia | exact Hn].
Qed.

(** An invariant that depends on the index the loop has reached. *)
Lemma forDown_inv_idx {St} (P : nat -> St -> Prop) (body : nat -> St -> M St) env :
  (forall i s k s' k', P (S i) s -> body i s env k = Some (s', k') -> P i s') ->
  forall n s k s' k', P n s -> forDown n body s env k = Some (s', k') -> P 0%nat s'.
Proof.
  intros Hbody. induction n as [| n IH]; simpl; intros s k s' k' HP H.
  - inv_ret H. exact HP.
  - apply bind_inv in H. destruct H as (s1 & k1 & H1 & H).
    eapply IH; [| exact H]. eapply Hbody; eassumption.
Qed.

Lemma forUp_inv_idx {St} (P : nat -> St -> Prop) (body : nat -> St -> M St) env :
  (forall i s k s' k', P i s -> body i s env k = Some (s', k') -> P (S i) s') ->
  forall n i s k s' k', P i s -> forUp n i body s env k = Some (s', k') -> P (i + n)%nat s'.
Proof.
  intros Hbody. induction n as [| n IH]; simpl; intros i s k s' k' HP H.
  - inv_ret H. rewrite Nat.add_0_r. exact HP.
  - apply bind_inv in H. destruct H as (s1 & k1 & H1 & H).
    replace (i + S n)%nat with (S i + n)%nat by lia.
    eapply IH; [| exact H]. eapply Hbody; eassumption.
Qed.

(* ------------------------------------------------------------------ *)
(** * 6. Cleanup of dead enemies *)

Lemma cleanupStep_total a i s env k :
  exists s' k', cleanupStep a i s env k = Some (s', k').
Proof.
  unfold cleanupStep. destruct (nth_error (enemies s) i) as [e |];
    [| eexists _, _; reflexivity].
  destruct (Rleb (Enemy.hp e) 0); [| eexists _, _; reflexivity].
  destruct (spawnParticles_shape s (position (Enemy.ent e))
              (if EnemyType_eqb (Enemy.type e) BOSS then 100 else 30)%nat
              (color (Enemy.ent e)) env k) as (ps & k1 & H).
  rewrite (bind_run _ H). unfold bind at 1. unfold Math_random at 1.
  destruct (EnemyType_eqb (Enemy.type e) BOSS); [| eexists _, _; reflexivity].
  unfold bind, addFloatingText, Math_random, ret. eexists _, _; reflexivity.
Qed.

Lemma cleanupStep_spec a i s env k s' k' :
  cleanupStep a i s env k = Some (s', k') ->
  match nth_error (enemies s) i with
  | Some e =>
      if Rleb (Enemy.hp e) 0
      then enemies s' = splice1 (enemies s) i
           /\ exists o, xpOrbs s' = xpOrbs s ++ [o]
                        /\ position (XpOrb.ent o) = position (Enemy.ent e)
                        /\ XpOrb.value o = (if isBoss e then 500 else 10)
                        /\ XpOrb.isMagnetized o = (a || justScanned s)
      else s' = s
  | None => s' = s
  end.
Proof.
  unfold cleanupStep, isBoss. intros H.
  destruct (nth_error (enemies s) i) as [e |]; [| inv_ret H; reflexivity].
  destruct (Rleb (Enemy.hp e) 0); [| inv_ret H; reflexivity].
  msolve; cbn; (split; [reflexivity |]); eexists; (split; [reflexivity |]);
    cbn; auto.
Qed.

(** X9.  The cleanup stage always returns.  After it every remaining enemy
    has [hp > 0]; every enemy it removed has left exactly one XP orb, added
    behind the orbs that were there; the player is untouched. *)
Theorem cleanupEnemies_drops (a : bool) (s : GameState) (env : Env) (k : nat) :
  exists s' k' orbs,
    cleanupEnemies a s env k = Some (s', k')
    /\ Forall (fun e => 0 < Enemy.hp e) (enemies s')
    /\ xpOrbs s' = xpOrbs s ++ orbs
    /\ (List.length (enemies s') + List.length orbs = List.length (enemies s))%nat
    /\ player s' = player s.
Proof.
  unfold cleanupEnemies.
  destruct (forDown_total (cleanupStep a) env (fun i t kk => cleanupStep_total a i t env kk)
              (List.length (enemies s)) s k)
    as (s' & k' & H).
  pose proof H as H'.
  apply (forDown_inv_idx
           (fun i t => fromIndex (fun e => 0 < Enemy.hp e) i (enemies t)
                       /\ (exists orbs, xpOrbs t = xpOrbs s ++ orbs
                                        /\ (List.length (enemies t) + List.length orbs
                                            = List.length (enemies s))%nat)
                       /\ player t = player s)) in H'.
  - destruct H' as (HF & (orbs & Ho & Hl) & Hp).
    exists s', k', orbs. repeat split; auto. apply fromIndex_0. exact HF.
  - intros i t kk t' kk' (HF & (orbs & Ho & Hl) & Hp) Hb.
    pose proof (cleanupStep_same _ _ _ _ _ _ _ Hb) as (Hp' & _).
    apply cleanupStep_spec in Hb.
    destruct (nth_error (enemies t) i) as [e |] eqn:He.
    + destruct (Rleb (Enemy.hp e) 0) eqn:Hhp.
      * destruct Hb as (Een & o & Eo & _). rewrite Een, Eo.
        split; [apply fromIndex_splice1; exact HF |].
        split; [| congruence].
        exists (orbs ++ [o]). rewrite Ho, <- app_assoc. split; [reflexivity |].
        rewrite length_app. simpl.
        assert (i < List.length (enemies t))%nat by (apply nth_error_Some; congruence).
        pose proof (length_splice1 (enemies t) i H0). lia.
      * subst t'. apply Rleb_nspec in Hhp.
        split; [eapply fromIndex_keep; eassumption |].
        split; [exists orbs; auto | exact Hp].
    + subst t'. split; [apply fromIndex_skip; assumption |].
      split; [exists orbs; auto | exact Hp].
  - split; [apply fromIndex_length |].
    split; [exists []; rewrite app_nil_r; simpl; split; [reflexivity | lia] | reflexivity].
Qed.

(* ------------------------------------------------------------------ *)
(** * 4. Projectiles *)

Lemma Math_atan2_bound b a : - PI < Math_atan2 b a <= PI.
Proof.
  pose proof PI_RGT_0 as Hpi. unfold Math_atan2.
  pose proof (atan_bound (b / a)) as Hb.
  destruct (Rltb 0 a) eqn:Ea; [lra |].
  destruct (Rltb a 0) eqn:Ea'.
  - apply Rltb_spec in Ea'.
    assert (Hinv : / a < 0) by (apply Rinv_lt_0_compat; exact Ea').
    destruct (Rleb 0 b) eqn:Eb.
    + apply Rleb_spec in Eb.
      assert (Hq : b / a <= 0) by (unfold Rdiv; nra).
      assert (atan (b / a) <= 0).
      { destruct Hq as [Hq | Hq].
        - apply atan_increasing in Hq. rewrite atan_0 in Hq. lra.
        - rewrite Hq, atan_0. lra. }
      lra.
    + apply Rleb_nspec in Eb.
      assert (Hq : 0 < b / a) by (unfold Rdiv; nra).
      apply atan_increasing in Hq. rewrite atan_0 in Hq. lra.
  - destruct (Rltb 0 b); [lra |]. destruct (Rltb b 0); lra.
Qed.

Lemma wrapBelow_done fuel d env k :
  - PI <= d -> wrapBelow fuel d env k = Some (d, k).
Proof.
  intros H. destruct fuel; simpl; rewrite (Rltb_false _ _ H); reflexivity.
Qed.

Lemma wrapAbove_done fuel d env k :
  d <= PI -> wrapAbove fuel d env k = Some (d, k).
Proof.
  intros H. destruct fuel; simpl; unfold Rgtb; rewrite (Rltb_false _ _ H); reflexivity.
Qed.

(** One turn of each loop is enough to bring the difference of two angles of
    [atan2] into [[-PI, PI]]. *)
Lemma wrap_once fuel d env k :
  - (2 * PI) < d < 2 * PI ->
  exists d', (diff <- wrapBelow (S fuel) d ;; wrapAbove (S fuel) diff) env k = Some (d', k)
             /\ - PI <= d' <= PI.
Proof.
  intros Hd. pose proof PI_RGT_0 as Hpi.
  assert (Hb : exists d1, wrapBelow (S fuel) d env k = Some (d1, k)
                          /\ - PI <= d1 < 2 * PI).
  { simpl. destruct (Rltb d (- PI)) eqn:E.
    - apply Rltb_spec in E. exists (d + PI * 2).
      split; [apply wrapBelow_done; lra | lra].
    - apply Rltb_nspec in E. exists d. split; [reflexivity | lra]. }
  destruct Hb as (d1 & H1 & Hd1). rewrite (bind_run _ H1).
  simpl. unfold Rgtb. destruct (Rltb PI d1) eqn:E.
  - apply Rltb_spec in E. exists (d1 - PI * 2).
    split; [apply wrapAbove_done; lra | lra].
  - apply Rltb_nspec in E. exists d1. split; [reflexivity | lra].
Qed.

Lemma wrap_cases fuel d env k :
  - (2 * PI) < d < 2 * PI ->
  exists d', (diff <- wrapBelow (S fuel) d ;; wrapAbove (S fuel) diff) env k = Some (d', k)
             /\ wrappedOnce d d'.
Proof.
  intros Hd. pose proof PI_RGT_0 as Hpi. unfold wrappedOnce.
  destruct (Rltb d (- PI)) eqn:E.
  - pose proof E as E'. apply Rltb_spec in E'. exists (d + PI * 2). split.
    + assert (H1 : wrapBelow (S fuel) d env k = Some (d + PI * 2, k)).
      { simpl. rewrite E. apply wrapBelow_done. lra. }
      rewrite (bind_run _ H1). apply wrapAbove_done. lra.
    + right. left. split; [exact E' | reflexivity].
  - pose proof E as E'. apply Rltb_nspec in E'.
    assert (H1 : wrapBelow (S fuel) d env k = Some (d, k)).
    { simpl. rewrite E. reflexivity. }
    rewrite (bind_run _ H1). simpl. unfold Rgtb.
    destruct (Rltb PI d) eqn:E2.
    + apply Rltb_spec in E2. exists (d - PI * 2).
      split; [apply wrapAbove_done; lra |].
      right. right. split; [exact E2 | reflexivity].
    + apply Rltb_nspec in E2. exists d. split; [reflexivity |].
      left. repeat split; lra.
Qed.

Lemma homing_total fuel s p env k :
  exists p', homing (S fuel) s p env k = Some (p', k).
Proof.
  unfold homing.
  destruct (ProjectileType_eqb (Projectile.type p) PMISSILE); [| eexists; reflexivity].
  destruct (Projectile.targetId p) as [tid |]; [| eexists; reflexivity].
  destruct (find _ (enemies s)) as [target |]; [| eexists; reflexivity].
  match goal with
  | |- context [wrapBelow (S fuel) ?d] =>
      destruct (wrap_once fuel d env k) as (d' & Hw & _)
  end.
  - pose proof (Math_atan2_bound (y (position (Enemy.ent target))
                                  - y (position (Projectile.ent p)))
                                 (x (position (Enemy.ent target))
                                  - x (position (Projectile.ent p)))) as Ha.
    pose proof (Math_atan2_bound (y (velocity (Projectile.ent p)))
                                 (x (velocity (Projectile.ent p)))) as Hc.
    unfold angle. lra.
  - apply bind_inv in Hw. destruct Hw as (d1 & k1 & H1 & H2).
    rewrite (bind_run _ H1). rewrite (bind_run _ H2). eexists. reflexivity.
Qed.

(** X10.  Homing never hangs: one unit of fuel is enough for its two
    angle-wrapping loops.  A projectile that is not a missile, that has no
    target, or whose target is no longer among the enemies is returned as it
    is.  Of a missile with a live target only the velocity changes: it
    becomes [(cos a * 4, sin a * 4)] for the angle [a] that the source
    computes, the current direction plus the difference to the direction of
    the target, wrapped once by [2 PI] and clamped to [[-0.1, 0.1]]. *)
Theorem homing_turn (fuel : nat) (s : GameState) (p : Projectile.t)
    (env : Env) (k : nat) :
  exists p',
    homing (S fuel) s p env k = Some (p', k)
    /\ match homingTarget s p with
       | None => p' = p
       | Some target =>
           let cur := Math_atan2 (y (velocity (Projectile.ent p)))
                                 (x (velocity (Projectile.ent p))) in
           exists d,
             wrappedOnce (angle (position (Projectile.ent p))
                                (position (Enemy.ent target)) - cur) d
             /\ p' = Projectile.set_ent p
                       (set_velocity (Projectile.ent p)
                          (mkVec (cos (cur + Rmax (- (0.1)) (Rmin 0.1 d)) * 4)
                                 (sin (cur + Rmax (- (0.1)) (Rmin 0.1 d)) * 4)))
       end.
Proof.
  unfold homing, homingTarget.
  destruct (ProjectileType_eqb (Projectile.type p) PMISSILE);
    [| exists p; split; reflexivity].
  destruct (Projectile.targetId p) as [tid |];
    [| exists p; split; reflexivity].
  destruct (find _ (enemies s)) as [target |];
    [| exists p; split; reflexivity].
  set (ang := angle (position (Projectile.ent p)) (position (Enemy.ent target))).
  set (cur := Math_atan2 (y (velocity (Projectile.ent p)))
                         (x (velocity (Projectile.ent p)))).
  assert (Hd : - (2 * PI) < ang - cur < 2 * PI).
  { pose proof (Math_atan2_bound (y (position (Enemy.ent target))
                                  - y (position (Projectile.ent p)))
                                 (x (position (Enemy.ent target))
                                  - x (position (Projectile.ent p)))) as Ha.
    pose proof (Math_atan2_bound (y (velocity (Projectile.ent p)))
                                 (x (velocity (Projectile.ent p)))) as Hc.
    unfold ang, angle, cur. lra. }
  destruct (wrap_cases fuel (ang - cur) env k Hd) as (d' & Hw & Hc).
  apply bind_inv in Hw. destruct Hw as (d1 & k1 & H1 & H2).
  rewrite (bind_run _ H1). rewrite (bind_run _ H2).
  eexists. split; [reflexivity |].
  exists d'. split; [exact Hc | reflexivity].
Qed.

Lemma hitAsteroids_total p s env k :
  exists s' b k', hitAsteroids p s env k = Some ((s', b), k').
Proof.
  unfold hitAsteroids.
  destruct (_ && _); [| eexists _, _, _; reflexivity].
  destruct (existsb _ _); [| eexists _, _, _; reflexivity].
  destruct (spawnParticles_shape s (position (Projectile.ent p)) 3 COLORS.asteroid env k)
    as (ps & k1 & H).
  rewrite (bind_run _ H). eexists _, _, _; reflexivity.
Qed.

Lemma hitPlayer_total p s env k :
  exists s' b k', hitPlayer p s env k = Some ((s', b), k').
Proof.
  unfold hitPlayer. destruct (Rltb _ _); [| eexists _, _, _; reflexivity].
  unfold bind, addFloatingText, Math_random, ret. eexists _, _, _; reflexivity.
Qed.

Lemma hitEnemies_total p s env k :
  exists s' b k', hitEnemies p s env k = Some ((s', b), k').
Proof.
  unfold hitEnemies.
  destruct (findIndex _ _) as [i |]; [| eexists _, _, _; reflexivity].
  destruct (nth_error _ _) as [e |]; [| eexists _, _, _; reflexivity].
  match goal with
  | |- context [addFloatingText ?t ?x ?q ?c ?z] =>
      destruct (addFloatingText_shape t x q c z env k) as (ft & H0)
  end.
  rewrite (bind_run _ H0).
  match goal with
  | |- context [spawnParticles ?t ?q ?n ?c] =>
      destruct (spawnParticles_shape t q n c env (S k)) as (ps & k1 & H)
  end.
  rewrite (bind_run _ H). eexists _, _, _; reflexivity.
Qed.

Lemma projectileStep_total fuel i s env k :
  exists s' k', projectileStep (S fuel) i s env k = Some (s', k').
Proof.
  unfold projectileStep.
  destruct (nth_error (projectiles s) i) as [p |]; [| eexists _, _; reflexivity].
  destruct (homing_total fuel s p env k) as (p1 & H1). rewrite (bind_run _ H1).
  match goal with
  | |- context [hitAsteroids ?q ?t] =>
      destruct (hitAsteroids_total q t env k) as (s2 & b2 & k2 & H2)
  end.
  rewrite (bind_run _ H2). cbn [fst snd].
  assert (H3 : exists s3 b3 k3,
             (if negb b2
              then if Projectile.isEnemy (moveProjectile p1)
                   then hitPlayer (moveProjectile p1) s2
                   else hitEnemies (moveProjectile p1) s2
              else ret (s2, b2)) env k2 = Some ((s3, b3), k3)).
  { destruct (negb b2); [| eexists _, _, _; reflexivity].
    destruct (Projectile.isEnemy _);
      [apply hitPlayer_total | apply hitEnemies_total]. }
  destruct H3 as (s3 & b3 & k3 & H3). rewrite (bind_run _ H3). cbn [fst snd].
  destruct (_ || _); eexists _, _; reflexivity.
Qed.

Lemma splice1_list_set {A} (l : list A) i v : splice1 (list_set l i v) i = splice1 l i.
Proof.
  revert i. induction l as [| h t IH]; intros [| i]; simpl; try reflexivity.
  rewrite IH. reflexivity.
Qed.

Lemma projectileStep_spec fuel i s env k s' k' :
  projectileStep fuel i s env k = Some (s', k') ->
  match nth_error (projectiles s) i with
  | Some p =>
      projectiles s' = splice1 (projectiles s) i
      \/ exists pm, projectiles s' = list_set (projectiles s) i pm
                    /\ Projectile.duration pm = Projectile.duration p - 1
                    /\ 0 < Projectile.duration pm
  | None => s' = s
  end.
Proof.
  unfold projectileStep. intros H.
  destruct (nth_error (projectiles s) i) as [p |] eqn:Hp; [| inv_ret H; reflexivity].
  apply bind_inv in H. destruct H as (p1 & k1 & H1 & H).
  apply bind_inv in H. destruct H as ([s2 b2] & k2 & H2 & H).
  apply bind_inv in H. destruct H as ([s3 b3] & k3 & H3 & H).
  cbn [fst snd] in *.
  apply homing_same in H1. destruct H1 as (_ & _ & _ & Hdur & _).
  apply hitAsteroids_frame in H2. cbn in H2. destruct H2 as (_ & Pr2 & _).
  assert (Pr3 : projectiles s3 = projectiles s2).
  { destruct (negb b2).
    - destruct (Projectile.isEnemy _).
      + apply hitPlayer_frame in H3. tauto.
      + apply hitEnemies_frame in H3. tauto.
    - inv_ret H3. reflexivity. }
  destruct (b3 || Rleb _ 0) eqn:E; inv_ret H.
  - left. cbn. rewrite Pr3, Pr2. apply splice1_list_set.
  - right. exists (moveProjectile p1). rewrite Pr3, Pr2.
    split; [reflexivity |]. split; [cbn; rewrite Hdur; reflexivity |].
    apply orb_false_iff in E. destruct E as (_ & E). apply Rleb_nspec in E. exact E.
Qed.

(** X11.  The projectile stage returns as soon as it has one unit of fuel.
    It never adds a projectile, and every projectile it leaves still has a
    positive [duration]: a projectile is removed in the very tick in which
    its life runs out. *)
Theorem updateProjectiles_expiry (fuel : nat) (s : GameState) (env : Env) (k : nat) :
  exists s' k',
    updateProjectiles (S fuel) s env k = Some (s', k')
    /\ Forall (fun p => 0 < Projectile.duration p) (projectiles s')
    /\ (List.length (projectiles s') <= List.length (projectiles s))%nat.
Proof.
  unfold updateProjectiles.
  destruct (forDown_total (projectileStep (S fuel)) env
              (fun i t kk => projectileStep_total fuel i t env kk)
              (List.length (projectiles s)) s k) as (s' & k' & H).
  exists s', k'. split; [exact H |].
  apply (forDown_inv_idx
           (fun i t => fromIndex (fun p => 0 < Projectile.duration p) i (projectiles t)
                       /\ (List.length (projectiles t)
                           <= List.length (projectiles s))%nat)) in H.
  - destruct H as (HF & Hl). split; [apply fromIndex_0; exact HF | exact Hl].
  - intros i t kk t' kk' (HF & Hl) Hb. apply projectileStep_spec in Hb.
    destruct (nth_error (projectiles t) i) as [p |] eqn:Hp.
    + destruct Hb as [E | (pm & E & _ & Hpos)]; rewrite E.
      * split; [apply fromIndex_splice1; exact HF |].
        pose proof (length_splice1_le (projectiles t) i). lia.
      * split; [apply fromIndex_set; assumption |].
        rewrite length_list_set. exact Hl.
    + subst t'. split; [apply fromIndex_skip; assumption | exact Hl].
  - split; [apply fromIndex_length | lia].
Qed.

(* ------------------------------------------------------------------ *)
(** * 3. Enemies *)

Lemma bossLogic_spec e s env k :
  exists s' e' k' sp,
    bossLogic e s env k = Some ((s', e'), k')
    /\ s' = set_enemies s (enemies s ++ sp)
    /\ Forall freshSwarm sp
    /\ vitals e' = vitals e
    /\ Enemy.ent e' = Enemy.ent e.
Proof.
  unfold bossLogic, vitals.
  destruct (EnemyType_eqb (Enemy.type e) BOSS).
  - cbn [Enemy.attackCooldown Enemy.set_attackCooldown].
    destruct (Rleb _ 0).
    + unfold forUp, bind, Math_random, spawnEnemy, ret, Date_now. cbn.
      eexists _, _, _, [_; _; _]. split; [reflexivity |].
      split; [rewrite <- !app_assoc; reflexivity |].
      split; [repeat constructor | auto].
    + exists s, (Enemy.set_attackCooldown e (Enemy.attackCooldown e - 1)), k, [].
      rewrite app_nil_r. destruct s; cbn; auto.
  - exists s, e, k, []. rewrite app_nil_r. destruct s; cbn; auto.
Qed.

Lemma shootOrMove_spec e s env k :
  exists s' e' k',
    shootOrMove e s env k = Some ((s', e'), k')
    /\ enemies s' = enemies s /\ player s' = player s
    /\ vitals e' = vitals e.
Proof.
  unfold shootOrMove, vitals.
  destruct (_ && _).
  - cbn [Enemy.attackCooldown Enemy.set_attackCooldown].
    destruct (Rleb _ 0).
    + unfold bind, Math_random, ret. eexists _, _, _.
      split; [reflexivity |]. cbn. auto.
    + eexists _, _, _. split; [reflexivity |]. cbn. auto.
  - eexists _, _, _. split; [reflexivity |]. cbn.
    unfold moveEnemy. cbn. auto.
Qed.

Lemma contactDamage_spec e s :
  enemies (contactDamage e s) = enemies s
  /\ Player.hp (player s) - 0.5 <= Player.hp (player (contactDamage e s))
     <= Player.hp (player s).
Proof. unfold contactDamage. destruct (Rltb _ _); cbn; split; auto; lra. Qed.

Lemma map_list_set {A B} (f : A -> B) l i a v :
  nth_error l i = Some a -> f v = f a -> map f (list_set l i v) = map f l.
Proof.
  revert i. induction l as [| h t IH]; intros [| i]; simpl; intros Hn Hf;
    try discriminate.
  - inversion Hn; subst. rewrite Hf. reflexivity.
  - rewrite (IH i Hn Hf). reflexivity.
Qed.

Lemma list_set_app1 {A} (l1 l2 : list A) i v :
  (i < List.length l1)%nat -> list_set (l1 ++ l2) i v = list_set l1 i v ++ l2.
Proof.
  revert i. induction l1 as [| h t IH]; intros [| i] H; simpl in *; try lia.
  - reflexivity.
  - rewrite IH by lia. reflexivity.
Qed.

Lemma enemyStep_kept s i t env k :
  (i < List.length (enemies s))%nat ->
  enemiesKept s i t ->
  exists t' k', enemyStep i t env k = Some (t', k') /\ enemiesKept s (S i) t'.
Proof.
  intros Hi (Hhp & kept & sp & Een & Hv & Hsp).
  assert (Hlen : List.length kept = List.length (enemies s)).
  { rewrite <- (length_map vitals kept), Hv, length_map. reflexivity. }
  unfold enemyStep.
  destruct (nth_error (enemies t) i) as [e |] eqn:He.
  2:{ apply nth_error_None in He. rewrite Een, length_app in He. lia. }
  destruct (bossLogic_spec e t env k) as (s1 & e1 & k1 & sp1 & H1 & -> & Hsp1 & Hv1 & _).
  rewrite (bind_run _ H1). cbn [fst snd].
  destruct (shootOrMove_spec e1 (set_enemies t (enemies t ++ sp1)) env k1)
    as (s2 & e2 & k2 & H2 & Een2 & Hp2 & Hv2).
  rewrite (bind_run _ H2). cbn [fst snd].
  eexists _, _. split; [reflexivity |].
  destruct (contactDamage_spec e2 (setEnemy s2 i e2)) as (Ec & Hc).
  unfold enemiesKept. rewrite Ec. split.
  - cbn [setEnemy player set_enemies] in Hc.
    rewrite Hp2 in Hc. cbn [player set_enemies] in Hc.
    rewrite S_INR. lra.
  - exists (list_set kept i e2), (sp ++ sp1). split; [| split].
    + unfold setEnemy. cbn [enemies set_enemies]. rewrite Een2. cbn [enemies set_enemies].
      rewrite Een, <- app_assoc. apply list_set_app1. lia.
    + rewrite <- Hv. rewrite Een in He. rewrite nth_error_app1 in He by lia.
      eapply map_list_set; [exact He | congruence].
    + apply Forall_app. split; assumption.
Qed.

Lemma enemies_loop s env :
  forall n i t k,
    (i + n <= List.length (enemies s))%nat ->
    enemiesKept s i t ->
    exists t' k', forUp n i enemyStep t env k = Some (t', k')
                  /\ enemiesKept s (i + n) t'.
Proof.
  induction n as [| n IH]; intros i t k Hn Hk; simpl.
  - rewrite Nat.add_0_r. eexists _, _. split; [reflexivity | exact Hk].
  - destruct (enemyStep_kept s i t env k) as (t1 & k1 & H1 & Hk1); [lia | exact Hk |].
    destruct (IH (S i) t1 k1) as (t2 & k2 & H2 & Hk2); [lia | exact Hk1 |].
    rewrite (bind_run _ H1). replace (i + S n)%nat with (S i + n)%nat by lia.
    eauto.
Qed.

(** X12.  The enemy stage always returns.  It removes no enemy and changes
    no enemy's type, [hp] or [maxHp]; what it appends are swarm enemies of
    full health, spawned by bosses and not moved in this tick.  The player
    loses at most 0.5 [hp] per enemy that was there, and gains none. *)
Theorem updateEnemies_keeps (s : GameState) (env : Env) (k : nat) :
  exists s' k' kept sp,
    updateEnemies s env k = Some (s', k')
    /\ enemies s' = kept ++ sp
    /\ map vitals kept = map vitals (enemies s)
    /\ Forall freshSwarm sp
    /\ Player.hp (player s) - 0.5 * INR (List.length (enemies s))
       <= Player.hp (player s') <= Player.hp (player s).
Proof.
  unfold updateEnemies.
  destruct (enemies_loop s env (List.length (enemies s)) 0 s k)
    as (s' & k' & H & Hhp & kept & sp & E & Hv & Hsp).
  - lia.
  - split; [cbn; lra |]. exists (enemies s), []. rewrite app_nil_r. auto.
  - exists s', k', kept, sp. cbn in Hhp. auto 6.
Qed.

(* ------------------------------------------------------------------ *)
(** * 5. Shockwaves *)

Lemma empStep_total wave j s env k :
  exists s' k', empStep wave j s env k = Some (s', k').
Proof.
  unfold empStep. destruct (nth_error _ _) as [e |]; [| eexists _, _; reflexivity].
  destruct (inRing wave e); [| eexists _, _; reflexivity].
  unfold addFloatingText, bind, Math_random, ret. eexists _, _; reflexivity.
Qed.

Lemma shockwaveStep_total i s env k :
  exists s' k', shockwaveStep i s env k = Some (s', k').
Proof.
  unfold shockwaveStep.
  destruct (nth_error (shockwaves s) i) as [w |]; [| eexists _, _; reflexivity].
  match goal with
  | |- context [forUp ?n 0 ?b ?t] =>
      destruct (forUp_total b env (fun j u kk => empStep_total _ j u env kk) n 0%nat t k)
        as (s1 & k1 & H1)
  end.
  rewrite (bind_run _ H1).
  destruct (Rgtb _ _); [destruct (Rgeb _ _) |]; eexists _, _; reflexivity.
Qed.

Lemma shockwaveStep_spec i s env k s' k' :
  shockwaveStep i s env k = Some (s', k') ->
  match nth_error (shockwaves s) i with
  | Some w =>
      player s' = player s /\ projectiles s' = projectiles s
      /\ if Rgtb (Shockwave.radius w + Shockwave.speed w) (Shockwave.maxRadius w)
         then shockwaves s' = splice1 (shockwaves s) i
              /\ phase s' = (if Rgeb (Player.crystals (player s)) TARGET_CRYSTALS
                             then VICTORY else phase s)
         else shockwaves s'
              = list_set (shockwaves s) i
                  (Shockwave.set_radius w (Shockwave.radius w + Shockwave.speed w))
              /\ phase s' = phase s
  | None => s' = s
  end.
Proof.
  unfold shockwaveStep. intros H.
  destruct (nth_error (shockwaves s) i) as [w |]; [| inv_ret H; reflexivity].
  apply bind_inv in H. destruct H as (s1 & k1 & H1 & H).
  apply empLoop_same in H1. cbn in H1. destruct H1 as (P & Pr & Ph & Sw).
  cbn [Shockwave.radius Shockwave.set_radius Shockwave.maxRadius] in H.
  destruct (Rgtb _ _).
  - cbn [player set_shockwaves] in H. rewrite P in H. cbn [player set_shockwaves] in H.
    destruct (Rgeb _ _); inv_ret H; cbn; rewrite Sw;
      rewrite splice1_list_set; auto.
  - inv_ret H. auto.
Qed.

Lemma shockwaveStep_swept s i t env k t' k' :
  wavesSwept s (S i) t ->
  shockwaveStep i t env k = Some (t', k') ->
  wavesSwept s i t'.
Proof.
  intros (HF & Hp & Hpr & Hl & Hph) Hb. apply shockwaveStep_spec in Hb.
  unfold wavesSwept.
  destruct (nth_error (shockwaves t) i) as [w |] eqn:Hw.
  - destruct Hb as (Hp' & Hpr' & Hb).
    assert (Hi : (i < List.length (shockwaves t))%nat)
      by (apply nth_error_Some; congruence).
    destruct (Rgtb _ _) eqn:Eg.
    + destruct Hb as (Esw & Eph). rewrite Esw.
      pose proof (length_splice1 (shockwaves t) i Hi) as Hls.
      split; [apply fromIndex_splice1; exact HF |].
      split; [congruence |]. split; [congruence |]. split; [lia |].
      rewrite Hp in Eph.
      destruct (Rgeb (Player.crystals (player s)) TARGET_CRYSTALS) eqn:Ec;
        rewrite Eph.
      * right. apply Rleb_spec in Ec. repeat split; [exact Ec | lia].
      * destruct Hph as [Hph | (Hph & Hc & Hlt)]; [left; exact Hph |].
        right. repeat split; [exact Hph | exact Hc | lia].
    + destruct Hb as (Esw & Eph). rewrite Esw, length_list_set.
      apply Rltb_nspec in Eg.
      split; [apply fromIndex_set; [exact HF | cbn; exact Eg] |].
      split; [congruence |]. split; [congruence |]. split; [exact Hl |].
      rewrite Eph. exact Hph.
  - subst t'. split; [apply fromIndex_skip; assumption | auto].
Qed.

(** X13.  The shockwave stage always returns.  Every wave it leaves has a
    radius within its [maxRadius]; it removes waves but adds none, and
    does not touch the player or the projectiles.  The phase changes only
    to [VICTORY], and only when a wave was removed while the player held at
    least [TARGET_CRYSTALS] crystals. *)
Theorem updateShockwaves_victory (s : GameState) (env : Env) (k : nat) :
  exists s' k',
    updateShockwaves s env k = Some (s', k')
    /\ Forall (fun w => Shockwave.radius w <= Shockwave.maxRadius w) (shockwaves s')
    /\ player s' = player s
    /\ projectiles s' = projectiles s
    /\ (List.length (shockwaves s') <= List.length (shockwaves s))%nat
    /\ (phase s' = phase s
        \/ (phase s' = VICTORY
            /\ TARGET_CRYSTALS <= Player.crystals (player s)
            /\ (List.length (shockwaves s') < List.length (shockwaves s))%nat)).
Proof.
  unfold updateShockwaves.
  destruct (forDown_total shockwaveStep env
              (fun i t kk => shockwaveStep_total i t env kk)
              (List.length (shockwaves s)) s k) as (s' & k' & H).
  exists s', k'. split; [exact H |].
  apply (forDown_inv_idx (wavesSwept s)) in H.
  - destruct H as (HF & H). split; [apply fromIndex_0; exact HF | exact H].
  - intros i t kk t' kk' Ht Hb. eapply shockwaveStep_swept; eassumption.
  - split; [apply fromIndex_length | auto].
Qed.

(* ------------------------------------------------------------------ *)
(** * 7. XP orbs *)

Lemma floor_double m : 1 <= m -> m <= Math_floor (m * PLAYER_CONFIG.xpGrowth).
Proof.
  intros Hm. unfold Math_floor, PLAYER_CONFIG.xpGrowth.
  pose proof (Zfloor_bound (m * 2)). lra.
Qed.

(** X14.  The level-up loop stops: when the threshold [maxXp] is at least 1
    (it starts at 100 and only grows), any amount of fuel above the
    player's [xp] is enough.  The loop never lowers the level, the
    threshold or [maxHp], and leaves the weapons alone. *)
Theorem levelUpLoop_terminates (fuel : nat) (s : GameState) (env : Env) (k : nat) :
  1 <= Player.maxXp (player s) ->
  Player.xp (player s) < INR fuel ->
  exists s',
    levelUpLoop fuel s env k = Some (s', k)
    /\ Player.level (player s) <= Player.level (player s')
    /\ Player.maxXp (player s) <= Player.maxXp (player s')
    /\ Player.maxHp (player s) <= Player.maxHp (player s')
    /\ Player.weapons (player s') = Player.weapons (player s).
Proof.
  revert s. induction fuel as [| fuel IH]; intros s Hm Hx.
  - simpl in *. unfold Rgeb. rewrite Rleb_false by lra.
    exists s. repeat split; try reflexivity; lra.
  - simpl levelUpLoop. destruct (Rgeb _ _) eqn:E.
    + apply Rleb_spec in E. rewrite S_INR in Hx.
      pose proof (floor_double _ Hm) as Hf.
      destruct (IH (levelUpBody s)) as (s' & H & Hl & Hmx & Hhp & Hw).
      * cbn. lra.
      * cbn. lra.
      * exists s'. split; [exact H |]. cbn in *.
        unfold PLAYER_CONFIG.hpGrowth in *. repeat split; try lra. exact Hw.
    + exists s. repeat split; try reflexivity; lra.
Qed.

Lemma levelUpLoop_step fuel s env k :
  Player.maxXp (player s) <= Player.xp (player s) ->
  levelUpLoop (S fuel) s env k = levelUpLoop fuel (levelUpBody s) env k.
Proof.
  intros H. cbn [levelUpLoop]. unfold Rgeb. rewrite (Rleb_true _ _ H). reflexivity.
Qed.

Lemma levelUpLoop_stop fuel s env k :
  Player.xp (player s) < Player.maxXp (player s) ->
  levelUpLoop fuel s env k = Some (s, k).
Proof.
  intros H. destruct fuel; cbn [levelUpLoop]; unfold Rgeb;
    rewrite (Rleb_false _ _ H); reflexivity.
Qed.

Lemma Math_floor_int (z : Z) (v : R) : v = IZR z -> Math_floor v = v.
Proof. intros ->. unfold Math_floor. rewrite ZfloorZ. reflexivity. Qed.

(** With 350 XP the loop runs twice: 350 against the threshold 100, 250
    against 200, and stops at 50 against 400. *)
Lemma richState_loop fuel env k :
  levelUpLoop (S (S fuel)) richState env k
  = Some (levelUpBody (levelUpBody richState), k).
Proof.
  assert (F1 : Math_floor (PLAYER_CONFIG.baseXp * PLAYER_CONFIG.xpGrowth) = 200).
  { unfold PLAYER_CONFIG.baseXp, PLAYER_CONFIG.xpGrowth.
    rewrite (Math_floor_int 200); lra. }
  assert (F2 : Math_floor (200 * PLAYER_CONFIG.xpGrowth) = 400).
  { unfold PLAYER_CONFIG.xpGrowth. rewrite (Math_floor_int 400); lra. }
  rewrite levelUpLoop_step by (cbn; unfold PLAYER_CONFIG.baseXp; lra).
  rewrite levelUpLoop_step by (cbn; rewrite F1; unfold PLAYER_CONFIG.baseXp; lra).
  apply levelUpLoop_stop. cbn. rewrite F1, F2. unfold PLAYER_CONFIG.baseXp. lra.
Qed.

(** On the player with 350 XP the body of the loop runs twice, and the
    level goes from 1 to 3. *)
Lemma levelUpLoop_terminates_witness :
  exists s',
    levelUpLoop 351 richState env0 0%nat = Some (s', 0%nat)
    /\ Player.level (player richState) <= Player.level (player s')
    /\ Player.level (player s') = 1 + 1 + 1
    /\ levelUpQueued s' = true.
Proof.
  destruct (levelUpLoop_terminates 351 richState env0 0%nat)
    as (s' & H & Hl & _).
  - cbn. unfold PLAYER_CONFIG.baseXp. lra.
  - change (Player.xp (player richState)) with 350.
    replace 350 with (INR 350) by (rewrite INR_IZR_INZ; reflexivity).
    apply lt_INR. lia.
  - exists s'. split; [exact H |]. split; [exact Hl |].
    change 351%nat with (S (S 349)) in H. rewrite richState_loop in H.
    inversion H. split; reflexivity.
Defined.

(** The indices listed by [distantIndices] are those of distant orbs. *)
Lemma distantIndices_spec pp l base i :
  In i (distantIndices pp l base) ->
  exists o, nth_error l (i - base) = Some o /\ isDistant pp o = true
            /\ (base <= i)%nat.
Proof.
  revert base. induction l as [| o rest IH]; simpl; intros base H; [contradiction |].
  destruct (isDistant pp o) eqn:E.
  - destruct H as [<- | H].
    + exists o. rewrite Nat.sub_diag. auto.
    + apply IH in H. destruct H as (o' & Hn & Hd & Hb).
      exists o'. replace (i - base)%nat with (S (i - S base))%nat by lia.
      simpl. repeat split; auto. lia.
  - apply IH in H. destruct H as (o' & Hn & Hd & Hb).
    exists o'. replace (i - base)%nat with (S (i - S base))%nat by lia.
    simpl. repeat split; auto. lia.
Qed.

Lemma random_index r n :
  0 <= r < 1 -> (0 < n)%nat ->
  (0 <= Zfloor (r * INR n))%Z /\ (Z.to_nat (Zfloor (r * INR n)) < n)%nat.
Proof.
  intros Hr Hn.
  assert (Hpos : 0 < INR n) by (apply lt_0_INR; exact Hn).
  assert (H0 : (0 <= Zfloor (r * INR n))%Z) by (apply Zfloor_lub; simpl; nra).
  split; [exact H0 |].
  assert (H1 : (Zfloor (r * INR n) < Z.of_nat n)%Z).
  { apply lt_IZR. rewrite <- INR_IZR_INZ.
    pose proof (Zfloor_bound (r * INR n)). nra. }
  lia.
Qed.

Lemma Forall2_same {A} (P : A -> A -> Prop) l :
  (forall a, P a a) -> Forall2 P l l.
Proof. intros H. induction l; constructor; auto. Qed.

Lemma Forall2_list_set {A} (P : A -> A -> Prop) l i a v :
  (forall b, P b b) -> nth_error l i = Some a -> P a v ->
  Forall2 P l (list_set l i v).
Proof.
  intros Hrefl. revert i. induction l as [| h t IH]; intros [| i]; simpl;
    intros Hn Hv; try discriminate.
  - inversion Hn; subst. constructor; [exact Hv | apply Forall2_same; exact Hrefl].
  - constructor; [apply Hrefl | apply IH; assumption].
Qed.

(** X15.  With a draw in [[0, 1)] the magnet timer step always returns: the
    random pick among the distant orbs is always inside the array.  Every
    61st call resets the timer and magnetizes at most one orb, which was
    unmagnetized and farther than 200 from the player; no orb is added,
    removed or moved, and the player is untouched. *)
Theorem magnetTick_pick (s : GameState) (env : Env) (k : nat) :
  0 <= rnd env k < 1 ->
  exists s' k',
    magnetTick s env k = Some (s', k')
    /\ Forall2 (fun o o' =>
                  o' = o
                  \/ (o' = magnetize o
                      /\ isDistant (position (Player.ent (player s))) o = true))
               (xpOrbs s) (xpOrbs s')
    /\ player s' = player s
    /\ magnetTimer s' = (if Rgtb (magnetTimer s + 1) 60 then 0 else magnetTimer s + 1).
Proof.
  intros Hr. unfold magnetTick. cbn [magnetTimer set_magnetTimer].
  destruct (Rgtb (magnetTimer s + 1) 60).
  2:{ eexists _, _. split; [reflexivity |]. cbn.
      repeat split. apply Forall2_same. auto. }
  cbn [player xpOrbs set_magnetTimer].
  set (pp := position (Player.ent (player s))).
  destruct (Nat.ltb 0 (List.length (distantIndices pp (xpOrbs s) 0))) eqn:En.
  2:{ eexists _, _. split; [reflexivity |]. cbn.
      repeat split. apply Forall2_same. auto. }
  apply Nat.ltb_lt in En.
  unfold bind at 1. unfold Math_random at 1.
  destruct (random_index _ _ Hr En) as (H0 & H1).
  apply Z.leb_le in H0. rewrite H0.
  destruct (nth_error (distantIndices pp (xpOrbs s) 0) _) as [i |] eqn:Ei.
  2:{ apply nth_error_None in Ei. lia. }
  apply nth_error_In in Ei. apply distantIndices_spec in Ei.
  destruct Ei as (o & Ho & Hd & _). rewrite Nat.sub_0_r in Ho.
  eexists _, _. split; [reflexivity |].
  unfold magnetizeAt. cbn [xpOrbs set_magnetTimer]. rewrite Ho. cbn.
  repeat split.
  eapply Forall2_list_set; [auto | exact Ho | right; auto].
Qed.

Lemma magnetDue_distant :
  isDistant (position (Player.ent (player magnetDue))) distantOrb = true.
Proof.
  unfold isDistant, Rgtb. cbn [XpOrb.isMagnetized distantOrb negb andb].
  apply Rltb_true.
  rewrite (dist_exact _ _ 600); cbn; unfold SCREEN_WIDTH, SCREEN_HEIGHT; lra.
Qed.

(** With the timer at 60 and one distant orb the tick reaches the pick: the
    draw 0 selects the orb, which is magnetized, and the timer restarts. *)
Lemma magnetTick_pick_witness :
  exists s' k',
    magnetTick magnetDue env0 0%nat = Some (s', k')
    /\ xpOrbs s' = [magnetize distantOrb]
    /\ magnetTimer s' = 0.
Proof.
  destruct (magnetTick_pick magnetDue env0 0%nat) as (s' & k' & H & HF & _ & Ht).
  - cbn. lra.
  - exists s', k'. split; [exact H |]. split.
    + pose proof magnetDue_distant as Hd.
      unfold magnetTick in H. cbn [magnetTimer set_magnetTimer magnetDue] in H.
      unfold Rgtb in H. rewrite (Rltb_true 60 (60 + 1)) in H by lra.
      cbn [player xpOrbs set_magnetTimer set_xpOrbs] in H.
      change (xpOrbs magnetDue) with [distantOrb] in H.
      cbn [distantIndices] in H. rewrite Hd in H. cbn [List.length Nat.ltb Nat.leb] in H.
      unfold bind, Math_random in H. cbn [rnd env0 INR] in H.
      replace (0 * 1) with 0 in H by ring. rewrite (ZfloorZ 0) in H.
      cbn in H. inversion H. reflexivity.
    + rewrite Ht. unfold Rgtb. rewrite Rltb_true; [reflexivity |]. cbn. lra.
Defined.

(* ------------------------------------------------------------------ *)
(** * 8. Particles and floating texts *)

Lemma list_set_middle {A} (l1 : list A) a l2 v :
  list_set (l1 ++ a :: l2) (List.length l1) v = l1 ++ v :: l2.
Proof. induction l1 as [| h t IH]; simpl; [reflexivity | rewrite IH; reflexivity]. Qed.

Lemma splice1_middle {A} (l1 : list A) a l2 :
  splice1 (l1 ++ a :: l2) (List.length l1) = l1 ++ l2.
Proof. induction l1 as [| h t IH]; simpl; [reflexivity | rewrite IH; reflexivity]. Qed.

Lemma nth_error_middle {A} (l1 : list A) a l2 :
  nth_error (l1 ++ a :: l2) (List.length l1) = Some a.
Proof. induction l1 as [| h t IH]; simpl; [reflexivity | exact IH]. Qed.

Lemma particlesLoop_steps mid :
  Forall (fun p => 1 < Particle.life p) mid ->
  forall done rest n,
    particlesLoop (List.length mid + n) (List.length done) (done ++ mid ++ rest)
    = particlesLoop n (List.length done + List.length mid)
        (done ++ map particleMove mid ++ rest).
Proof.
  induction 1 as [| p mid Hp Hmid IH]; intros done rest n;
    cbn [List.length Nat.add app map particlesLoop].
  - rewrite Nat.add_0_r. reflexivity.
  - rewrite nth_error_middle.
    assert (E : Rleb (Particle.life (particleMove p)) 0 = false)
      by (apply Rleb_false; cbn; lra).
    rewrite E, list_set_middle.
    specialize (IH (done ++ [particleMove p]) rest n).
    rewrite length_app in IH. simpl in IH.
    rewrite <- !app_assoc in IH. simpl in IH.
    replace (List.length done + S (List.length mid))%nat
      with (List.length done + 1 + List.length mid)%nat by lia.
    replace (S (List.length done)) with (List.length done + 1)%nat by lia.
    exact IH.
Qed.

Lemma particlesLoop_below n :
  forall i l j, (j < i)%nat -> nth_error (particlesLoop n i l) j = nth_error l j.
Proof.
  induction n as [| n IH]; intros i l j Hj; cbn [particlesLoop]; [reflexivity |].
  destruct (nth_error l i) as [p |]; [| reflexivity].
  rewrite IH by lia.
  destruct (Rleb _ 0).
  - rewrite nth_error_splice1_lt by exact Hj.
    rewrite nth_error_list_set. replace (Nat.eqb i j) with false; [reflexivity |].
    symmetry. apply Nat.eqb_neq. lia.
  - rewrite nth_error_list_set. replace (Nat.eqb i j) with false; [reflexivity |].
    symmetry. apply Nat.eqb_neq. lia.
Qed.

Lemma textsLoop_steps mid :
  Forall (fun t => 1 < FloatingText.life t) mid ->
  forall done rest n,
    textsLoop (List.length mid + n) (List.length done) (done ++ mid ++ rest)
    = textsLoop n (List.length done + List.length mid)
        (done ++ map textMove mid ++ rest).
Proof.
  induction 1 as [| p mid Hp Hmid IH]; intros done rest n;
    cbn [List.length Nat.add app map textsLoop].
  - rewrite Nat.add_0_r. reflexivity.
  - rewrite nth_error_middle.
    assert (E : Rleb (FloatingText.life (textMove p)) 0 = false)
      by (apply Rleb_false; cbn; lra).
    rewrite E, list_set_middle.
    specialize (IH (done ++ [textMove p]) rest n).
    rewrite length_app in IH. simpl in IH.
    rewrite <- !app_assoc in IH. simpl in IH.
    replace (List.length done + S (List.length mid))%nat
      with (List.length done + 1 + List.length mid)%nat by lia.
    replace (S (List.length done)) with (List.length done + 1)%nat by lia.
    exact IH.
Qed.

(** X16.  While no particle and no floating text is in its last tick, the
    eighth stage moves and ages every one of them, and removes none. *)
Theorem updateParticlesAndText_moves_all (s : GameState) :
  Forall (fun p => 1 < Particle.life p) (particles s) ->
  Forall (fun t => 1 < FloatingText.life t) (floatingTexts s) ->
  updateParticlesAndText s
  = set_floatingTexts (set_particles s (map particleMove (particles s)))
                      (map textMove (floatingTexts s)).
Proof.
  intros Hp Ht. unfold updateParticlesAndText.
  pose proof (particlesLoop_steps (particles s) Hp [] [] 0) as E1.
  pose proof (textsLoop_steps (floatingTexts s) Ht [] [] 0) as E2.
  simpl in E1, E2. rewrite !app_nil_r, !Nat.add_0_r in *.
  rewrite E1. cbn [floatingTexts set_particles]. rewrite E2. reflexivity.
Qed.

(** Two particles with 40 and 2 ticks to live and a text with 30: all
    three are moved and aged, none is removed. *)
Lemma updateParticlesAndText_moves_all_witness :
  updateParticlesAndText sparkling
  = set_floatingTexts
      (set_particles sparkling
         [particleMove (spark 0 40); particleMove (spark 1 2)])
      [textMove note].
Proof.
  apply (updateParticlesAndText_moves_all sparkling).
  - repeat apply Forall_cons; try apply Forall_nil; cbn; lra.
  - repeat apply Forall_cons; try apply Forall_nil; cbn; lra.
Defined.

(** X17.  The particle loop is a [forEach] that [splice]s the array it
    walks.  When a particle expires, the particle behind it takes its index
    and is skipped: it ends the tick exactly as it began it, neither moved
    nor aged, even if its own life had run out. *)
Theorem particlesLoop_skips_next (pre : list Particle.t) (p q : Particle.t)
    (post : list Particle.t) :
  Forall (fun p => 1 < Particle.life p) pre ->
  Particle.life p <= 1 ->
  nth_error (particlesLoop (List.length (pre ++ p :: q :: post)) 0
                           (pre ++ p :: q :: post))
            (List.length pre)
  = Some q.
Proof.
  intros Hpre Hp.
  pose proof (particlesLoop_steps pre Hpre [] (p :: q :: post)
                (S (S (List.length post)))) as E.
  cbn [List.length Nat.add app] in E. rewrite length_app.
  cbn [List.length]. rewrite E. clear E.
  generalize (S (List.length post)) as m. intros m.
  cbn [particlesLoop].
  rewrite <- (length_map particleMove pre).
  rewrite nth_error_middle.
  assert (Hx : Rleb (Particle.life (particleMove p)) 0 = true)
    by (apply Rleb_true; cbn; lra).
  rewrite Hx, list_set_middle, splice1_middle.
  rewrite particlesLoop_below by lia.
  apply nth_error_middle.
Qed.

Lemma particlesLoop_skips_next_witness :
  nth_error
    (particlesLoop 2 0
       [Particle.mk (mkEntity (IdRand "p" 0) (mkVec 0 0) (mkVec 1 1) 1 "#fff" 0) 1 60 1;
        Particle.mk (mkEntity (IdRand "p" 1) (mkVec 5 5) (mkVec 1 1) 1 "#fff" 0) 0 60 0])
    0
  = Some (Particle.mk (mkEntity (IdRand "p" 1) (mkVec 5 5) (mkVec 1 1) 1 "#fff" 0) 0 60 0).
Proof.
  apply (particlesLoop_skips_next []
           (Particle.mk (mkEntity (IdRand "p" 0) (mkVec 0 0) (mkVec 1 1) 1 "#fff" 0) 1 60 1)
           (Particle.mk (mkEntity (IdRand "p" 1) (mkVec 5 5) (mkVec 1 1) 1 "#fff" 0) 0 60 0)
           []).
  - constructor.
  - cbn. lra.
Defined.

(* ------------------------------------------------------------------ *)
(** * What the stages 2 to 7 leave alone *)

Lemma sameArsenal_refl w : sameArsenal w w.
Proof. intros k. auto. Qed.

Lemma sameArsenal_trans w1 w2 w3 :
  sameArsenal w1 w2 -> sameArsenal w2 w3 -> sameArsenal w1 w3.
Proof.
  intros H1 H2 k. destruct (H1 k) as (? & ? & ? & ?), (H2 k) as (? & ? & ? & ?).
  repeat split; congruence.
Qed.

Lemma sameArsenal_cooldown w k c :
  sameArsenal w (setWeapon w k (Weapon.set_cooldown (getWeapon w k) c)).
Proof. intros k'. destruct k, k'; cbn; auto. Qed.

Lemma steady_refl s : steady s s.
Proof.
  unfold steady. do 8 (split; [reflexivity |]).
  split; [apply sameArsenal_refl |]. split; [left; reflexivity | tauto].
Qed.

Lemma steady_trans s1 s2 s3 : steady s1 s2 -> steady s2 s3 -> steady s1 s3.
Proof.
  unfold steady.
  intros (A1 & B1 & C1 & D1 & E1 & F1 & G1 & H1 & W1 & P1 & S1)
         (A2 & B2 & C2 & D2 & E2 & F2 & G2 & H2 & W2 & P2 & S2).
  split; [congruence |]. split; [congruence |]. split; [congruence |].
  split; [congruence |]. split; [congruence |]. split; [congruence |].
  split; [congruence |]. split; [congruence |].
  split; [eapply sameArsenal_trans; eassumption |].
  split; [| tauto].
  destruct P2 as [P2 | (P2 & Hc)].
  - destruct P1 as [P1 | (P1 & Hc)]; [left; congruence |].
    right. split; [congruence | exact Hc].
  - right. split; [exact P2 | rewrite <- H1; exact Hc].
Qed.

(** A step that keeps the phase and the listed fields, and sets the camera
    shake, if at all, to a value within bounds. *)
Ltac steady_tac :=
  unfold steady; cbn;
  do 8 (split; [reflexivity |]);
  split; [first [apply sameArsenal_refl | apply sameArsenal_cooldown
                | let kk := fresh "kk" in
                  intros kk; destruct kk; cbn; repeat split; reflexivity] |];
  split; [left; reflexivity | intros; lra].

Lemma spawnParticles_steady s pos n c env k s' k' :
  spawnParticles s pos n c env k = Some (s', k') -> steady s s'.
Proof. intros H. shapes. steady_tac. Qed.

Lemma addFloatingText_steady s t pos c z env k s' k' :
  addFloatingText s t pos c z env k = Some (s', k') -> steady s s'.
Proof. intros H. shapes. steady_tac. Qed.

(** ** 2. Auto fire *)

Lemma aimPlayer_steady tg s : steady s (aimPlayer tg s).
Proof.
  unfold aimPlayer, setPlayerRotation.
  destruct (enemyAt s (nearestVisible tg)) as [[i e] |]; [steady_tac |].
  destruct (enemyAt s (nearestAny tg)) as [[i e] |]; [| apply steady_refl].
  destruct (Rgtb _ 0); [steady_tac | apply steady_refl].
Qed.

Lemma fireWeapon_steady tg w s env k s' k' :
  fireWeapon tg w s env k = Some (s', k') -> steady s s'.
Proof.
  unfold fireWeapon, setCooldown, pushProjectile, setEnemy. intros H.
  destruct (enemyAt s _) as [[ti target] |]; [| inv_ret H; steady_tac].
  destruct (_ && _); [| inv_ret H; steady_tac].
  destruct (Rleb _ (Weapon.range _)); [| inv_ret H; apply steady_refl].
  destruct w; msolve; steady_tac.
Qed.

Lemma autoFire_steady s env k s' k' :
  autoFire s env k = Some (s', k') -> steady s s'.
Proof.
  unfold autoFire. intros H.
  apply bind_inv in H. destruct H as (s1 & k1 & H1 & H).
  apply bind_inv in H. destruct H as (s2 & k2 & H2 & H).
  apply fireWeapon_steady in H1, H2, H.
  eapply steady_trans; [apply aimPlayer_steady |].
  eapply steady_trans; [exact H1 |]. eapply steady_trans; eassumption.
Qed.

(** ** 3. Enemies *)

Lemma bossLogic_steady e s env k s' e' k' :
  bossLogic e s env k = Some ((s', e'), k') -> steady s s'.
Proof.
  intros H. destruct (bossLogic_spec e s env k) as (s1 & e1 & k1 & sp & H1 & -> & _).
  rewrite H1 in H. inversion H; subst. steady_tac.
Qed.

Lemma shootOrMove_steady e s env k s' e' k' :
  shootOrMove e s env k = Some ((s', e'), k') -> steady s s'.
Proof.
  unfold shootOrMove, pushProjectile. intros H. msolve; steady_tac.
Qed.

Lemma contactDamage_steady e s : steady s (contactDamage e s).
Proof.
  unfold contactDamage, damagePlayer. destruct (Rltb _ _); [steady_tac | apply steady_refl].
Qed.

Lemma enemyStep_steady i s env k s' k' :
  enemyStep i s env k = Some (s', k') -> steady s s'.
Proof.
  unfold enemyStep. intros H.
  destruct (nth_error (enemies s) i) as [e |]; [| inv_ret H; apply steady_refl].
  apply bind_inv in H. destruct H as ([s1 e1] & k1 & H1 & H).
  apply bind_inv in H. destruct H as ([s2 e2] & k2 & H2 & H).
  cbn [fst snd] in *. inv_ret H.
  apply bossLogic_steady in H1. apply shootOrMove_steady in H2.
  eapply steady_trans; [exact H1 |]. eapply steady_trans; [exact H2 |].
  eapply steady_trans; [| apply contactDamage_steady].
  unfold setEnemy. steady_tac.
Qed.

Lemma updateEnemies_steady s env k s' k' :
  updateEnemies s env k = Some (s', k') -> steady s s'.
Proof.
  unfold updateEnemies.
  apply (forUp_inv (fun t => steady s t)); [| apply steady_refl].
  intros i t kk t' kk' Ht Hb. eapply steady_trans; [exact Ht |].
  eapply enemyStep_steady; eassumption.
Qed.

(** ** 4. Projectiles *)

Lemma hitAsteroids_steady p s env k s' b k' :
  hitAsteroids p s env k = Some ((s', b), k') -> steady s s'.
Proof. unfold hitAsteroids. intros H. msolve; steady_tac. Qed.

Lemma hitPlayer_steady p s env k s' b k' :
  hitPlayer p s env k = Some ((s', b), k') -> steady s s'.
Proof. unfold hitPlayer, damagePlayer. intros H. msolve; steady_tac. Qed.

Lemma hitEnemies_steady p s env k s' b k' :
  hitEnemies p s env k = Some ((s', b), k') -> steady s s'.
Proof.
  unfold hitEnemies, setEnemy. intros H. msolve; case_ifs; steady_tac.
Qed.

Lemma projectileStep_steady fuel i s env k s' k' :
  projectileStep fuel i s env k = Some (s', k') -> steady s s'.
Proof.
  unfold projectileStep. intros H.
  destruct (nth_error (projectiles s) i) as [p |]; [| inv_ret H; apply steady_refl].
  apply bind_inv in H. destruct H as (p1 & k1 & _ & H).
  apply bind_inv in H. destruct H as ([s2 b2] & k2 & H2 & H).
  apply bind_inv in H. destruct H as ([s3 b3] & k3 & H3 & H).
  cbn [fst snd] in *.
  apply hitAsteroids_steady in H2.
  assert (S3 : steady s2 s3).
  { destruct (negb b2).
    - destruct (Projectile.isEnemy _);
        [eapply hitPlayer_steady | eapply hitEnemies_steady]; eassumption.
    - inv_ret H3. apply steady_refl. }
  eapply steady_trans; [| eapply steady_trans; [exact H2 |]].
  - steady_tac.
  - eapply steady_trans; [exact S3 |].
    destruct (_ || _); inv_ret H; [steady_tac | apply steady_refl].
Qed.

Lemma updateProjectiles_steady fuel s env k s' k' :
  updateProjectiles fuel s env k = Some (s', k') -> steady s s'.
Proof.
  unfold updateProjectiles.
  apply (forDown_inv (fun t => steady s t)); [| apply steady_refl].
  intros i t kk t' kk' Ht Hb. eapply steady_trans; [exact Ht |].
  eapply projectileStep_steady; eassumption.
Qed.

(** ** 5. Shockwaves *)

Lemma empStep_steady wave j s env k s' k' :
  empStep wave j s env k = Some (s', k') -> steady s s'.
Proof. unfold empStep, setEnemy. intros H. msolve; steady_tac. Qed.

Lemma shockwaveStep_steady i s env k s' k' :
  shockwaveStep i s env k = Some (s', k') -> steady s s'.
Proof.
  unfold shockwaveStep. intros H.
  destruct (nth_error (shockwaves s) i) as [w |]; [| inv_ret H; apply steady_refl].
  apply bind_inv in H. destruct H as (s1 & k1 & H1 & H).
  assert (S1 : steady (set_shockwaves s
                         (list_set (shockwaves s) i
                            (Shockwave.set_radius w
                               (Shockwave.radius w + Shockwave.speed w)))) s1).
  { revert H1. apply (forUp_inv (fun t => steady _ t)); [| apply steady_refl].
    intros j t kk t' kk' Ht Hb. eapply steady_trans; [exact Ht |].
    eapply empStep_steady; eassumption. }
  eapply steady_trans; [| eapply steady_trans; [exact S1 |]]; [steady_tac |].
  destruct (Rgtb _ _); [| inv_ret H; apply steady_refl].
  destruct (Rgeb _ _) eqn:Ec; inv_ret H; [| steady_tac].
  apply Rleb_spec in Ec. cbn in Ec.
  unfold steady; cbn. do 8 (split; [reflexivity |]).
  split; [apply sameArsenal_refl |]. split; [right; auto | intros; lra].
Qed.

Lemma updateShockwaves_steady s env k s' k' :
  updateShockwaves s env k = Some (s', k') -> steady s s'.
Proof.
  unfold updateShockwaves.
  apply (forDown_inv (fun t => steady s t)); [| apply steady_refl].
  intros i t kk t' kk' Ht Hb. eapply steady_trans; [exact Ht |].
  eapply shockwaveStep_steady; eassumption.
Qed.

(** ** 6. Cleanup *)

Lemma cleanupStep_steady a i s env k s' k' :
  cleanupStep a i s env k = Some (s', k') -> steady s s'.
Proof. unfold cleanupStep. intros H. msolve; steady_tac. Qed.

Lemma cleanupEnemies_steady a s env k s' k' :
  cleanupEnemies a s env k = Some (s', k') -> steady s s'.
Proof.
  unfold cleanupEnemies.
  apply (forDown_inv (fun t => steady s t)); [| apply steady_refl].
  intros i t kk t' kk' Ht Hb. eapply steady_trans; [exact Ht |].
  eapply cleanupStep_steady; eassumption.
Qed.

(** ** 7. XP orbs *)

Lemma levelUpLoop_steady fuel s env k s' k' :
  levelUpLoop fuel s env k = Some (s', k') -> steady s s'.
Proof.
  revert s. induction fuel as [| fuel IH]; simpl; intros s H.
  - destruct (Rgeb _ _); [discriminate H | inv_ret H; apply steady_refl].
  - destruct (Rgeb _ _); [| inv_ret H; apply steady_refl].
    apply IH in H. eapply steady_trans; [| exact H].
    unfold levelUpBody. steady_tac.
Qed.

Lemma magnetTick_steady s env k s' k' :
  magnetTick s env k = Some (s', k') -> steady s s'.
Proof.
  unfold magnetTick. intros H.
  assert (Hm : forall t i, steady t (magnetizeAt t i)).
  { intros t i. unfold magnetizeAt.
    destruct (nth_error _ _); [steady_tac | apply steady_refl]. }
  msolve; try steady_tac.
  eapply steady_trans; [| apply Hm]. steady_tac.
Qed.

Lemma orbStep_steady fuel i s env k s' k' :
  orbStep fuel i s env k = Some (s', k') -> steady s s'.
Proof.
  unfold orbStep, collectXp. intros H.
  destruct (nth_error (xpOrbs s) i) as [o |]; [| inv_ret H; apply steady_refl].
  destruct (_ || _); [| inv_ret H; apply steady_refl].
  destruct (Rltb _ 20).
  - apply bind_inv in H. destruct H as (s1 & k1 & H1 & H). inv_ret H.
    apply levelUpLoop_steady in H1.
    eapply steady_trans; [| eapply steady_trans; [exact H1 |]]; steady_tac.
  - inv_ret H. steady_tac.
Qed.

Lemma updateXpOrbs_steady fuel a s env k s' k' :
  updateXpOrbs fuel a s env k = Some (s', k') -> steady s s'.
Proof.
  unfold updateXpOrbs. intros H.
  apply bind_inv in H. destruct H as (s1 & k1 & H1 & H).
  apply magnetTick_steady in H1. eapply steady_trans; [exact H1 |].
  revert H.
  match goal with
  | |- forDown _ _ ?s0 _ _ = _ -> _ =>
      intros H; apply steady_trans with s0;
      [destruct (_ || _); [steady_tac | apply steady_refl] |]
  end.
  revert H. apply (forDown_inv (fun t => steady _ t)); [| apply steady_refl].
  intros i t kk t' kk' Ht Hb. eapply steady_trans; [exact Ht |].
  eapply orbStep_steady; eassumption.
Qed.

(** Everything between the timers and the last three stages. *)
Lemma middle_steady fuel s1 env k1 s2 k2 s3 k3 s4 k4 s5 k5 s6 k6 s7 k7 :
  autoFire s1 env k1 = Some (s2, k2) ->
  updateEnemies s2 env k2 = Some (s3, k3) ->
  updateProjectiles fuel s3 env k3 = Some (s4, k4) ->
  updateShockwaves s4 env k4 = Some (s5, k5) ->
  cleanupEnemies (isShockwaveActive s4) s5 env k5 = Some (s6, k6) ->
  updateXpOrbs fuel (isShockwaveActive s4) s6 env k6 = Some (s7, k7) ->
  steady s1 s7.
Proof.
  intros H2 H3 H4 H5 H6 H7.
  eapply steady_trans; [eapply autoFire_steady; eassumption |].
  eapply steady_trans; [eapply updateEnemies_steady; eassumption |].
  eapply steady_trans; [eapply updateProjectiles_steady; eassumption |].
  eapply steady_trans; [eapply updateShockwaves_steady; eassumption |].
  eapply steady_trans; [eapply cleanupEnemies_steady; eassumption |].
  eapply updateXpOrbs_steady; eassumption.
Qed.

(* ------------------------------------------------------------------ *)
(** * The queued level-up and the shockwaves through the stages 2 to 7 *)

Lemma queueKept_refl s : queueKept s s.
Proof. unfold queueKept. tauto. Qed.

Lemma queueKept_trans s1 s2 s3 : queueKept s1 s2 -> queueKept s2 s3 -> queueKept s1 s3.
Proof. unfold queueKept. tauto. Qed.

(** A step that touches neither the queue flag nor the shockwaves, or that
    raises the flag. *)
Ltac queue_tac :=
  unfold queueKept; cbn; split; intros; first [assumption | reflexivity].

Lemma spawnParticles_queueKept s pos n c env k s' k' :
  spawnParticles s pos n c env k = Some (s', k') -> queueKept s s'.
Proof. intros H. shapes. queue_tac. Qed.

Lemma addFloatingText_queueKept s t pos c z env k s' k' :
  addFloatingText s t pos c z env k = Some (s', k') -> queueKept s s'.
Proof. intros H. shapes. queue_tac. Qed.

Lemma aimPlayer_queueKept tg s : queueKept s (aimPlayer tg s).
Proof.
  unfold aimPlayer, setPlayerRotation.
  destruct (enemyAt s (nearestVisible tg)) as [[i e] |]; [queue_tac |].
  destruct (enemyAt s (nearestAny tg)) as [[i e] |]; [| apply queueKept_refl].
  destruct (Rgtb _ 0); [queue_tac | apply queueKept_refl].
Qed.

Lemma fireWeapon_queueKept tg w s env k s' k' :
  fireWeapon tg w s env k = Some (s', k') -> queueKept s s'.
Proof.
  unfold fireWeapon, setCooldown, pushProjectile, setEnemy. intros H.
  destruct (enemyAt s _) as [[ti target] |]; [| inv_ret H; queue_tac].
  destruct (_ && _); [| inv_ret H; queue_tac].
  destruct (Rleb _ (Weapon.range _)); [| inv_ret H; apply queueKept_refl].
  destruct w; msolve; queue_tac.
Qed.

Lemma autoFire_queueKept s env k s' k' :
  autoFire s env k = Some (s', k') -> queueKept s s'.
Proof.
  unfold autoFire. intros H.
  apply bind_inv in H. destruct H as (s1 & k1 & H1 & H).
  apply bind_inv in H. destruct H as (s2 & k2 & H2 & H).
  apply fireWeapon_queueKept in H1, H2, H.
  eapply queueKept_trans; [apply aimPlayer_queueKept |].
  eapply queueKept_trans; [exact H1 |]. eapply queueKept_trans; eassumption.
Qed.

Lemma bossLogic_queueKept e s env k s' e' k' :
  bossLogic e s env k = Some ((s', e'), k') -> queueKept s s'.
Proof.
  intros H. destruct (bossLogic_spec e s env k) as (s1 & e1 & k1 & sp & H1 & -> & _).
  rewrite H1 in H. inversion H; subst. queue_tac.
Qed.

Lemma shootOrMove_queueKept e s env k s' e' k' :
  shootOrMove e s env k = Some ((s', e'), k') -> queueKept s s'.
Proof.
  unfold shootOrMove, pushProjectile. intros H. msolve; queue_tac.
Qed.

Lemma contactDamage_queueKept e s : queueKept s (contactDamage e s).
Proof.
  unfold contactDamage, damagePlayer. destruct (Rltb _ _); [queue_tac | apply queueKept_refl].
Qed.

Lemma enemyStep_queueKept i s env k s' k' :
  enemyStep i s env k = Some (s', k') -> queueKept s s'.
Proof.
  unfold enemyStep. intros H.
  destruct (nth_error (enemies s) i) as [e |]; [| inv_ret H; apply queueKept_refl].
  apply bind_inv in H. destruct H as ([s1 e1] & k1 & H1 & H).
  apply bind_inv in H. destruct H as ([s2 e2] & k2 & H2 & H).
  cbn [fst snd] in *. inv_ret H.
  apply bossLogic_queueKept in H1. apply shootOrMove_queueKept in H2.
  eapply queueKept_trans; [exact H1 |]. eapply queueKept_trans; [exact H2 |].
  eapply queueKept_trans; [| apply contactDamage_queueKept].
  unfold setEnemy. queue_tac.
Qed.

Lemma updateEnemies_queueKept s env k s' k' :
  updateEnemies s env k = Some (s', k') -> queueKept s s'.
Proof.
  unfold updateEnemies.
  apply (forUp_inv (fun t => queueKept s t)); [| apply queueKept_refl].
  intros i t kk t' kk' Ht Hb. eapply queueKept_trans; [exact Ht |].
  eapply enemyStep_queueKept; eassumption.
Qed.

Lemma hitAsteroids_queueKept p s env k s' b k' :
  hitAsteroids p s env k = Some ((s', b), k') -> queueKept s s'.
Proof. unfold hitAsteroids. intros H. msolve; queue_tac. Qed.

Lemma hitPlayer_queueKept p s env k s' b k' :
  hitPlayer p s env k = Some ((s', b), k') -> queueKept s s'.
Proof. unfold hitPlayer, damagePlayer. intros H. msolve; queue_tac. Qed.

Lemma hitEnemies_queueKept p s env k s' b k' :
  hitEnemies p s env k = Some ((s', b), k') -> queueKept s s'.
Proof.
  unfold hitEnemies, setEnemy. intros H. msolve; case_ifs; queue_tac.
Qed.

Lemma projectileStep_queueKept fuel i s env k s' k' :
  projectileStep fuel i s env k = Some (s', k') -> queueKept s s'.
Proof.
  unfold projectileStep. intros H.
  destruct (nth_error (projectiles s) i) as [p |]; [| inv_ret H; apply queueKept_refl].
  apply bind_inv in H. destruct H as (p1 & k1 & _ & H).
  apply bind_inv in H. destruct H as ([s2 b2] & k2 & H2 & H).
  apply bind_inv in H. destruct H as ([s3 b3] & k3 & H3 & H).
  cbn [fst snd] in *.
  apply hitAsteroids_queueKept in H2.
  assert (S3 : queueKept s2 s3).
  { destruct (negb b2).
    - destruct (Projectile.isEnemy _);
        [eapply hitPlayer_queueKept | eapply hitEnemies_queueKept]; eassumption.
    - inv_ret H3. apply queueKept_refl. }
  eapply queueKept_trans; [| eapply queueKept_trans; [exact H2 |]].
  - queue_tac.
  - eapply queueKept_trans; [exact S3 |].
    destruct (_ || _); inv_ret H; [queue_tac | apply queueKept_refl].
Qed.

Lemma updateProjectiles_queueKept fuel s env k s' k' :
  updateProjectiles fuel s env k = Some (s', k') -> queueKept s s'.
Proof.
  unfold updateProjectiles.
  apply (forDown_inv (fun t => queueKept s t)); [| apply queueKept_refl].
  intros i t kk t' kk' Ht Hb. eapply queueKept_trans; [exact Ht |].
  eapply projectileStep_queueKept; eassumption.
Qed.

Lemma empStep_queueKept wave j s env k s' k' :
  empStep wave j s env k = Some (s', k') -> queueKept s s'.
Proof. unfold empStep, setEnemy. intros H. msolve; queue_tac. Qed.

Lemma shockwaveStep_queueKept i s env k s' k' :
  shockwaveStep i s env k = Some (s', k') -> queueKept s s'.
Proof.
  unfold shockwaveStep. intros H.
  destruct (nth_error (shockwaves s) i) as [w |] eqn:Hw;
    [| inv_ret H; apply queueKept_refl].
  apply bind_inv in H. destruct H as (s1 & k1 & H1 & H).
  assert (S1 : queueKept (set_shockwaves s
                            (list_set (shockwaves s) i
                               (Shockwave.set_radius w
                                  (Shockwave.radius w + Shockwave.speed w)))) s1).
  { revert H1. apply (forUp_inv (fun t => queueKept _ t)); [| apply queueKept_refl].
    intros j t kk t' kk' Ht Hb. eapply queueKept_trans; [exact Ht |].
    eapply empStep_queueKept; eassumption. }
  split.
  - intros Hq. destruct S1 as (Q1 & _). cbn in Q1. specialize (Q1 Hq).
    destruct (Rgtb _ _); [| inv_ret H; exact Q1].
    destruct (Rgeb _ _); inv_ret H; exact Q1.
  - intros Hs. rewrite Hs in Hw. destruct i; discriminate Hw.
Qed.

Lemma updateShockwaves_queueKept s env k s' k' :
  updateShockwaves s env k = Some (s', k') -> queueKept s s'.
Proof.
  unfold updateShockwaves.
  apply (forDown_inv (fun t => queueKept s t)); [| apply queueKept_refl].
  intros i t kk t' kk' Ht Hb. eapply queueKept_trans; [exact Ht |].
  eapply shockwaveStep_queueKept; eassumption.
Qed.

Lemma cleanupStep_queueKept a i s env k s' k' :
  cleanupStep a i s env k = Some (s', k') -> queueKept s s'.
Proof. unfold cleanupStep. intros H. msolve; queue_tac. Qed.

Lemma cleanupEnemies_queueKept a s env k s' k' :
  cleanupEnemies a s env k = Some (s', k') -> queueKept s s'.
Proof.
  unfold cleanupEnemies.
  apply (forDown_inv (fun t => queueKept s t)); [| apply queueKept_refl].
  intros i t kk t' kk' Ht Hb. eapply queueKept_trans; [exact Ht |].
  eapply cleanupStep_queueKept; eassumption.
Qed.

Lemma levelUpLoop_queueKept fuel s env k s' k' :
  levelUpLoop fuel s env k = Some (s', k') -> queueKept s s'.
Proof.
  revert s. induction fuel as [| fuel IH]; simpl; intros s H.
  - destruct (Rgeb _ _); [discriminate H | inv_ret H; apply queueKept_refl].
  - destruct (Rgeb _ _); [| inv_ret H; apply queueKept_refl].
    apply IH in H. eapply queueKept_trans; [| exact H].
    unfold levelUpBody. queue_tac.
Qed.

Lemma magnetTick_queueKept s env k s' k' :
  magnetTick s env k = Some (s', k') -> queueKept s s'.
Proof.
  unfold magnetTick. intros H.
  assert (Hm : forall t i, queueKept t (magnetizeAt t i)).
  { intros t i. unfold magnetizeAt.
    destruct (nth_error _ _); [queue_tac | apply queueKept_refl]. }
  msolve; try queue_tac.
  eapply queueKept_trans; [| apply Hm]. queue_tac.
Qed.

Lemma orbStep_queueKept fuel i s env k s' k' :
  orbStep fuel i s env k = Some (s', k') -> queueKept s s'.
Proof.
  unfold orbStep, collectXp. intros H.
  destruct (nth_error (xpOrbs s) i) as [o |]; [| inv_ret H; apply queueKept_refl].
  destruct (_ || _); [| inv_ret H; apply queueKept_refl].
  destruct (Rltb _ 20).
  - apply bind_inv in H. destruct H as (s1 & k1 & H1 & H). inv_ret H.
    apply levelUpLoop_queueKept in H1.
    eapply queueKept_trans; [| eapply queueKept_trans; [exact H1 |]]; queue_tac.
  - inv_ret H. queue_tac.
Qed.

Lemma updateXpOrbs_queueKept fuel a s env k s' k' :
  updateXpOrbs fuel a s env k = Some (s', k') -> queueKept s s'.
Proof.
  unfold updateXpOrbs. intros H.
  apply bind_inv in H. destruct H as (s1 & k1 & H1 & H).
  apply magnetTick_queueKept in H1. eapply queueKept_trans; [exact H1 |].
  revert H.
  match goal with
  | |- forDown _ _ ?s0 _ _ = _ -> _ =>
      intros H; apply queueKept_trans with s0;
      [destruct (_ || _); [queue_tac | apply queueKept_refl] |]
  end.
  revert H. apply (forDown_inv (fun t => queueKept _ t)); [| apply queueKept_refl].
  intros i t kk t' kk' Ht Hb. eapply queueKept_trans; [exact Ht |].
  eapply orbStep_queueKept; eassumption.
Qed.

(** The queue and the shockwaves between the timers and the last three
    stages. *)
Lemma middle_queueKept fuel s1 env k1 s2 k2 s3 k3 s4 k4 s5 k5 s6 k6 s7 k7 :
  autoFire s1 env k1 = Some (s2, k2) ->
  updateEnemies s2 env k2 = Some (s3, k3) ->
  updateProjectiles fuel s3 env k3 = Some (s4, k4) ->
  updateShockwaves s4 env k4 = Some (s5, k5) ->
  cleanupEnemies (isShockwaveActive s4) s5 env k5 = Some (s6, k6) ->
  updateXpOrbs fuel (isShockwaveActive s4) s6 env k6 = Some (s7, k7) ->
  queueKept s1 s7.
Proof.
  intros H2 H3 H4 H5 H6 H7.
  eapply queueKept_trans; [eapply autoFire_queueKept; eassumption |].
  eapply queueKept_trans; [eapply updateEnemies_queueKept; eassumption |].
  eapply queueKept_trans; [eapply updateProjectiles_queueKept; eassumption |].
  eapply queueKept_trans; [eapply updateShockwaves_queueKept; eassumption |].
  eapply queueKept_trans; [eapply cleanupEnemies_queueKept; eassumption |].
  eapply updateXpOrbs_queueKept; eassumption.
Qed.

(* ------------------------------------------------------------------ *)
(** * The first and the last stages *)

Lemma spawnAsteroids_shape fuel s env k s' k' :
  spawnAsteroids fuel s env k = Some (s', k') ->
  exists asts, s' = set_asteroids s asts.
Proof.
  unfold spawnAsteroids. intros H.
  apply bind_inv in H. destruct H as (r & k1 & _ & H).
  assert (G : forall n i t kk, forUp n i (spawnAsteroid fuel) t env kk = Some (s', k') ->
                               exists asts, s' = set_asteroids t asts).
  { induction n as [| n IH]; simpl; intros i t kk Hl.
    - inv_ret Hl. exists (asteroids s'). destruct s'; reflexivity.
    - apply bind_inv in Hl. destruct Hl as (t1 & kk1 & H1 & Hl).
      apply IH in Hl. destruct Hl as (asts & ->).
      unfold spawnAsteroid in H1. msolve. eexists. reflexivity. }
  apply G in H. destruct H as (asts & ->). eexists. reflexivity.
Qed.

(** What the timers stage may change besides the timers. *)
Lemma updateTimers_frame fuel s env k s1 k1 :
  updateTimers fuel s env k = Some (s1, k1) ->
  (phase s1 = phase s \/ phase s1 = IDLE)
  /\ Player.weapons (player s1) = Player.weapons (player s)
  /\ Player.hp (player s1) = Player.hp (player s)
  /\ justLeveledUp s1 = justLeveledUp s
  /\ (0 <= cameraShake s <= 50 -> 0 <= cameraShake s1 <= 50)
  /\ ((asteroids s1 = asteroids s /\ scanTargetId s1 = scanTargetId s
       /\ Player.crystals (player s1) = Player.crystals (player s))
      \/ (phase s = WARPING /\ warpTimer s - 1 / 60 <= 0)
      \/ (phase s = SCANNING /\ SCAN_DURATION_SEC <= scanTimer s + 1 / 60)).
Proof.
  unfold updateTimers. intros H.
  destruct (GamePhase_eqb (phase s) WARPING) eqn:Ew.
  - assert (Hw : phase s = WARPING) by (destruct (phase s); try discriminate; reflexivity).
    cbn [warpTimer set_warpTimer] in H.
    destruct (Rleb (warpTimer s - 1 / 60) 0) eqn:Et.
    + apply Rleb_spec in Et.
      apply bind_inv in H. destruct H as (sa & ka & Ha & H). inv_ret H.
      apply spawnAsteroids_shape in Ha. destruct Ha as (asts & ->). cbn.
      split; [right; reflexivity |]. do 3 (split; [reflexivity |]).
      split; [tauto |]. right. left. auto.
    + inv_ret H. cbn. split; [left; reflexivity |]. do 3 (split; [reflexivity |]).
      split; [tauto |]. left. auto.
  - destruct (GamePhase_eqb (phase s) SCANNING) eqn:Es.
    2:{ inv_ret H. split; [left; reflexivity |]. do 3 (split; [reflexivity |]).
        split; [tauto |]. left. auto. }
    assert (Hs : phase s = SCANNING) by (destruct (phase s); try discriminate; reflexivity).
    apply bind_inv in H. destruct H as (sb & kb & Hb & H).
    assert (Fb : exists es wt, sb = set_waveTimer
                                      (set_enemies (set_scanTimer s (scanTimer s + 1 / 60)) es)
                                      wt).
    { cbn in Hb. destruct (Rgtb _ _).
      - apply bind_inv in Hb. destruct Hb as (sc & kc & Hc & Hb). inv_ret Hb.
        shapes. cbn. eexists _, _. reflexivity.
      - inv_ret Hb. cbn. exists (enemies s), (waveTimer s + 1). reflexivity. }
    destruct Fb as (es & wt & Eb). rewrite Eb in H. clear Hb.
    cbn [scanTimer set_waveTimer set_enemies set_scanTimer] in H.
    destruct (Rgeb (scanTimer s + 1 / 60) SCAN_DURATION_SEC) eqn:Ed.
    + apply Rleb_spec in Ed.
      apply bind_inv in H. destruct H as (sd & kd & Hd & H). inv_ret H.
      assert (Fd : phase sd = IDLE
                   /\ Player.weapons (player sd) = Player.weapons (player s)
                   /\ Player.hp (player sd) = Player.hp (player s)
                   /\ justLeveledUp sd = justLeveledUp s
                   /\ (0 <= cameraShake s <= 50 -> 0 <= cameraShake sd <= 50)).
      { destruct (findIndex _ _) as [i |]; [| inv_ret Hd; cbn; tauto].
        destruct (nth_error _ i) as [a |]; [| inv_ret Hd; cbn; tauto].
        unfold triggerShockwave in Hd. msolve. cbn.
        do 4 (split; [reflexivity |]). intros; lra. }
      cbn. destruct Fd as (F0 & F1 & F2 & F3 & F4).
      split; [right; exact F0 |]. do 3 (split; [assumption |]).
      split; [exact F4 |]. right. right. auto.
    + subst sb. inv_ret H. cbn. split; [left; reflexivity |].
      do 3 (split; [reflexivity |]). split; [tauto |]. left. auto.
Qed.

Lemma finish_fields t :
  player (finish t) = player t
  /\ asteroids (finish t) = asteroids t
  /\ scanTargetId (finish t) = scanTargetId t
  /\ shockwaves (finish t) = shockwaves t
  /\ enemies (finish t) = enemies t
  /\ projectiles (finish t) = projectiles t
  /\ xpOrbs (finish t) = xpOrbs t
  /\ phase (finish t)
     = (if Rleb (Player.hp (player t)) 0 then GAME_OVER else phase t).
Proof.
  unfold finish, cameraShakeDecay, gameOverCheck, processQueuedLevelUp,
    updateParticlesAndText.
  case_ifs; cbn in *; repeat split; try reflexivity; congruence.
Qed.

Lemma finish_flags t :
  justLeveledUp (finish t)
  = (if levelUpQueued t && Nat.eqb (List.length (shockwaves t)) 0
     then true else justLeveledUp t)
  /\ levelUpQueued (finish t)
     = (if Nat.eqb (List.length (shockwaves t)) 0 then false else levelUpQueued t)
  /\ justScanned (finish t) = justScanned t.
Proof.
  unfold finish, cameraShakeDecay, gameOverCheck, processQueuedLevelUp,
    updateParticlesAndText.
  cbn. destruct (levelUpQueued t) eqn:Eq; cbn;
    destruct (Nat.eqb (List.length (shockwaves t)) 0) eqn:En; cbn;
      case_ifs; cbn; auto.
Qed.

Lemma cameraShakeDecay_range t :
  cameraShake (cameraShakeDecay t) = 0
  \/ (0.5 <= cameraShake (cameraShakeDecay t)
      /\ cameraShake (cameraShakeDecay t) = cameraShake t * 0.9).
Proof.
  unfold cameraShakeDecay.
  destruct (Rgtb (cameraShake t) 0) eqn:E0; cbn.
  - destruct (Rltb (cameraShake t * 0.9) 0.5) eqn:E1; cbn; [left; reflexivity |].
    apply Rltb_nspec in E1. right. split; [exact E1 | reflexivity].
  - destruct (Rltb (cameraShake t) 0.5) eqn:E1; cbn; [left; reflexivity |].
    apply Rltb_nspec in E0. apply Rltb_nspec in E1. lra.
Qed.

Lemma finish_shake t :
  cameraShake (finish t) = 0
  \/ (0.5 <= cameraShake (finish t) /\ cameraShake (finish t) = cameraShake t * 0.9).
Proof.
  unfold finish.
  destruct (cameraShakeDecay_range
              (gameOverCheck (processQueuedLevelUp (updateParticlesAndText t))))
    as [H | (H1 & H2)]; [left; exact H |].
  right. split; [exact H1 |]. rewrite H2.
  unfold gameOverCheck, processQueuedLevelUp, updateParticlesAndText.
  case_ifs; reflexivity.
Qed.

(* ------------------------------------------------------------------ *)
(** * A tick in a calm arena *)

Lemma autoFire_calm s env k :
  enemies s = [] -> autoFire s env k = Some (idleFire s, k).
Proof.
  intros He. unfold autoFire, searchTargets. rewrite He. cbn [findTargets].
  unfold aimPlayer, enemyAt. cbn [nearestVisible nearestAny].
  unfold fireWeapon, enemyAt. cbn [nearestVisible nearestAny].
  unfold bind, ret. reflexivity.
Qed.

Lemma updateEnemies_calm s env k :
  enemies s = [] -> updateEnemies s env k = Some (s, k).
Proof. intros He. unfold updateEnemies. rewrite He. reflexivity. Qed.

Lemma updateProjectiles_calm fuel s env k :
  projectiles s = [] -> updateProjectiles fuel s env k = Some (s, k).
Proof. intros He. unfold updateProjectiles. rewrite He. reflexivity. Qed.

Lemma updateShockwaves_calm s env k :
  shockwaves s = [] -> updateShockwaves s env k = Some (s, k).
Proof. intros He. unfold updateShockwaves. rewrite He. reflexivity. Qed.

Lemma cleanupEnemies_calm a s env k :
  enemies s = [] -> cleanupEnemies a s env k = Some (s, k).
Proof. intros He. unfold cleanupEnemies. rewrite He. reflexivity. Qed.

Lemma set_xpOrbs_same s : set_xpOrbs s (xpOrbs s) = s.
Proof. destruct s; reflexivity. Qed.

Lemma updateXpOrbs_calm fuel a s env k :
  xpOrbs s = [] -> updateXpOrbs fuel a s env k = Some (idleMagnet s, k).
Proof.
  intros He. unfold updateXpOrbs, magnetTick, idleMagnet.
  cbn [magnetTimer set_magnetTimer xpOrbs player]. rewrite He.
  cbn [distantIndices List.length Nat.ltb Nat.leb].
  destruct (Rgtb (magnetTimer s + 1) 60); unfold bind, ret;
    cbn [xpOrbs set_magnetTimer justScanned]; rewrite He; cbn [map List.length forDown];
    unfold ret; destruct (justScanned s || a); cbn [forDown xpOrbs set_xpOrbs set_magnetTimer List.length];
    unfold ret; try rewrite <- He at 2; repeat f_equal;
    destruct s; cbn in *; subst; reflexivity.
Qed.

(** The last wave of an EMP leaving the screen, with no enemy around. *)
Lemma updateShockwaves_last s w env k :
  shockwaves s = [w] ->
  enemies s = [] ->
  Shockwave.maxRadius w < Shockwave.radius w + Shockwave.speed w ->
  updateShockwaves s env k
  = Some ((if Rgeb (Player.crystals (player s)) TARGET_CRYSTALS
           then set_phase (set_shockwaves s []) VICTORY
           else set_shockwaves s []), k).
Proof.
  intros Hw He Hr. unfold updateShockwaves. rewrite Hw.
  cbn [List.length forDown]. unfold shockwaveStep. rewrite Hw.
  cbn [nth_error list_set]. cbn [enemies set_shockwaves]. rewrite He.
  cbn [List.length forUp]. unfold bind, ret.
  cbn [Shockwave.radius Shockwave.set_radius Shockwave.maxRadius shockwaves
       set_shockwaves splice1 player].
  unfold Rgtb. rewrite (Rltb_true _ _ Hr).
  destruct (Rgeb _ _); reflexivity.
Qed.

(** An enemy orb, alone in flight, that reaches the player. *)
Lemma updateProjectiles_strike fuel s p env k :
  projectiles s = [p] ->
  Projectile.type p = ENEMY_ORB ->
  Projectile.isEnemy p = true ->
  dist (position (Projectile.ent (moveProjectile p)))
       (position (Player.ent (player s)))
  < radius (Player.ent (player s)) + radius (Projectile.ent p) ->
  exists ft,
    updateProjectiles fuel s env k
    = Some (set_projectiles
              (set_floatingTexts
                 (set_cameraShake
                    (damagePlayer (set_projectiles s [moveProjectile p])
                                  (Projectile.damage p)) 5)
                 (floatingTexts s ++ [ft])) [], S k).
Proof.
  intros Hp Ht He Hhit.
  assert (Hstep : exists ft,
             projectileStep fuel 0 s env k
             = Some (set_projectiles
              (set_floatingTexts
                 (set_cameraShake
                    (damagePlayer (set_projectiles s [moveProjectile p])
                                  (Projectile.damage p)) 5)
                 (floatingTexts s ++ [ft])) [], S k)).
  { unfold projectileStep. rewrite Hp. cbn [nth_error].
    assert (Hh : homing fuel s p env k = Some (p, k)).
    { unfold homing. rewrite Ht. reflexivity. }
    rewrite (bind_run _ Hh). cbn [list_set].
    unfold hitAsteroids at 1.
    replace (Projectile.isEnemy (moveProjectile p)) with true by (symmetry; exact He).
    cbn [negb andb]. unfold bind at 1. unfold ret at 1. cbn [snd fst negb].
    unfold hitPlayer.
    cbn [player set_projectiles].
    change (radius (Projectile.ent (moveProjectile p))) with (radius (Projectile.ent p)).
    rewrite (Rltb_true _ _ Hhit).
    unfold bind, addFloatingText, Math_random, ret. cbn [snd fst orb].
    eexists. reflexivity. }
  destruct Hstep as (ft & Hstep). exists ft.
  unfold updateProjectiles. rewrite Hp. cbn [List.length forDown].
  rewrite (bind_run _ Hstep). reflexivity.
Qed.

(** A wave that stays on the screen, with no enemy around. *)
Lemma updateShockwaves_growing s w env k :
  shockwaves s = [w] ->
  enemies s = [] ->
  Shockwave.radius w + Shockwave.speed w <= Shockwave.maxRadius w ->
  updateShockwaves s env k
  = Some (set_shockwaves s
            [Shockwave.set_radius w (Shockwave.radius w + Shockwave.speed w)], k).
Proof.
  intros Hw He Hr. unfold updateShockwaves. rewrite Hw.
  cbn [List.length forDown]. unfold shockwaveStep. rewrite Hw.
  cbn [nth_error list_set]. cbn [enemies set_shockwaves]. rewrite He.
  cbn [List.length forUp]. unfold bind, ret.
  cbn [Shockwave.radius Shockwave.set_radius Shockwave.maxRadius shockwaves
       set_shockwaves splice1 player].
  unfold Rgtb. rewrite (Rltb_false _ _ Hr). reflexivity.
Qed.

(** A tick of a scan in which no enemy is due and the scan goes on. *)
Lemma updateTimers_scan_quiet fuel s env k :
  phase s = SCANNING ->
  waveTimer s + 1 <= 10 ->
  scanTimer s + 1 / 60 < SCAN_DURATION_SEC ->
  updateTimers fuel s env k
  = Some (set_waveTimer (set_scanTimer s (scanTimer s + 1 / 60)) (waveTimer s + 1), k).
Proof.
  intros Hph Hw Hs. unfold updateTimers. rewrite Hph. cbn [GamePhase_eqb].
  cbn [scanTimer set_scanTimer waveTimer set_waveTimer].
  unfold Rgtb. rewrite Rltb_false.
  2:{ pose proof (Rmax_l 10 ((100 - (scanTimer s + 1 / 60)) * 0.5)). lra. }
  unfold bind at 1. unfold ret at 1.
  cbn [scanTimer set_scanTimer waveTimer set_waveTimer].
  unfold Rgeb. rewrite (Rleb_false _ _ Hs). reflexivity.
Qed.

(** A tick in which no enemy is around after the timers stage: the enemy
    stage and the clean-up have nothing to do, and all that matters is what
    the projectiles and the shockwaves do. *)
Lemma updateGame_no_enemy fuel env s k s1 k1 s4 k4 s5 k5 :
  isPaused (phase s) = false ->
  updateTimers fuel s env k = Some (s1, k1) ->
  enemies s1 = [] ->
  updateProjectiles fuel (idleFire s1) env k1 = Some (s4, k4) ->
  updateShockwaves s4 env k4 = Some (s5, k5) ->
  enemies s5 = [] ->
  xpOrbs s5 = [] ->
  updateGame fuel s env k = Some (finish (idleMagnet s5), k5).
Proof.
  intros Hp H1 He H4 H5 He5 Ho5. unfold updateGame. rewrite Hp.
  rewrite (bind_run _ H1).
  rewrite (bind_run _ (autoFire_calm s1 env k1 He)).
  rewrite (bind_run _ (updateEnemies_calm (idleFire s1) env k1 He)).
  rewrite (bind_run _ H4).
  rewrite (bind_run _ H5).
  rewrite (bind_run _ (cleanupEnemies_calm _ s5 env k5 He5)).
  rewrite (bind_run _ (updateXpOrbs_calm fuel _ s5 env k5 Ho5)).
  reflexivity.
Qed.

Lemma finish_shake_value t :
  0.5 <= cameraShake t * 0.9 ->
  cameraShake (finish t) = cameraShake t * 0.9.
Proof.
  intros H. unfold finish, cameraShakeDecay.
  assert (E : cameraShake (gameOverCheck (processQueuedLevelUp (updateParticlesAndText t)))
              = cameraShake t).
  { unfold gameOverCheck, processQueuedLevelUp, updateParticlesAndText.
    case_ifs; reflexivity. }
  rewrite E. unfold Rgtb. rewrite (Rltb_true 0 (cameraShake t)) by lra.
  cbn [cameraShake set_cameraShake]. rewrite (Rltb_false _ _ H). reflexivity.
Qed.

(** What the timers stage does to a queued level-up: it drops it only when
    a warp completes, together with every shockwave. *)
Lemma updateTimers_queue fuel s env k s1 k1 :
  updateTimers fuel s env k = Some (s1, k1) ->
  levelUpQueued s1 = levelUpQueued s
  \/ (phase s = WARPING /\ warpTimer s - 1 / 60 <= 0 /\ shockwaves s1 = []).
Proof.
  unfold updateTimers. intros H.
  destruct (GamePhase_eqb (phase s) WARPING) eqn:Ew.
  - assert (Hw : phase s = WARPING) by (destruct (phase s); try discriminate; reflexivity).
    cbn [warpTimer set_warpTimer] in H.
    destruct (Rleb (warpTimer s - 1 / 60) 0) eqn:Et.
    + apply Rleb_spec in Et.
      apply bind_inv in H. destruct H as (sa & ka & Ha & H). inv_ret H.
      right. cbn. auto.
    + inv_ret H. left. reflexivity.
  - destruct (GamePhase_eqb (phase s) SCANNING) eqn:Es; [| inv_ret H; left; reflexivity].
    apply bind_inv in H. destruct H as (sb & kb & Hb & H).
    assert (Fb : levelUpQueued sb = levelUpQueued s).
    { cbn in Hb. destruct (Rgtb _ _).
      - apply bind_inv in Hb. destruct Hb as (sc & kc & Hc & Hb). inv_ret Hb.
        shapes. reflexivity.
      - inv_ret Hb. reflexivity. }
    left.
    destruct (Rgeb _ _); [| inv_ret H; exact Fb].
    apply bind_inv in H. destruct H as (sd & kd & Hd & H). inv_ret H. cbn.
    destruct (findIndex _ _) as [i |]; [| inv_ret Hd; exact Fb].
    destruct (nth_error _ i) as [a |]; [| inv_ret Hd; exact Fb].
    unfold triggerShockwave in Hd. msolve; cbn in *; first [exact Fb | reflexivity].
Qed.

(* ------------------------------------------------------------------ *)
(** * Whole ticks *)

Lemma runTick_paused fuel env s :
  isPaused (phase s) = true -> runTick fuel env s = Some s.
Proof. unfold runTick, updateGame. intros ->. reflexivity. Qed.

Lemma runTick_inv fuel env s s' :
  runTick fuel env s = Some s' ->
  exists k', updateGame fuel s env 0%nat = Some (s', k').
Proof.
  unfold runTick. destruct (updateGame fuel s env 0%nat) as [[t k'] |];
    [| discriminate]. intros H. inversion H; subst. eauto.
Qed.

(** The anatomy of an active tick: the timers, then the stages 2 to 7, then
    the last three stages. *)
Lemma tick_anatomy fuel env s s' :
  isPaused (phase s) = false ->
  runTick fuel env s = Some s' ->
  exists s1 k1 s7,
    updateTimers fuel s env 0%nat = Some (s1, k1)
    /\ steady s1 s7
    /\ s' = finish s7.
Proof.
  intros Hp H. apply runTick_inv in H. destruct H as (k' & H).
  apply (updateGame_stages _ _ _ _ _ _ Hp) in H.
  destruct H as (s1 & k1 & s2 & k2 & s3 & k3 & s4 & k4 & s5 & k5 & s6 & k6 & s7
                 & H1 & H2 & H3 & H4 & H5 & H6 & H7 & ->).
  exists s1, k1, s7. split; [exact H1 |]. split; [| reflexivity].
  eapply middle_steady; eassumption.
Qed.

(** The same anatomy, for the queued level-up and the shockwaves. *)
Lemma tick_anatomy_queue fuel env s s' :
  isPaused (phase s) = false ->
  runTick fuel env s = Some s' ->
  exists s1 k1 s7,
    updateTimers fuel s env 0%nat = Some (s1, k1)
    /\ steady s1 s7
    /\ queueKept s1 s7
    /\ s' = finish s7.
Proof.
  intros Hp H. apply runTick_inv in H. destruct H as (k' & H).
  apply (updateGame_stages _ _ _ _ _ _ Hp) in H.
  destruct H as (s1 & k1 & s2 & k2 & s3 & k3 & s4 & k4 & s5 & k5 & s6 & k6 & s7
                 & H1 & H2 & H3 & H4 & H5 & H6 & H7 & ->).
  exists s1, k1, s7. split; [exact H1 |].
  split; [eapply middle_steady; eassumption |].
  split; [eapply middle_queueKept; eassumption | reflexivity].
Qed.

Lemma updateGame_calm fuel env s k :
  phase s = IDLE -> calm s -> shockwaves s = [] ->
  updateGame fuel s env k = Some (finish (idleMagnet (idleFire s)), k).
Proof.
  intros Hph (He & Hp & Ho) Hw. unfold updateGame. rewrite Hph.
  cbn [isPaused GamePhase_eqb orb].
  assert (HT : updateTimers fuel s env k = Some (s, k))
    by (unfold updateTimers; rewrite Hph; reflexivity).
  rewrite (bind_run _ HT).
  rewrite (bind_run _ (autoFire_calm s env k He)).
  rewrite (bind_run _ (updateEnemies_calm (idleFire s) env k He)).
  rewrite (bind_run _ (updateProjectiles_calm fuel (idleFire s) env k Hp)).
  rewrite (bind_run _ (updateShockwaves_calm (idleFire s) env k Hw)).
  rewrite (bind_run _ (cleanupEnemies_calm _ (idleFire s) env k He)).
  rewrite (bind_run _ (updateXpOrbs_calm fuel _ (idleFire s) env k Ho)).
  reflexivity.
Qed.

Lemma updateGame_last_wave fuel env s w k :
  phase s = IDLE -> calm s -> shockwaves s = [w] ->
  Shockwave.maxRadius w < Shockwave.radius w + Shockwave.speed w ->
  TARGET_CRYSTALS <= Player.crystals (player s) ->
  updateGame fuel s env k
  = Some (finish (idleMagnet (set_phase (set_shockwaves (idleFire s) []) VICTORY)), k).
Proof.
  intros Hph (He & Hp & Ho) Hw Hr Hc. unfold updateGame. rewrite Hph.
  cbn [isPaused GamePhase_eqb orb].
  assert (HT : updateTimers fuel s env k = Some (s, k))
    by (unfold updateTimers; rewrite Hph; reflexivity).
  rewrite (bind_run _ HT).
  rewrite (bind_run _ (autoFire_calm s env k He)).
  rewrite (bind_run _ (updateEnemies_calm (idleFire s) env k He)).
  rewrite (bind_run _ (updateProjectiles_calm fuel (idleFire s) env k Hp)).
  pose proof (updateShockwaves_last (idleFire s) w env k Hw He Hr) as H5.
  replace (Rgeb (Player.crystals (player (idleFire s))) TARGET_CRYSTALS) with true in H5
    by (symmetry; apply Rleb_true; exact Hc).
  rewrite (bind_run _ H5).
  rewrite (bind_run _ (cleanupEnemies_calm _
                         (set_phase (set_shockwaves (idleFire s) []) VICTORY) env k He)).
  rewrite (bind_run _ (updateXpOrbs_calm fuel _
                         (set_phase (set_shockwaves (idleFire s) []) VICTORY) env k Ho)).
  reflexivity.
Qed.

Lemma updateTimers_idle fuel s env k :
  phase s = IDLE -> updateTimers fuel s env k = Some (s, k).
Proof. intros Hph. unfold updateTimers. rewrite Hph. reflexivity. Qed.

(** The tick in which the enemy orb [incoming], alone in an idle arena,
    hits a player standing in the middle of the screen. *)
Lemma strike_runs fuel env s :
  phase s = IDLE ->
  enemies s = [] -> xpOrbs s = [] -> shockwaves s = [] ->
  projectiles s = [incoming] ->
  position (Player.ent (player s)) = mkVec (SCREEN_WIDTH / 2) (SCREEN_HEIGHT / 2) ->
  radius (Player.ent (player s)) = 20 ->
  exists ft, runTick fuel env s = Some (finish (idleMagnet (struck s ft))).
Proof.
  intros Hph He Ho Hw Hp Hpos Hrad.
  destruct (updateProjectiles_strike fuel (idleFire s) incoming env 0%nat)
    as (ft & H4).
  - exact Hp.
  - reflexivity.
  - reflexivity.
  - change (position (Player.ent (player (idleFire s))))
      with (position (Player.ent (player s))).
    change (radius (Player.ent (player (idleFire s))))
      with (radius (Player.ent (player s))).
    rewrite Hpos, Hrad.
    apply Rle_lt_trans with 6; [| cbn; lra].
    apply dist_le; [lra |]. cbn. unfold SCREEN_WIDTH, SCREEN_HEIGHT. lra.
  - exists ft. unfold runTick.
    rewrite (updateGame_no_enemy fuel env s 0%nat s 0%nat (struck s ft) 1%nat
               (struck s ft) 1%nat).
    + reflexivity.
    + rewrite Hph. reflexivity.
    + apply updateTimers_idle. exact Hph.
    + exact He.
    + exact H4.
    + apply updateShockwaves_calm. exact Hw.
    + exact He.
    + exact Ho.
Qed.

(** A tick of the scan in progress: the timers advance, nothing else
    happens. *)
Lemma scanning_runs fuel env :
  runTick fuel env scanning
  = Some (finish (idleMagnet (idleFire (scanTicked scanning)))).
Proof.
  unfold runTick.
  rewrite (updateGame_no_enemy fuel env scanning 0%nat (scanTicked scanning) 0%nat
             (idleFire (scanTicked scanning)) 0%nat
             (idleFire (scanTicked scanning)) 0%nat); try reflexivity.
  apply updateTimers_scan_quiet; [reflexivity | cbn; lra |].
  cbn. unfold SCAN_DURATION_SEC. lra.
Qed.

(** A tick of the idle arena while the wave of an EMP grows. *)
Lemma queuedUnderEmp_runs fuel env :
  runTick fuel env queuedUnderEmp
  = Some (finish (idleMagnet
                    (set_shockwaves (idleFire queuedUnderEmp)
                       [Shockwave.set_radius youngWave
                          (Shockwave.radius youngWave + Shockwave.speed youngWave)]))).
Proof.
  unfold runTick.
  rewrite (updateGame_no_enemy fuel env queuedUnderEmp 0%nat queuedUnderEmp 0%nat
             (idleFire queuedUnderEmp) 0%nat
             (set_shockwaves (idleFire queuedUnderEmp)
                [Shockwave.set_radius youngWave
                   (Shockwave.radius youngWave + Shockwave.speed youngWave)]) 0%nat);
    try reflexivity.
  apply updateShockwaves_growing; [reflexivity | reflexivity |].
  cbn. lra.
Qed.

(** X18.  In the idle phase, with no enemy, projectile, orb or shockwave, a
    tick returns whatever the fuel and draws no random number.  All it does
    is lower the three weapon cooldowns by one, advance the magnet timer,
    age the particles and texts, promote a queued level-up, end the game if
    [hp <= 0] and let the camera shake decay. *)
Theorem calm_tick (fuel : nat) (env : Env) (s : GameState) (k : nat) :
  phase s = IDLE ->
  calm s ->
  shockwaves s = [] ->
  updateGame fuel s env k = Some (finish (idleMagnet (idleFire s)), k)
  /\ calm (finish (idleMagnet (idleFire s)))
  /\ asteroids (finish (idleMagnet (idleFire s))) = asteroids s
  /\ Player.hp (player (finish (idleMagnet (idleFire s)))) = Player.hp (player s).
Proof.
  intros Hph Hc Hw. split; [apply updateGame_calm; assumption |].
  destruct (finish_fields (idleMagnet (idleFire s)))
    as (Fp & Fa & _ & _ & Fe & Fpr & Fo & _).
  destruct Hc as (He & Hp & Ho).
  unfold calm. rewrite Fe, Fpr, Fo, Fa, Fp. auto.
Qed.

Lemma idleState_calm : phase idleState = IDLE /\ calm idleState /\ shockwaves idleState = [].
Proof. repeat split. Qed.

Lemma calm_tick_witness :
  updateGame 0 idleState env0 0%nat
  = Some (finish (idleMagnet (idleFire idleState)), 0%nat).
Proof.
  apply (calm_tick 0 env0 idleState 0%nat); apply idleState_calm.
Defined.

Lemma idleState_runs fuel env :
  runTick fuel env idleState = Some (finish (idleMagnet (idleFire idleState))).
Proof.
  unfold runTick. rewrite updateGame_calm; try apply idleState_calm. reflexivity.
Qed.

Lemma unpaused_phase s :
  isPaused (phase s) = false ->
  phase s = IDLE \/ phase s = WARPING \/ phase s = SCANNING.
Proof. destruct (phase s); cbn; intros H; try discriminate; auto. Qed.

(** The phase before the game-over check of an active tick. *)
Lemma tick_phase_before_check fuel env s s1 k1 s7 :
  isPaused (phase s) = false ->
  updateTimers fuel s env 0%nat = Some (s1, k1) ->
  steady s1 s7 ->
  (phase s7 = IDLE \/ phase s7 = WARPING \/ phase s7 = SCANNING)
  \/ (phase s7 = VICTORY /\ TARGET_CRYSTALS <= Player.crystals (player s7)).
Proof.
  intros Hp H1 St. apply unpaused_phase in Hp.
  apply updateTimers_frame in H1. destruct H1 as (Ph1 & _).
  destruct St as (_ & _ & _ & _ & _ & _ & _ & Cr & _ & Ph7 & _).
  destruct Ph7 as [Ph7 | (Ph7 & Hc)].
  - left. rewrite Ph7. destruct Ph1 as [-> | ->]; tauto.
  - right. rewrite Cr. auto.
Qed.

(** X19.  An active tick ends in [GAME_OVER] exactly when it leaves the
    player with [hp <= 0]. *)
Theorem tick_gameOver_iff (fuel : nat) (env : Env) (s s' : GameState) :
  isPaused (phase s) = false ->
  runTick fuel env s = Some s' ->
  (phase s' = GAME_OVER <-> Player.hp (player s') <= 0).
Proof.
  intros Hp H. destruct (tick_anatomy _ _ _ _ Hp H) as (s1 & k1 & s7 & H1 & St & ->).
  pose proof (tick_phase_before_check _ _ _ _ _ _ Hp H1 St) as Hph.
  destruct (finish_fields s7) as (Fp & _ & _ & _ & _ & _ & _ & Fph).
  rewrite Fp, Fph. destruct (Rleb (Player.hp (player s7)) 0) eqn:E.
  - apply Rleb_spec in E. tauto.
  - apply Rleb_nspec in E. split; [| lra].
    intros G. rewrite G in Hph. destruct Hph as [[? | [? | ?]] | (? & _)]; discriminate.
Qed.

(** The player has one hit point left when the enemy orb lands: the tick
    takes it and ends in [GAME_OVER]. *)
Lemma tick_gameOver_iff_witness :
  exists s',
    runTick 0 env0 lastStand = Some s'
    /\ Player.hp (player s') = 1 - 1
    /\ phase s' = GAME_OVER.
Proof.
  destruct (strike_runs 0 env0 lastStand) as (ft & Hrun); try reflexivity.
  exists (finish (idleMagnet (struck lastStand ft))).
  assert (Hhp : Player.hp (player (finish (idleMagnet (struck lastStand ft)))) = 1 - 1).
  { destruct (finish_fields (idleMagnet (struck lastStand ft))) as (Fp & _).
    rewrite Fp. reflexivity. }
  split; [exact Hrun |]. split; [exact Hhp |].
  apply (tick_gameOver_iff 0 env0 lastStand); [reflexivity | exact Hrun |].
  rewrite Hhp. lra.
Defined.

(** X20.  An active tick ends in [VICTORY] only if the player is alive and
    holds at least [TARGET_CRYSTALS] crystals. *)
Theorem tick_victory_needs_crystals (fuel : nat) (env : Env) (s s' : GameState) :
  isPaused (phase s) = false ->
  runTick fuel env s = Some s' ->
  phase s' = VICTORY ->
  TARGET_CRYSTALS <= Player.crystals (player s') /\ 0 < Player.hp (player s').
Proof.
  intros Hp H Hv. destruct (tick_anatomy _ _ _ _ Hp H) as (s1 & k1 & s7 & H1 & St & ->).
  pose proof (tick_phase_before_check _ _ _ _ _ _ Hp H1 St) as Hph.
  destruct (finish_fields s7) as (Fp & _ & _ & _ & _ & _ & _ & Fph).
  rewrite Fp. rewrite Fph in Hv.
  destruct (Rleb (Player.hp (player s7)) 0) eqn:E; [discriminate |].
  apply Rleb_nspec in E. split; [| exact E].
  rewrite Hv in Hph. destruct Hph as [[? | [? | ?]] | (_ & Hc)]; try discriminate.
  exact Hc.
Qed.

Lemma winningState_runs :
  runTick 0 env0 winningState
  = Some (finish (idleMagnet
                    (set_phase (set_shockwaves (idleFire winningState) []) VICTORY))).
Proof.
  unfold runTick.
  rewrite (updateGame_last_wave 0 env0 winningState lastWave 0%nat).
  - reflexivity.
  - reflexivity.
  - repeat split.
  - reflexivity.
  - cbn. lra.
  - cbn. unfold TARGET_CRYSTALS. lra.
Qed.

Lemma tick_victory_needs_crystals_witness :
  exists s',
    runTick 0 env0 winningState = Some s'
    /\ phase s' = VICTORY
    /\ TARGET_CRYSTALS <= Player.crystals (player s').
Proof.
  exists (finish (idleMagnet
                    (set_phase (set_shockwaves (idleFire winningState) []) VICTORY))).
  assert (Hv : phase (finish (idleMagnet
                                (set_phase (set_shockwaves (idleFire winningState) [])
                                           VICTORY))) = VICTORY).
  { destruct (finish_fields (idleMagnet
                               (set_phase (set_shockwaves (idleFire winningState) [])
                                          VICTORY)))
      as (_ & _ & _ & _ & _ & _ & _ & Fph).
    rewrite Fph. rewrite Rleb_false; [reflexivity |].
    cbn. unfold PLAYER_CONFIG.baseHp. lra. }
  split; [apply winningState_runs |]. split; [exact Hv |].
  apply (tick_victory_needs_crystals 0 env0 winningState);
    [reflexivity | apply winningState_runs | exact Hv].
Defined.

(** X21.  Asteroids never move and are never altered by a tick, and the scan
    target stays selected, except in the tick that completes a warp (the
    field is regenerated) and the tick that completes a scan (the target is
    destroyed). *)
Theorem tick_asteroids_fixed (fuel : nat) (env : Env) (s s' : GameState) :
  runTick fuel env s = Some s' ->
  (asteroids s' = asteroids s /\ scanTargetId s' = scanTargetId s)
  \/ (phase s = WARPING /\ warpTimer s - 1 / 60 <= 0)
  \/ (phase s = SCANNING /\ SCAN_DURATION_SEC <= scanTimer s + 1 / 60).
Proof.
  intros H. destruct (isPaused (phase s)) eqn:Hp.
  - rewrite (runTick_paused _ _ _ Hp) in H. inversion H; subst. auto.
  - destruct (tick_anatomy _ _ _ _ Hp H) as (s1 & k1 & s7 & H1 & St & ->).
    apply updateTimers_frame in H1.
    destruct H1 as (_ & _ & _ & _ & _ & [(Ha & Ht & _) | Hdone]); [| tauto].
    left. destruct St as (A7 & _ & _ & T7 & _).
    destruct (finish_fields s7) as (_ & Fa & Ft & _).
    rewrite Fa, Ft, A7, T7. auto.
Qed.

(** In the middle of a scan the field of two asteroids and the selected
    target come out of the tick as they went in. *)
Lemma tick_asteroids_fixed_witness :
  exists s',
    runTick 0 env0 scanning = Some s'
    /\ asteroids s' = [rock; pebble]
    /\ scanTargetId s' = Some (IdAst 0).
Proof.
  exists (finish (idleMagnet (idleFire (scanTicked scanning)))).
  split; [apply scanning_runs |].
  destruct (tick_asteroids_fixed 0 env0 scanning _ (scanning_runs 0 env0))
    as [(Ha & Ht) | [(Hph & _) | (_ & Hd)]].
  - split; [exact Ha | exact Ht].
  - discriminate Hph.
  - cbn in Hd. unfold SCAN_DURATION_SEC in Hd. lra.
Defined.

(** X22.  A tick never upgrades or degrades a weapon: the level, damage,
    range and [maxCooldown] of the three weapons are the same after the
    tick; only the cooldown counters move. *)
Theorem tick_arsenal (fuel : nat) (env : Env) (s s' : GameState) :
  runTick fuel env s = Some s' ->
  sameArsenal (Player.weapons (player s)) (Player.weapons (player s')).
Proof.
  intros H. destruct (isPaused (phase s)) eqn:Hp.
  - rewrite (runTick_paused _ _ _ Hp) in H. inversion H; subst.
    apply sameArsenal_refl.
  - destruct (tick_anatomy _ _ _ _ Hp H) as (s1 & k1 & s7 & H1 & St & ->).
    apply updateTimers_frame in H1. destruct H1 as (_ & W1 & _).
    destruct St as (_ & _ & _ & _ & _ & _ & _ & _ & W7 & _).
    destruct (finish_fields s7) as (Fp & _). rewrite Fp, <- W1. exact W7.
Qed.

Lemma tick_arsenal_witness :
  exists s',
    runTick 0 env0 idleState = Some s'
    /\ sameArsenal (Player.weapons (player idleState)) (Player.weapons (player s')).
Proof.
  exists (finish (idleMagnet (idleFire idleState))).
  split; [apply idleState_runs |].
  apply (tick_arsenal 0 env0 idleState). apply idleState_runs.
Defined.

(** X23.  The camera shake stays in bounds: started within [[0, 50]], an
    active tick leaves it either at exactly 0 or between 0.5 and 45. *)
Theorem tick_shake_range (fuel : nat) (env : Env) (s s' : GameState) :
  isPaused (phase s) = false ->
  0 <= cameraShake s <= 50 ->
  runTick fuel env s = Some s' ->
  cameraShake s' = 0 \/ 0.5 <= cameraShake s' <= 45.
Proof.
  intros Hp Hc H. destruct (tick_anatomy _ _ _ _ Hp H) as (s1 & k1 & s7 & H1 & St & ->).
  apply updateTimers_frame in H1. destruct H1 as (_ & _ & _ & _ & C1 & _).
  destruct St as (_ & _ & _ & _ & _ & _ & _ & _ & _ & _ & C7).
  specialize (C7 (C1 Hc)).
  destruct (finish_shake s7) as [E | (E1 & E2)]; [left; exact E |].
  right. rewrite E2 in *. lra.
Qed.

(** The enemy orb that lands sets the shake to 5; the last stage lets it
    decay to 4.5. *)
Lemma tick_shake_range_witness :
  exists s',
    runTick 0 env0 underFire = Some s'
    /\ cameraShake s' = 5 * 0.9
    /\ (cameraShake s' = 0 \/ 0.5 <= cameraShake s' <= 45).
Proof.
  destruct (strike_runs 0 env0 underFire) as (ft & Hrun); try reflexivity.
  exists (finish (idleMagnet (struck underFire ft))).
  split; [exact Hrun |]. split.
  - rewrite finish_shake_value; [reflexivity | cbn; lra].
  - apply (tick_shake_range 0 env0 underFire);
      [reflexivity | cbn; lra | exact Hrun].
Defined.

(* ------------------------------------------------------------------ *)
(** * The host around a tick *)

Lemma hostTick_inv fuel env s s'' :
  hostTick fuel env s = Some s'' ->
  exists s', runTick fuel env s = Some s' /\ s'' = afterTick s'.
Proof.
  unfold hostTick. destruct (runTick fuel env s) as [s' |]; [| discriminate].
  intros H. inversion H; subst. eauto.
Qed.

Lemma afterTick_fields t :
  shockwaves (afterTick t) = shockwaves t
  /\ levelUpQueued (afterTick t) = levelUpQueued t
  /\ justLeveledUp (afterTick t) = false
  /\ justScanned (afterTick t) = false
  /\ phase (afterTick t) = (if justLeveledUp t then LEVEL_UP else phase t).
Proof.
  unfold afterTick. destruct (justScanned t) eqn:Es; cbn;
    destruct (justLeveledUp t) eqn:El; cbn; auto.
Qed.

(** X24.  A queued level-up waits for the EMP.  After an active tick the
    host enters [LEVEL_UP] only when no shockwave is left on the screen, and
    the one-off flags are then consumed.  While a shockwave remains after
    the tick, a level-up that was queued before it is still queued.  Once
    none remains, a level-up that was queued opens the [LEVEL_UP] screen,
    unless the tick completed a warp, which drops the queue. *)
Theorem hostTick_levelUp_waits (fuel : nat) (env : Env) (s s' : GameState) :
  isPaused (phase s) = false ->
  justLeveledUp s = false ->
  hostTick fuel env s = Some s' ->
  (phase s' = LEVEL_UP ->
   shockwaves s' = [] /\ levelUpQueued s' = false
   /\ justLeveledUp s' = false /\ justScanned s' = false)
  /\ (levelUpQueued s = true ->
      shockwaves s' <> [] ->
      levelUpQueued s' = true /\ phase s' <> LEVEL_UP)
  /\ (levelUpQueued s = true ->
      shockwaves s' = [] ->
      ~ (phase s = WARPING /\ warpTimer s - 1 / 60 <= 0) ->
      phase s' = LEVEL_UP).
Proof.
  intros Hp Hj H. apply hostTick_inv in H. destruct H as (t & H & ->).
  destruct (afterTick_fields t) as (Fw & Fq & Fj & Fs & Fph).
  rewrite Fw, Fq, Fj, Fs, Fph.
  destruct (tick_anatomy_queue _ _ _ _ Hp H) as (s1 & k1 & s7 & H1 & St & Qk & ->).
  pose proof (tick_phase_before_check _ _ _ _ _ _ Hp H1 St) as Hph.
  destruct (finish_fields s7) as (_ & _ & _ & Fsw & _ & _ & _ & Fp7).
  destruct (finish_flags s7) as (Gj & Gq & _).
  pose proof (updateTimers_queue _ _ _ _ _ _ H1) as Q1.
  apply updateTimers_frame in H1. destruct H1 as (_ & _ & _ & J1 & _).
  destruct St as (_ & _ & _ & _ & _ & _ & J7 & _).
  destruct Qk as (Qq & Qw).
  assert (Hnot : justLeveledUp (finish s7) = false -> phase (finish s7) <> LEVEL_UP).
  { intros _. rewrite Fp7. destruct (Rleb _ 0); [discriminate |].
    intros Hl. rewrite Hl in Hph.
    destruct Hph as [[? | [? | ?]] | (? & _)]; discriminate. }
  rewrite Fsw, Gq, Gj in *. rewrite J7, J1, Hj in *.
  split; [| split].
  - intros Hl.
    destruct (levelUpQueued s7 && Nat.eqb (List.length (shockwaves s7)) 0) eqn:E.
    + apply andb_true_iff in E. destruct E as (_ & En). rewrite En.
      apply Nat.eqb_eq in En. apply length_zero_iff_nil in En. auto.
    + exfalso. apply (Hnot eq_refl). exact Hl.
  - intros Hq Hsw.
    assert (En : Nat.eqb (List.length (shockwaves s7)) 0 = false).
    { apply Nat.eqb_neq. intros E. apply length_zero_iff_nil in E. contradiction. }
    rewrite En, andb_false_r in *.
    split; [| apply Hnot; reflexivity].
    apply Qq. destruct Q1 as [Q1 | (_ & _ & Q1)]; [congruence |].
    exfalso. apply Hsw. apply Qw. exact Q1.
  - intros Hq Hsw Hwarp.
    destruct Q1 as [Q1 | (Q1 & Q2 & _)]; [| tauto].
    rewrite Qq by congruence. rewrite Hsw. reflexivity.
Qed.

(** A level-up is queued in an idle arena.  With no shockwave about, the
    tick opens the [LEVEL_UP] screen; while the first wave of an EMP is
    growing, the level-up stays queued and the phase stays [IDLE]. *)
Lemma hostTick_levelUp_waits_witness :
  (exists s',
     hostTick 0 env0 queuedState = Some s'
     /\ phase s' = LEVEL_UP
     /\ shockwaves s' = [] /\ levelUpQueued s' = false)
  /\ (exists s',
        hostTick 0 env0 queuedUnderEmp = Some s'
        /\ shockwaves s' <> []
        /\ levelUpQueued s' = true
        /\ phase s' <> LEVEL_UP).
Proof.
  split.
  - assert (Hrun : runTick 0 env0 queuedState
                   = Some (finish (idleMagnet (idleFire queuedState)))).
    { unfold runTick. rewrite updateGame_calm; try reflexivity. repeat split. }
    assert (Hhost : hostTick 0 env0 queuedState
                    = Some (afterTick (finish (idleMagnet (idleFire queuedState))))).
    { unfold hostTick. rewrite Hrun. reflexivity. }
    exists (afterTick (finish (idleMagnet (idleFire queuedState)))).
    destruct (hostTick_levelUp_waits 0 env0 queuedState _ eq_refl eq_refl Hhost)
      as (P1 & _ & P3).
    assert (Hl : phase (afterTick (finish (idleMagnet (idleFire queuedState))))
                 = LEVEL_UP).
    { apply P3; [reflexivity | | intros (Hw & _); discriminate Hw].
      destruct (afterTick_fields (finish (idleMagnet (idleFire queuedState))))
        as (Fw & _).
      destruct (finish_fields (idleMagnet (idleFire queuedState)))
        as (_ & _ & _ & Fsw & _).
      rewrite Fw, Fsw. reflexivity. }
    split; [exact Hhost |]. split; [exact Hl |].
    destruct (P1 Hl) as (A & B & _). split; assumption.
  - set (t := idleMagnet
                (set_shockwaves (idleFire queuedUnderEmp)
                   [Shockwave.set_radius youngWave
                      (Shockwave.radius youngWave + Shockwave.speed youngWave)])).
    assert (Hhost : hostTick 0 env0 queuedUnderEmp = Some (afterTick (finish t))).
    { unfold hostTick. rewrite queuedUnderEmp_runs. reflexivity. }
    exists (afterTick (finish t)).
    destruct (hostTick_levelUp_waits 0 env0 queuedUnderEmp _ eq_refl eq_refl Hhost)
      as (_ & P2 & _).
    assert (Hsw : shockwaves (afterTick (finish t)) <> []).
    { destruct (afterTick_fields (finish t)) as (Fw & _).
      destruct (finish_fields t) as (_ & _ & _ & Fsw & _).
      rewrite Fw, Fsw. discriminate. }
    split; [exact Hhost |]. split; [exact Hsw |].
    apply P2; [reflexivity | exact Hsw].
Defined.

(* ------------------------------------------------------------------ *)
(** * Selecting a scan target and completing the scan *)

Lemma Id_eqb_refl a : Id_eqb a a = true.
Proof.
  destruct a; simpl; try reflexivity.
  - rewrite !Reqb_true by reflexivity. reflexivity.
  - apply Nat.eqb_refl.
  - rewrite String.eqb_refl, Reqb_true by reflexivity. reflexivity.
Qed.

Lemma findIndex_found {A} (f : A -> bool) l i a :
  nth_error l i = Some a -> f a = true ->
  exists j, findIndex f l = Some j /\ (j <= i)%nat.
Proof.
  revert i. induction l as [| h t IH]; intros [| i]; simpl; intros Hn Hf;
    try discriminate.
  - inversion Hn; subst. rewrite Hf. exists 0%nat. split; [reflexivity | lia].
  - destruct (f h); [exists 0%nat; split; [reflexivity | lia] |].
    destruct (IH i Hn Hf) as (j & -> & Hj). exists (S j). split; [reflexivity | lia].
Qed.

Lemma findIndex_first {A} (f : A -> bool) l i a :
  nth_error l i = Some a -> f a = true ->
  (forall j b, (j < i)%nat -> nth_error l j = Some b -> f b = false) ->
  findIndex f l = Some i.
Proof.
  revert i. induction l as [| h t IH]; intros [| i]; simpl; intros Hn Hf Hlt;
    try discriminate.
  - inversion Hn; subst. rewrite Hf. reflexivity.
  - rewrite (Hlt 0%nat h); [| lia | reflexivity].
    rewrite (IH i Hn Hf); [reflexivity |].
    intros j b Hj Hb. apply (Hlt (S j) b); [lia | exact Hb].
Qed.

Lemma findIndex_none {A} (f : A -> bool) l :
  Forall (fun a => f a = false) l -> findIndex f l = None.
Proof.
  induction 1 as [| h t Hh Ht IH]; simpl; [reflexivity |].
  rewrite Hh, IH. reflexivity.
Qed.

(** X25.  What a click on the canvas does.  Outside the idle phase, and when
    no asteroid is under the click, nothing.  Otherwise the first asteroid
    of the field under the click decides: if it has been scanned already,
    nothing happens, even if another asteroid under the click has not; if
    not, a scan of it starts, with the phase [SCANNING], both timers at 0,
    the asteroid flagged and its id stored, and the search that the scan
    completion makes for that id in the field succeeds. *)
Theorem handleCanvasClick_selects (cx cy : R) (s : GameState) :
  (phase s <> IDLE -> handleCanvasClick cx cy s = s)
  /\ (Forall (fun a => underClick cx cy a = false) (asteroids s) ->
      handleCanvasClick cx cy s = s)
  /\ (forall i a,
        firstUnderClick cx cy (asteroids s) i a ->
        isScanned a = true ->
        handleCanvasClick cx cy s = s)
  /\ (forall i a,
        phase s = IDLE ->
        firstUnderClick cx cy (asteroids s) i a ->
        isScanned a = false ->
        handleCanvasClick cx cy s = scanStarted s i a
        /\ exists j,
             findIndex (isScanTarget (scanTargetId (scanStarted s i a)))
                       (asteroids (scanStarted s i a)) = Some j).
Proof.
  unfold handleCanvasClick. fold (underClick cx cy).
  split; [| split; [| split]].
  - intros Hp. destruct (phase s); try reflexivity. contradiction.
  - intros Hn. rewrite (findIndex_none _ _ Hn).
    destruct (negb _); reflexivity.
  - intros i a (Ha & Hc & Hlt) Hs.
    rewrite (findIndex_first _ _ _ _ Ha Hc Hlt), Ha, Hs.
    destruct (negb (GamePhase_eqb _ _)); reflexivity.
  - intros i a Hp (Ha & Hc & Hlt) Hs.
    rewrite (findIndex_first _ _ _ _ Ha Hc Hlt), Ha, Hs, Hp.
    split; [reflexivity |].
    destruct (findIndex_found
                (isScanTarget (Some (id (a_ent a))))
                (list_set (asteroids s) i
                   (set_a_ent (set_isTarget a true)
                              (set_color (a_ent a) COLORS.asteroidTarget)))
                i
                (set_a_ent (set_isTarget a true)
                           (set_color (a_ent a) COLORS.asteroidTarget)))
      as (j & Hj & _).
    + eapply nth_error_list_set_eq. exact Ha.
    + cbn. apply Id_eqb_refl.
    + exists j. exact Hj.
Qed.

(** A click at (105, 100) is on both asteroids of the idle field: the scan
    of the first one starts. *)
Lemma handleCanvasClick_selects_witness :
  handleCanvasClick 105 100 idleField = scanStarted idleField 0 boulder.
Proof.
  destruct (handleCanvasClick_selects 105 100 idleField) as (_ & _ & _ & H).
  apply (H 0%nat boulder); [reflexivity | | reflexivity].
  split; [reflexivity |]. split; [| intros j b Hj; lia].
  unfold underClick. apply Rleb_true.
  change (dist (position (a_ent boulder)) (mkVec 105 100)
          <= radius (a_ent boulder) + 15).
  apply Rle_trans with 5; [| cbn; lra].
  apply dist_le; [lra |]. cbn. lra.
Defined.

Lemma Forall_map_intro {A B} (P : B -> Prop) (f : A -> B) l :
  (forall a, P (f a)) -> Forall P (map f l).
Proof. intros H. induction l; simpl; constructor; auto. Qed.

Lemma resetAsteroid_untargets a : isTarget (resetAsteroid a) = false.
Proof. unfold resetAsteroid. cbn. destruct (negb _); reflexivity. Qed.

Lemma updateTimers_scanning fuel s env k :
  phase s = SCANNING ->
  exists s1 k1,
    updateTimers fuel s env k = Some (s1, k1)
    /\ (if Rgtb (waveTimer s + 1) (Rmax 10 ((100 - (scanTimer s + 1 / 60)) * 0.5))
        then 10 < waveTimer s + 1
             /\ waveTimer s1 = 0
             /\ exists e, enemies s1 = enemies s ++ [e]
        else enemies s1 = enemies s /\ waveTimer s1 = waveTimer s + 1)
    /\ (SCAN_DURATION_SEC <= scanTimer s + 1 / 60 -> scanDone s s1).
Proof.
  intros Hph. unfold updateTimers. rewrite Hph. cbn [GamePhase_eqb].
  cbn [scanTimer set_scanTimer waveTimer set_waveTimer].
  assert (Hb : exists sb kb es wt,
             (if Rgtb (waveTimer s + 1) (Rmax 10 ((100 - (scanTimer s + 1 / 60)) * 0.5))
              then
                state <- spawnEnemy
                           (set_waveTimer (set_scanTimer s (scanTimer s + 1 / 60))
                                          (waveTimer s + 1)) None None ;;
                ret (set_waveTimer state 0)
              else
                ret (set_waveTimer (set_scanTimer s (scanTimer s + 1 / 60))
                                   (waveTimer s + 1))) env k = Some (sb, kb)
             /\ sb = set_waveTimer
                       (set_enemies (set_scanTimer s (scanTimer s + 1 / 60)) es) wt
             /\ (if Rgtb (waveTimer s + 1)
                         (Rmax 10 ((100 - (scanTimer s + 1 / 60)) * 0.5))
                 then 10 < waveTimer s + 1 /\ wt = 0
                      /\ exists e, es = enemies s ++ [e]
                 else es = enemies s /\ wt = waveTimer s + 1)).
  { destruct (Rgtb _ _) eqn:Eg.
    - apply Rltb_spec in Eg.
      pose proof (Rmax_l 10 ((100 - (scanTimer s + 1 / 60)) * 0.5)) as Hmax.
      match goal with
      | |- context [spawnEnemy ?t ?a ?b] =>
          destruct (spawnEnemy_shape t a b env k) as (e & k' & He)
      end.
      rewrite (bind_run _ He). eexists _, _, _, _. split; [reflexivity |].
      split; [reflexivity |]. split; [lra |]. split; [reflexivity |].
      exists e. reflexivity.
    - eexists _, _, (enemies s), _. split; [reflexivity |].
      split; [reflexivity |]. auto. }
  destruct Hb as (sb & kb & es & wt & Hb & -> & Hpace).
  rewrite (bind_run _ Hb).
  cbn [scanTimer set_waveTimer set_enemies set_scanTimer].
  destruct (Rgeb (scanTimer s + 1 / 60) SCAN_DURATION_SEC) eqn:Ed.
  2:{ apply Rleb_nspec in Ed. eexists _, _. split; [reflexivity |].
      split; [exact Hpace | intros; lra]. }
  cbn [scanTargetId asteroids set_justScanned set_player set_phase set_waveTimer
       set_enemies set_scanTimer].
  unfold scanDone.
  destruct (findIndex _ (asteroids s)) as [i |] eqn:Ef.
  - destruct (findIndex_nth _ _ _ Ef) as (target & Ht & _). rewrite Ht.
    match goal with
    | |- context [spawnParticles ?t ?p ?n ?c] =>
        destruct (spawnParticles_shape t p n c env kb) as (ps & kp & Hs)
    end.
    unfold bind at 1. rewrite (bind_run _ Hs). unfold ret.
    eexists _, _. split; [reflexivity |]. cbn.
    split; [exact Hpace |]. intros _.
    do 4 (split; [reflexivity |]).
    split; [apply Forall_map_intro; apply resetAsteroid_untargets |].
    do 2 (split; [reflexivity |]).
    eexists target, _. split; [reflexivity |]. split; [reflexivity |].
    split; reflexivity.
  - unfold bind, ret. eexists _, _. split; [reflexivity |]. cbn.
    split; [exact Hpace |]. intros _.
    do 4 (split; [reflexivity |]).
    split; [apply Forall_map_intro; apply resetAsteroid_untargets |].
    repeat split.
Qed.

(** X26.  The tick in which a scan completes always returns from the timers
    stage.  The player gets one crystal, the phase is [IDLE], the target id
    is cleared and no asteroid is flagged as target any more.  If the target
    is found in the field, it is removed, one shockwave of radius 10 starts
    at its position and the camera shakes at 30; if it is not found, the
    crystal is granted all the same, with no shockwave and no removal. *)
Theorem scan_completion (fuel : nat) (s : GameState) (env : Env) (k : nat) :
  phase s = SCANNING ->
  SCAN_DURATION_SEC <= scanTimer s + 1 / 60 ->
  exists s1 k1,
    updateTimers fuel s env k = Some (s1, k1)
    /\ phase s1 = IDLE
    /\ Player.crystals (player s1) = Player.crystals (player s) + 1
    /\ justScanned s1 = true
    /\ scanTargetId s1 = None
    /\ Forall (fun a => isTarget a = false) (asteroids s1)
    /\ match findIndex (isScanTarget (scanTargetId s)) (asteroids s) with
       | Some i =>
           asteroids s1 = map resetAsteroid (splice1 (asteroids s) i)
           /\ cameraShake s1 = 30
           /\ exists target w,
                nth_error (asteroids s) i = Some target
                /\ shockwaves s1 = shockwaves s ++ [w]
                /\ Shockwave.position w = position (a_ent target)
                /\ Shockwave.radius w = 10
       | None =>
           asteroids s1 = map resetAsteroid (asteroids s)
           /\ cameraShake s1 = cameraShake s
           /\ shockwaves s1 = shockwaves s
       end.
Proof.
  intros Hph Hdone.
  destruct (updateTimers_scanning fuel s env k Hph) as (s1 & k1 & H & _ & Hd).
  exists s1, k1. split; [exact H |]. apply Hd. exact Hdone.
Qed.

(** The scan of the first of two asteroids completes: the target is taken
    out of the field, a shockwave of radius 10 starts where it was, the
    camera shakes at 30 and the player holds one crystal. *)
Lemma scan_completion_witness :
  exists s1 k1,
    updateTimers 0 scanComplete env0 0%nat = Some (s1, k1)
    /\ phase s1 = IDLE
    /\ Player.crystals (player s1) = 0 + 1
    /\ asteroids s1 = [resetAsteroid pebble]
    /\ cameraShake s1 = 30
    /\ exists w,
         shockwaves s1 = [w]
         /\ Shockwave.position w = mkVec 100 100
         /\ Shockwave.radius w = 10.
Proof.
  destruct (scan_completion 0 scanComplete env0 0%nat)
    as (s1 & k1 & H & Hp & Hc & _ & _ & _ & Hm).
  - reflexivity.
  - cbn. unfold SCAN_DURATION_SEC. lra.
  - assert (F : findIndex (isScanTarget (scanTargetId scanComplete))
                          (asteroids scanComplete) = Some 0%nat) by reflexivity.
    rewrite F in Hm. destruct Hm as (Ha & Hs & target & w & Ht & Hw & Hwp & Hwr).
    inversion Ht; subst target.
    exists s1, k1. split; [exact H |]. split; [exact Hp |]. split; [exact Hc |].
    split; [exact Ha |]. split; [exact Hs |].
    exists w. split; [exact Hw |]. split; [exact Hwp | exact Hwr].
Defined.

(** X27.  While scanning, the timers stage spawns one enemy in exactly the
    ticks in which the advanced wave timer exceeds the spawn interval
    [max(10, (100 - scanTimer) * 0.5)], and resets the wave timer to 0; in
    every other tick it spawns none and the wave timer goes up by one.  The
    interval never falls below 10 ticks. *)
Theorem scan_spawn_pacing (fuel : nat) (s : GameState) (env : Env) (k : nat) :
  phase s = SCANNING ->
  exists s1 k1,
    updateTimers fuel s env k = Some (s1, k1)
    /\ (if Rgtb (waveTimer s + 1) (Rmax 10 ((100 - (scanTimer s + 1 / 60)) * 0.5))
        then 10 < waveTimer s + 1
             /\ waveTimer s1 = 0
             /\ exists e, enemies s1 = enemies s ++ [e]
        else enemies s1 = enemies s /\ waveTimer s1 = waveTimer s + 1).
Proof.
  intros Hph.
  destruct (updateTimers_scanning fuel s env k Hph) as (s1 & k1 & H & Hp & _).
  exists s1, k1. auto.
Qed.

(** Eighty-five seconds into the scan the interval is down to 10 ticks:
    with the wave timer at 10 an enemy is spawned and the timer restarts. *)
Lemma scan_spawn_pacing_witness :
  exists s1 k1,
    updateTimers 0 scanSpawning env0 0%nat = Some (s1, k1)
    /\ waveTimer s1 = 0
    /\ exists e, enemies s1 = [e].
Proof.
  destruct (scan_spawn_pacing 0 scanSpawning env0 0%nat eq_refl)
    as (s1 & k1 & H & Hp).
  assert (G : Rgtb (waveTimer scanSpawning + 1)
                   (Rmax 10 ((100 - (scanTimer scanSpawning + 1 / 60)) * 0.5)) = true).
  { unfold Rgtb. apply Rltb_true. cbn. apply Rmax_lub_lt; lra. }
  rewrite G in Hp. destruct Hp as (_ & Hw & e & He).
  exists s1, k1. split; [exact H |]. split; [exact Hw |]. exists e. exact He.
Defined.

(* ------------------------------------------------------------------ *)
(** * How an orb approaches the player *)

(** X29.  The step of one orb.  An orb that is neither magnetized nor within
    the magnet range is left where it is.  An orb that is attracted and not
    yet within collecting distance (20) takes one step towards the player:
    its position moves by its speed, 10 when magnetized and 2 otherwise, in
    the direction [angle] gives from the orb to the player.  It is not
    collected, nothing else changes, and no random number is drawn. *)
Theorem orbStep_approach (fuel i : nat) (s : GameState) (o : XpOrb.t)
    (env : Env) (k : nat) :
  nth_error (xpOrbs s) i = Some o ->
  (XpOrb.isMagnetized o = false ->
   PLAYER_CONFIG.magnetRange
   <= dist (position (XpOrb.ent o)) (position (Player.ent (player s))) ->
   orbStep fuel i s env k = Some (s, k))
  /\ (20 <= dist (position (XpOrb.ent o)) (position (Player.ent (player s))) ->
      (XpOrb.isMagnetized o = true
       \/ dist (position (XpOrb.ent o)) (position (Player.ent (player s)))
          < PLAYER_CONFIG.magnetRange) ->
      orbStep fuel i s env k
      = Some (set_xpOrbs s
                (list_set (xpOrbs s) i
                   (orbMoved o
                      (angle (position (XpOrb.ent o))
                             (position (Player.ent (player s))))
                      (if XpOrb.isMagnetized o then PLAYER_CONFIG.magnetSpeed
                       else PLAYER_CONFIG.passiveSpeed))), k)).
Proof.
  intros Ho. unfold orbStep. rewrite Ho.
  set (pp := position (Player.ent (player s))) in *.
  set (d := dist (position (XpOrb.ent o)) pp) in *.
  split.
  - intros Hm Hfar. rewrite Hm, (Rltb_false _ _ Hfar). reflexivity.
  - intros Hd Hatt.
    assert (Hcond : Rltb d PLAYER_CONFIG.magnetRange || XpOrb.isMagnetized o = true).
    { destruct Hatt as [-> | Hlt]; [apply orb_true_r |].
      rewrite (Rltb_true _ _ Hlt). reflexivity. }
    rewrite Hcond. rewrite (Rltb_false d 20 Hd). reflexivity.
Qed.

Lemma farOrb_dist :
  dist (position (XpOrb.ent farOrb)) (position (Player.ent (player oneOrb))) = 600.
Proof.
  apply dist_exact; cbn; unfold SCREEN_WIDTH, SCREEN_HEIGHT; lra.
Qed.

(** A magnetized orb 600 units away moves 10 units towards the player. *)
Lemma orbStep_approach_witness :
  orbStep 0 0 oneOrb env0 0%nat
  = Some (set_xpOrbs oneOrb
            [orbMoved farOrb
               (angle (position (XpOrb.ent farOrb))
                      (position (Player.ent (player oneOrb))))
               PLAYER_CONFIG.magnetSpeed], 0%nat).
Proof.
  destruct (orbStep_approach 0 0 oneOrb farOrb env0 0%nat eq_refl) as (_ & H).
  apply H.
  - rewrite farOrb_dist. lra.
  - left. reflexivity.
Defined.

(* ------------------------------------------------------------------ *)
(** * Upgrades *)

Lemma missile_up_once s :
  Weapon.level (getWeapon (Player.weapons (player (applyUpgradeEffect missile_up s))) MISSILE)
  = Weapon.level (getWeapon (Player.weapons (player s)) MISSILE) + 1
  /\ Weapon.maxCooldown
       (getWeapon (Player.weapons (player (applyUpgradeEffect missile_up s))) MISSILE)
     = (if Rgtb (Weapon.level (getWeapon (Player.weapons (player s)) MISSILE) + 1) 1
        then Weapon.maxCooldown (getWeapon (Player.weapons (player s)) MISSILE) * 0.8
        else Weapon.maxCooldown (getWeapon (Player.weapons (player s)) MISSILE)).
Proof.
  unfold applyUpgradeEffect, updWeapon. cbn.
  destruct (Rgtb _ 1); cbn; auto.
Qed.

Lemma laser_up_once s :
  Weapon.level (getWeapon (Player.weapons (player (applyUpgradeEffect laser_up s))) LASER)
  = Weapon.level (getWeapon (Player.weapons (player s)) LASER) + 1
  /\ Weapon.damage
       (getWeapon (Player.weapons (player (applyUpgradeEffect laser_up s))) LASER)
     = (if Rgtb (Weapon.level (getWeapon (Player.weapons (player s)) LASER) + 1) 1
        then Weapon.damage (getWeapon (Player.weapons (player s)) LASER) * 1.5
        else Weapon.damage (getWeapon (Player.weapons (player s)) LASER)).
Proof.
  unfold applyUpgradeEffect, updWeapon. cbn.
  destruct (Rgtb _ 1); cbn; auto.
Qed.

Lemma count_up n : Nat.iter n (fun l => l + 1) 0 = INR n.
Proof.
  induction n as [| n IH]; [reflexivity |].
  rewrite S_INR, <- IH. reflexivity.
Qed.

(** X30.  Upgrading a locked weapon again and again.  Each upgrade adds 1
    to the level.  The first upgrade of the missile only unlocks it (fire
    rate unchanged) and each later one multiplies its [maxCooldown] by 0.8
    once more; likewise the first upgrade of the laser only unlocks it and
    each later one multiplies its damage by 1.5 once more. *)
Theorem repeated_upgrades (n : nat) (s : GameState) :
  Weapon.level (getWeapon (Player.weapons (player s)) MISSILE) = 0 ->
  Weapon.level (getWeapon (Player.weapons (player s)) LASER) = 0 ->
  (let s' := Nat.iter (S n) (applyUpgradeEffect missile_up) s in
   Weapon.level (getWeapon (Player.weapons (player s')) MISSILE)
   = Nat.iter (S n) (fun l => l + 1) 0
   /\ Weapon.maxCooldown (getWeapon (Player.weapons (player s')) MISSILE)
      = Nat.iter n (fun c => c * 0.8)
          (Weapon.maxCooldown (getWeapon (Player.weapons (player s)) MISSILE)))
  /\ (let s' := Nat.iter (S n) (applyUpgradeEffect laser_up) s in
      Weapon.level (getWeapon (Player.weapons (player s')) LASER)
      = Nat.iter (S n) (fun l => l + 1) 0
      /\ Weapon.damage (getWeapon (Player.weapons (player s')) LASER)
         = Nat.iter n (fun d => d * 1.5)
             (Weapon.damage (getWeapon (Player.weapons (player s)) LASER))).
Proof.
  intros Hm Hl. split.
  - induction n as [| n IH].
    + cbv zeta.
      change (Nat.iter 1 (applyUpgradeEffect missile_up) s)
        with (applyUpgradeEffect missile_up s).
      destruct (missile_up_once s) as (E1 & E2).
      rewrite E1, E2, Hm. unfold Rgtb. rewrite Rltb_false by lra.
      split; reflexivity.
    + cbv zeta in *. destruct IH as (IH1 & IH2).
      change (Nat.iter (S (S n)) (applyUpgradeEffect missile_up) s)
        with (applyUpgradeEffect missile_up
                (Nat.iter (S n) (applyUpgradeEffect missile_up) s)).
      destruct (missile_up_once (Nat.iter (S n) (applyUpgradeEffect missile_up) s))
        as (E1 & E2).
      rewrite E1, E2, IH1, IH2.
      unfold Rgtb. rewrite Rltb_true; [split; reflexivity |].
      rewrite count_up. pose proof (pos_INR n) as Hn. rewrite S_INR. lra.
  - induction n as [| n IH].
    + cbv zeta.
      change (Nat.iter 1 (applyUpgradeEffect laser_up) s)
        with (applyUpgradeEffect laser_up s).
      destruct (laser_up_once s) as (E1 & E2).
      rewrite E1, E2, Hl. unfold Rgtb. rewrite Rltb_false by lra.
      split; reflexivity.
    + cbv zeta in *. destruct IH as (IH1 & IH2).
      change (Nat.iter (S (S n)) (applyUpgradeEffect laser_up) s)
        with (applyUpgradeEffect laser_up
                (Nat.iter (S n) (applyUpgradeEffect laser_up) s)).
      destruct (laser_up_once (Nat.iter (S n) (applyUpgradeEffect laser_up) s))
        as (E1 & E2).
      rewrite E1, E2, IH1, IH2.
      unfold Rgtb. rewrite Rltb_true; [split; reflexivity |].
      rewrite count_up. pose proof (pos_INR n) as Hn. rewrite S_INR. lra.
Qed.

(** Three upgrades of the missile from the start of the game: level 3, and
    the cooldown of 120 ticks multiplied by 0.8 twice. *)
Lemma repeated_upgrades_witness :
  Weapon.level
    (getWeapon
       (Player.weapons
          (player (Nat.iter 3 (applyUpgradeEffect missile_up) createInitialState)))
       MISSILE) = 0 + 1 + 1 + 1
  /\ Weapon.maxCooldown
       (getWeapon
          (Player.weapons
             (player (Nat.iter 3 (applyUpgradeEffect missile_up) createInitialState)))
          MISSILE)
     = Weapon.maxCooldown
         (getWeapon (Player.weapons (player createInitialState)) MISSILE)
       * 0.8 * 0.8.
Proof.
  destruct (repeated_upgrades 2 createInitialState eq_refl eq_refl) as (H & _).
  exact H.
Defined.

